(** * ifql: query evaluator, filter push-down, storage reader and selectors

    A shallow embedding of the Go sources of the ifql query engine:

    - [Storage]   the storage reader and its block iterator
                  (package execute: storageReader, readState,
                  storageBlockIterator, storageBlockValueIterator);
    - [Max]       the max row selector (package functions);
    - [Plan]      the filter push-down into the from procedure;
    - [Filter]    the filter transformation;
    - [Eval]      the evaluator that lowers a program to a query spec
                  (package ifql);
    - [StorageIter] the value iterators of a storage block
                  (DoFloat, DoString, DoTime and the At accessors);
    - [Select]    the source of the select procedure;
    - [Registry]  the tables of registered constructors.

    Go conventions used throughout: an [int64] is a [Z]; a [float64] is
    an IEEE-754 value of [spec_float] compared with [SFltb]; a Go
    [map] is a [gmap]; a slice that is shared between values is a
    header over a heap array; a panic is an explicit outcome. *)

From Stdlib Require Import ZArith List Bool Lia.
From Stdlib Require Import Floats.SpecFloat.
From stdpp Require Import gmap strings list fin_maps pretty.

Set Warnings "-register-all".
Open Scope Z_scope.

(** ** Types shared by the packages *)

(** execute.Time is an int64 of nanoseconds. *)
Definition Time := Z.

Definition float64 := spec_float.

(** Go's [error] values that the modelled code creates or receives. *)
Inductive error : Type :=
  | io_EOF
  | ErrTransport (msg : string)
  | Errorf (msg : string)
  | Wrapf (cause : error) (msg : string).

(** The outcome of a call that may panic. *)
Inductive outcome (A : Type) : Type :=
  | Done (a : A)
  | Panic (msg : string).
Arguments Done {A} a.
Arguments Panic {A} msg.

(** execute.DataType: the kinds a column can have.  [TInvalid] is the
    zero value; every switch over a DataType has a default branch. *)
Inductive DataType : Type :=
  | TInvalid | TTime | TString | TFloat | TInt | TUInt | TBool.

Global Instance DataType_eq_dec : EqDecision DataType.
Proof. solve_decision. Defined.

(** execute.ColMeta *)
Record ColMeta : Type := mkColMeta {
  Label : string;
  Type_ : DataType;
  IsTag : bool;
  IsCommon : bool
}.

Definition TimeColLabel : string := "time".
Definition ValueColLabel : string := "value".
Definition TimeCol : ColMeta := mkColMeta TimeColLabel TTime false false.
Definition ValueCol : ColMeta := mkColMeta ValueColLabel TFloat false false.

(** execute.Bounds *)
Record Bounds : Type := mkBounds { Start : Time; Stop : Time }.

(** * The storage reader (package execute) *)
Module Storage.

(** storage.Predicate is an opaque message of the RPC package. *)
Inductive Predicate : Type := PredicateNode (repr : string).

Module ReadSpec.
Record t : Type := mk {
  Database : string;
  Predicate : option Storage.Predicate;
  Limit : Z;
  Descending : bool
}.
End ReadSpec.

Record TimestampRange : Type := mkRange { Range_Start : Z; Range_End : Z }.

(** storage.ReadRequest; [zero] is the value of [var req]. *)
Module ReadRequest.
Record t : Type := mk {
  Database : string;
  Predicate : option Storage.Predicate;
  Limit : Z;
  Descending : bool;
  TimestampRange : Storage.TimestampRange
}.
Definition zero : t := mk "" None 0 false (mkRange 0 0).
Definition set_Database v (r : t) : t :=
  mk v (Predicate r) (Limit r) (Descending r) (TimestampRange r).
Definition set_Predicate v (r : t) : t :=
  mk (Database r) v (Limit r) (Descending r) (TimestampRange r).
Definition set_Descending v (r : t) : t :=
  mk (Database r) (Predicate r) (Limit r) v (TimestampRange r).
Definition set_Start v (r : t) : t :=
  mk (Database r) (Predicate r) (Limit r) (Descending r)
     (mkRange v (Range_End (TimestampRange r))).
Definition set_End v (r : t) : t :=
  mk (Database r) (Predicate r) (Limit r) (Descending r)
     (mkRange (Range_Start (TimestampRange r)) v).
End ReadRequest.

(** The frames of a ReadResponse: the six kinds of the wire format. *)
Inductive Frame : Type :=
  | Series (tags : list (string * string))
  | IntegerPoints (timestamps : list Z) (values : list Z)
  | FloatPoints (timestamps : list Z) (values : list float64)
  | StringPoints (timestamps : list Z) (values : list string)
  | BooleanPoints (timestamps : list Z) (values : list bool)
  | UnsignedPoints (timestamps : list Z) (values : list Z).

(** What one call of stream.RecvMsg yields. *)
Inductive Recv : Type :=
  | RecvResponse (frames : list Frame)
  | RecvError (err : error).

(** storage.Storage_ReadClient: the messages still to be received.
    An exhausted stream answers io.EOF. *)
Definition Storage_ReadClient := list Recv.

Record readState : Type := mkReadState {
  stream : Storage_ReadClient;
  rep : list Frame
}.

Inductive responseType : Type :=
  | seriesType | integerPointsType | floatPointsType.

Global Instance responseType_eq_dec : EqDecision responseType.
Proof. solve_decision. Defined.

Definition peek (s : readState) : outcome responseType :=
  match rep s with
  | [] => Panic "index out of range"
  | Series _ :: _ => Done seriesType
  | IntegerPoints _ _ :: _ => Done integerPointsType
  | FloatPoints _ _ :: _ => Done floatPointsType
  | _ :: _ =>
      Panic "read response frame should have one of series, integerPoints, or floatPoints"
  end.

(** [RecvMsg]: the next message replaces [rep]; an error leaves the
    state as it is. *)
Definition RecvMsg (s : readState) : option error * readState :=
  match stream s with
  | [] => (Some io_EOF, s)
  | RecvError e :: _ => (Some e, s)
  | RecvResponse fs :: rest => (None, mkReadState rest fs)
  end.

Definition more (s : readState) : bool * readState :=
  match rep s with
  | _ :: _ => (true, s)
  | [] =>
      match RecvMsg s with
      | (Some err, s') =>
          match err with
          | io_EOF => (false, s')
          | _ => (false, s')
          end
      | (None, s') => (true, s')
      end
  end.

Definition next (s : readState) : outcome (Frame * readState) :=
  match rep s with
  | [] => Panic "index out of range"
  | frame :: frames => Done (frame, mkReadState (stream s) frames)
  end.

Definition Tags := gmap string string.

Record storageBlock : Type := mkBlock {
  bounds : Bounds;
  tags : Tags;
  colMeta : ColMeta * ColMeta
}.

Record storageBlockIterator : Type := mkIterator {
  it_bounds : Bounds;
  data : readState
}.

(** ** storageReader.Read *)
Section Reader.
(** The RPC transport: yarpc.Dial and the client's Read call. *)
Context {ClientConn : Type}.
Variable Dial : string -> error + ClientConn.
Variable client_Read : ClientConn -> ReadRequest.t -> error + Storage_ReadClient.

Record storageReader : Type := mkReader { connections : list ClientConn }.

Definition connect (sr : storageReader) : storageReader * (error + ClientConn) :=
  match Dial "localhost:8082" with
  | inl err => (sr, inl err)
  | inr conn => (mkReader (connections sr ++ [conn]), inr conn)
  end.

(** What [Read] did: the reader afterwards, the request handed to the
    client (if any) and the returned pair. *)
Record ReadResult : Type := mkReadResult {
  reader : storageReader;
  sent : option ReadRequest.t;
  returned : error + storageBlockIterator
}.

Definition Read (sr : storageReader) (readSpec : ReadSpec.t) (start stop : Time)
    : ReadResult :=
  match connect sr with
  | (sr, inl err) => mkReadResult sr None (inl err)
  | (sr, inr conn) =>
      let req := ReadRequest.zero in
      let req := ReadRequest.set_Database (ReadSpec.Database readSpec) req in
      let req := ReadRequest.set_Predicate (ReadSpec.Predicate readSpec) req in
      (* req.Limit = limit   (commented out in the source) *)
      let req := ReadRequest.set_Descending (ReadSpec.Descending readSpec) req in
      let req := ReadRequest.set_Start start req in
      let req := ReadRequest.set_End stop req in
      match client_Read conn req with
      | inl err => mkReadResult sr (Some req) (inl err)
      | inr stream =>
          mkReadResult sr (Some req)
            (inr (mkIterator (mkBounds start stop) (mkReadState stream [])))
      end
  end.
End Reader.

(** ** storageBlockIterator.Do *)

(** The tag map built from a series frame: a later key overwrites. *)
Definition series_tags (ts : list (string * string)) : Tags :=
  foldl (fun (m : gmap string string) t => <[t.1 := t.2]> m) ∅ ts.

(** How a run of [Do] ends.  [Waiting]: [block.wait] never returns,
    the consumer did not close [done].  [Spinning]: the loop is still
    running when the fuel is used up. *)
Inductive DoOutcome : Type :=
  | Returned (delivered : list storageBlock) (s : readState)
  | Panicked (msg : string)
  | Waiting (delivered : list storageBlock)
  | Spinning (delivered : list storageBlock) (s : readState).

(** [f] stands for the callback followed by [block.wait()]: it gets the
    block and the shared read state and yields the read state at the
    moment [done] is closed, or [None] when that never happens.  [Do]
    has no other channel towards its consumer. *)
Fixpoint Do (fuel : nat) (f : storageBlock -> readState -> option readState)
    (bi_bounds : Bounds) (s : readState) (delivered : list storageBlock) : DoOutcome :=
  match fuel with
  | O => Spinning delivered s
  | S fuel =>
      match more s with
      | (false, s) => Returned delivered s
      | (true, s) =>
          match peek s with
          | Panic msg => Panicked msg
          | Done p =>
              if bool_decide (p <> seriesType) then
                Do fuel f bi_bounds s delivered
              else
                match next s with
                | Panic msg => Panicked msg
                | Done (frame, s) =>
                    match frame with
                    | Series ts =>
                        let block := mkBlock bi_bounds (series_tags ts) (TimeCol, ValueCol) in
                        match f block s with
                        | None => Waiting (delivered ++ [block])
                        | Some s => Do fuel f bi_bounds s (delivered ++ [block])
                        end
                    | _ => Panicked "nil pointer dereference"
                    end
                end
          end
      end
  end.

(** ** storageBlockValueIterator.advance *)

(** The contents of colBufs: an interface holding one of the buffers. *)
Inductive colBuf : Type :=
  | nilBuf
  | TimeBuf (ts : list Time)
  | IntBuf (vs : list Z)
  | FloatBuf (vs : list float64)
  | StringBuf (vs : list string).

Record storageBlockValueIterator : Type := mkValueIterator {
  vi_data : readState;
  vi_colMeta : ColMeta * ColMeta;
  col : nat;
  colBufs : colBuf * colBuf;
  timeBuf : list Time;
  floatBuf : list float64;
  stringBuf : list string;
  intBuf : list Z
}.

(** The copy loop [for i, c := range p.Timestamps]: reads [p.Values[i]]
    for every timestamp and panics when the values run out. *)
Fixpoint copy_points {V : Type} (timestamps : list Z) (values : list V)
    : outcome (list Time * list V) :=
  match timestamps with
  | [] => Done ([], [])
  | c :: timestamps =>
      match values with
      | [] => Panic "index out of range"
      | v :: values =>
          match copy_points timestamps values with
          | Done (tb, vb) => Done (c :: tb, v :: vb)
          | Panic msg => Panic msg
          end
      end
  end.

(** Every branch of the switch inside the loop returns, so the loop
    body runs at most once. *)
Definition advance (b : storageBlockValueIterator)
    : outcome (bool * storageBlockValueIterator) :=
  match more (vi_data b) with
  | (false, d) =>
      Done (false, mkValueIterator d (vi_colMeta b) (col b) (colBufs b)
                     (timeBuf b) (floatBuf b) (stringBuf b) (intBuf b))
  | (true, d) =>
      (* reset buffers *)
      let b := mkValueIterator d (vi_colMeta b) (col b) (colBufs b) [] [] [] [] in
      match peek d with
      | Panic msg => Panic msg
      | Done seriesType => Done (false, b)
      | Done integerPointsType =>
          match next d with
          | Panic msg => Panic msg
          | Done (IntegerPoints ts vs, d) =>
              match copy_points ts vs with
              | Panic msg => Panic msg
              | Done (tb, ib) =>
                  Done (true, mkValueIterator d (vi_colMeta b) (col b)
                                (TimeBuf tb, IntBuf ib) tb (floatBuf b) (stringBuf b) ib)
              end
          | Done _ => Panic "nil pointer dereference"
          end
      | Done floatPointsType =>
          match next d with
          | Panic msg => Panic msg
          | Done (FloatPoints ts vs, d) =>
              match copy_points ts vs with
              | Panic msg => Panic msg
              | Done (tb, fb) =>
                  Done (true, mkValueIterator d (vi_colMeta b) (col b)
                                (TimeBuf tb, FloatBuf fb) tb fb (stringBuf b) (intBuf b))
              end
          | Done _ => Panic "nil pointer dereference"
          end
      end
  end.

End Storage.

(** * Rows and row readers (package execute) *)

(** A cell of a block: the dynamic values that the typed accessors
    [AtBool], [AtInt], ... return. *)
Inductive cell : Type :=
  | CBool (b : bool)
  | CInt (v : Z)
  | CUInt (v : Z)
  | CFloat (v : float64)
  | CString (v : string)
  | CTime (v : Time).

(** execute.Row *)
Record Row : Type := mkRow { Values : list cell }.

(** * The max selector (package functions) *)
Module MaxSelect.

(** A row reader gives access to the rows of the frame being processed. *)
Definition RowReader := Z -> Row.

(** Modelled from the spec: execute.ReadRow is not part of the sources;
    it returns the row at [idx] with all its columns copied. *)
Definition ReadRow (idx : Z) (rr : RowReader) : Row := rr idx.

Record MaxSelector : Type := mkMaxSelector {
  set : bool;
  rows : list Row
}.

Definition Rows (s : MaxSelector) : list Row :=
  if negb (set s) then [] else rows s.

Definition selectRow (s : MaxSelector) (idx : Z) (rr : RowReader) : MaxSelector :=
  (* Capture row *)
  if 0 <=? idx then mkMaxSelector (set s) [ReadRow idx rr] else s.

Section Typed.
(** The three typed selectors differ in the type of [max] and in the
    comparison [v > s.max] only. *)
Context {V : Type}.
Variable gt : V -> V -> bool.

Record MaxTypedSelector : Type := mkTyped {
  base : MaxSelector;
  max : V
}.

(** The loop [for i, v := range vs] from index [i] on. *)
Fixpoint range_loop (s : MaxTypedSelector) (maxIdx : Z) (i : Z) (vs : list V)
    : MaxTypedSelector * Z :=
  match vs with
  | [] => (s, maxIdx)
  | v :: vs =>
      if negb (set (base s)) || gt v (max s) then
        range_loop (mkTyped (mkMaxSelector true (rows (base s))) v) i (i + 1) vs
      else
        range_loop s maxIdx (i + 1) vs
  end.

Definition DoTyped (s : MaxTypedSelector) (vs : list V) (rr : RowReader)
    : MaxTypedSelector :=
  let maxIdx := -1 in
  let '(s, maxIdx) := range_loop s maxIdx 0 vs in
  mkTyped (selectRow (base s) maxIdx rr) (max s).

End Typed.

Arguments MaxTypedSelector V : clear implicits.

Definition MaxIntSelector := MaxTypedSelector Z.
Definition MaxUIntSelector := MaxTypedSelector Z.
Definition MaxFloatSelector := MaxTypedSelector float64.

(** Go's [>] on float64: false as soon as one side is NaN. *)
Definition float_gt (v m : float64) : bool := SFltb m v.

Definition DoInt (s : MaxIntSelector) (vs : list Z) (rr : RowReader) : MaxIntSelector :=
  DoTyped Z.gtb s vs rr.

Definition DoUInt (s : MaxUIntSelector) (vs : list Z) (rr : RowReader) : MaxUIntSelector :=
  DoTyped Z.gtb s vs rr.

Definition DoFloat (s : MaxFloatSelector) (vs : list float64) (rr : RowReader)
    : MaxFloatSelector :=
  DoTyped float_gt s vs rr.

(** [new(MaxIntSelector)] and its siblings: the zero values. *)
Definition newMaxInt : MaxIntSelector := mkTyped (mkMaxSelector false []) 0.
Definition newMaxUInt : MaxUIntSelector := mkTyped (mkMaxSelector false []) 0.
Definition newMaxFloat : MaxFloatSelector := mkTyped (mkMaxSelector false []) (S754_zero false).

End MaxSelect.

(** * The syntax tree (package ast), as the evaluator consumes it *)
Module ast.

Inductive OperatorKind : Type :=
  | opUnknown
  | MultiplicationOperator | DivisionOperator | AdditionOperator
  | SubtractionOperator | LessThanEqualOperator | LessThanOperator
  | GreaterThanEqualOperator | GreaterThanOperator | StartsWithOperator
  | InOperator | NotEmptyOperator | EqualOperator | NotEqualOperator.

Inductive LogicalOperatorKind : Type :=
  | logUnknown | AndOperator | OrOperator.

(** The expression nodes.  The parameters of an arrow function are
    identifiers, kept by name.  [OtherExpression] stands for the node
    types that no switch of the evaluator names (unary, conditional). *)
Inductive Expression : Type :=
  | Identifier (Name : string)
  | CallExpression (Callee : Expression) (Arguments : list Expression)
  | MemberExpression (Object : Expression) (Property : Expression)
  | ArrowFunctionExpression (Params : list string) (Body : Expression)
  | BinaryExpression (Operator : OperatorKind) (Left Right : Expression)
  | LogicalExpression (Operator : LogicalOperatorKind) (Left Right : Expression)
  | ArrayExpression (Elements : list Expression)
  | ObjectExpression (Properties : list (string * Expression))
  | DateTimeLiteral (Value : Z)
  | DurationLiteral (Value : Z)
  | NumberLiteral (Value : float64)
  | IntegerLiteral (Value : Z)
  | UnsignedIntegerLiteral (Value : Z)
  | StringLiteral (Value : string)
  | BooleanLiteral (Value : bool)
  | RegexpLiteral (Value : string)
  | OtherExpression (kind : string).

(** The node types that implement the interface ast.Literal. *)
Definition isLiteral (e : Expression) : bool :=
  match e with
  | DateTimeLiteral _ | DurationLiteral _ | NumberLiteral _ | IntegerLiteral _
  | UnsignedIntegerLiteral _ | StringLiteral _ | BooleanLiteral _ | RegexpLiteral _ => true
  | _ => false
  end.

(** A pointer to an arrow function, as the filter specs hold it. *)
Record ArrowFunction : Type := mkArrow {
  Params : list string;
  Body : Expression
}.

Inductive Statement : Type :=
  | VariableDeclaration (Declarations : list (string * Expression))
  | ExpressionStatement (e : Expression)
  | OtherStatement (kind : string).

Record Program : Type := mkProgram { ProgramBody : list Statement }.

End ast.

(** query.Time: an absolute instant or an offset relative to now. *)
Module queryTime.
Record t : Type := mk {
  Absolute : Z;
  Relative : Z;
  IsRelative : bool
}.
Definition zero : t := mk 0 0 false.
Definition Now : t := mk 0 0 true.
End queryTime.

(** * The filter push-down (packages functions and plan) *)
Module Plan.

Inductive ProcedureID : Type :=
  | ProcedureIDFromOperationID (id : string)
  | ProcedureIDForDuplicate (id : ProcedureID).

Record BoundsSpec : Type := mkBoundsSpec {
  Bounds_Start : queryTime.t;
  Bounds_Stop : queryTime.t
}.

(** Modelled from the spec: FromProcedureSpec is declared outside the
    sources; its fields are the ones the push-down code and the plan
    tests name. *)
Record FromProcedureSpec : Type := mkFrom {
  Database : string;
  BoundsSet : bool;
  Bounds : BoundsSpec;
  FilterSet : bool;
  Filter : option ast.ArrowFunction;
  DescendingSet : bool;
  Descending : bool;
  LimitSet : bool;
  PointsLimit : Z
}.

Definition set_FilterSet (v : bool) (s : FromProcedureSpec) : FromProcedureSpec :=
  mkFrom (Database s) (BoundsSet s) (Bounds s) v (Filter s)
         (DescendingSet s) (Descending s) (LimitSet s) (PointsLimit s).

Definition set_Filter (v : option ast.ArrowFunction) (s : FromProcedureSpec)
    : FromProcedureSpec :=
  mkFrom (Database s) (BoundsSet s) (Bounds s) (FilterSet s) v
         (DescendingSet s) (Descending s) (LimitSet s) (PointsLimit s).

Record FilterProcedureSpec : Type := mkFilter { F : option ast.ArrowFunction }.

(** plan.ProcedureSpec: the specs that occur around a filter. *)
Inductive ProcedureSpec : Type :=
  | FromSpec (s : FromProcedureSpec)
  | FilterSpec (s : FilterProcedureSpec)
  | RangeSpec (b : BoundsSpec)
  | OtherSpec (kind : string).

Record Procedure : Type := mkProcedure {
  ID : ProcedureID;
  Spec : ProcedureSpec;
  Parents : list ProcedureID;
  Children : list ProcedureID
}.

Definition set_Spec (v : ProcedureSpec) (p : Procedure) : Procedure :=
  mkProcedure (ID p) v (Parents p) (Children p).

(** Procedures are handled through pointers: the store maps an address
    to the procedure it holds, and the spec of a procedure is owned by
    it. *)
Abbreviation store := (gmap nat Procedure).

(** Modelled from the spec: the planner's [dup] is not part of the
    sources.  It yields a deep copy of the root under a fresh address,
    with the id derived from the root's id. *)
Definition planner_dup (root : nat) (h : store) : nat * store :=
  let a := fresh (dom h) in
  match h !! root with
  | Some p =>
      (a, <[a := mkProcedure (ProcedureIDForDuplicate (ID p)) (Spec p) [] []]> h)
  | None => (a, h)
  end.

(** FilterProcedureSpec.PushDown.  The type assertion of [root.Spec]
    to a from spec panics on any other spec. *)
Definition PushDown (s : FilterProcedureSpec) (root : nat)
    (dup : store -> nat * store) (h : store) : outcome store :=
  match h !! root with
  | None => Panic "nil pointer dereference"
  | Some r =>
      match Spec r with
      | FromSpec selectSpec =>
          if FilterSet selectSpec then
            let '(root, h) := dup h in
            match h !! root with
            | None => Panic "nil pointer dereference"
            | Some r =>
                match Spec r with
                | FromSpec selectSpec =>
                    let selectSpec := set_FilterSet false selectSpec in
                    let selectSpec := set_Filter None selectSpec in
                    Done (<[root := set_Spec (FromSpec selectSpec) r]> h)
                | _ => Panic "interface conversion"
                end
            end
          else
            let selectSpec := set_FilterSet true selectSpec in
            let selectSpec := set_Filter (F s) selectSpec in
            Done (<[root := set_Spec (FromSpec selectSpec) r]> h)
      | _ => Panic "interface conversion"
      end
  end.

End Plan.

(** * The evaluator (package ifql) *)
Module Eval.
Import ast.
Local Open Scope nat_scope.

(** ** Expression trees (package expression) *)
Module expression.

Inductive Operator : Type :=
  | opInvalid
  | MultiplicationOperator | DivisionOperator | AdditionOperator
  | SubtractionOperator | LessThanEqualOperator | LessThanOperator
  | GreaterThanEqualOperator | GreaterThanOperator | StartsWithOperator
  | InOperator | NotEmptyOperator | EqualOperator | NotEqualOperator
  | RegexpMatchOperator | RegexpNotMatchOperator
  | AndOperator | OrOperator.

Inductive Node : Type :=
  | BinaryNode (Operator : Operator) (Left Right : Node)
  | StringLiteralNode (Value : string)
  | BooleanLiteralNode (Value : bool)
  | FloatLiteralNode (Value : float64)
  | IntegerLiteralNode (Value : Z)
  | DurationLiteralNode (Value : Z)
  | TimeLiteralNode (Value : Z)
  | RegexpLiteralNode (Value : string)
  | ReferenceNode (Name : string)
  | MemberReferenceNode (Object : Node) (Property : string).

(** [n.Type() == expression.RegexpLiteral] *)
Definition isRegexpLiteral (n : Node) : bool :=
  match n with RegexpLiteralNode _ => true | _ => false end.

Record Expression : Type := mkExpression {
  Root : Node;
  Params : list string
}.

End expression.

(** ** Values *)

Inductive ValueType : Type :=
  | TInvalid | TString | TInt | TFloat | TBool | TTime | TDuration
  | TArray | TMap | TChain | TExpression.

Global Instance ValueType_eq_dec : EqDecision ValueType.
Proof. solve_decision. Defined.

(** Type.String; the default branch prints the number of the type. *)
Definition ValueType_String (t : ValueType) : string :=
  match t with
  | TString => "string"
  | TInt => "int"
  | TFloat => "float"
  | TBool => "bool"
  | TTime => "time"
  | TDuration => "duration"
  | TArray => "list"
  | TMap => "map"
  | TChain => "chain"
  | TExpression => "expression"
  | TInvalid => "unknown type 0"
  end.

(** What the [interface{}] of a Value can hold.  A call chain is held
    by pointer.  The elements of an Array are a typed slice. *)
Inductive dyn : Type :=
  | dNil
  | dString (v : string)
  | dInt (v : Z)
  | dFloat (v : float64)
  | dBool (v : bool)
  | dTime (v : Z)
  | dDuration (v : Z)
  | dArray (Type_ : ValueType) (Elements : list dyn)
  | dMap (Type_ : ValueType) (Elements : list (string * dyn))
  | dChain (p : nat)
  | dExpression (e : expression.Expression).

Record Value : Type := mkValue {
  Type_of : ValueType;
  Value_of : dyn
}.

(** The zero value [Value{}]. *)
Definition Value_zero : Value := mkValue TInvalid dNil.

(** Whether a type assertion [v.(T)] to the Go type of [t] succeeds. *)
Definition assertable (t : ValueType) (d : dyn) : bool :=
  match t, d with
  | TString, dString _ | TInt, dInt _ | TFloat, dFloat _ | TBool, dBool _
  | TTime, dTime _ | TDuration, dDuration _ | TArray, dArray _ _
  | TMap, dMap _ _ | TChain, dChain _ | TExpression, dExpression _ => true
  | _, _ => false
  end.

(** ** Operations, edges and the query spec (package query) *)

Definition OperationID := string.

Inductive OperationSpec : Type :=
  | SelectOpSpec (Database : string)
  | MaxOpSpec (UseRowTime : bool)
  | FilterOpSpec (F : expression.Expression)
  | OtherOpSpec (kind : string) (fields : list dyn).

(** An operation is allocated once and then handled by pointer: an
    address in the store [ops] of the evaluator state. *)
Record Operation : Type := mkOperation {
  ID : OperationID;
  Spec : option OperationSpec
}.

Record Edge : Type := mkEdge {
  Parent : OperationID;
  Child : OperationID
}.

Definition Edge_zero : Edge := mkEdge "" "".

(** ** Slices *)

(** A slice header over an array of the store.  All slices of the
    evaluator start at index 0 of their array.  The nil slice has
    capacity 0 and no array. *)
Record slice : Type := mkSlice {
  base : nat;
  len : nat;
  cap : nat
}.

Definition nil_slice : slice := mkSlice 0 0 0.

(** [s[0:0]] *)
Definition reslice0 (s : slice) : slice := mkSlice (base s) 0 (cap s).

Section Slices.
Context {T : Type}.
Variable zero : T.
(** The capacity that append picks when it has to grow: old capacity
    and needed length in, new capacity out. *)
Variable growslice : nat -> nat -> nat.

(** The elements that a slice shows. *)
Definition elems (arrays : list (list T)) (s : slice) : list T :=
  take (len s) (default [] (arrays !! base s)).

(** [append(s, x)]: in place when the capacity allows, otherwise into a
    new array that receives a copy of the elements. *)
Definition append1 (arrays : list (list T)) (s : slice) (x : T)
    : list (list T) * slice :=
  if len s <? cap s then
    (alter (fun arr => <[len s := x]> arr) (base s) arrays,
     mkSlice (base s) (len s + 1) (cap s))
  else
    let newcap := growslice (cap s) (len s + 1) in
    (arrays ++ [elems arrays s ++ [x] ++ replicate (newcap - (len s + 1)) zero],
     mkSlice (length arrays) (len s + 1) newcap).

(** A slice literal [[]T{x}]. *)
Definition literal1 (arrays : list (list T)) (x : T) : list (list T) * slice :=
  (arrays ++ [[x]], mkSlice (length arrays) 1 1).

End Slices.

(** CallChain represents a table created via a call chain. *)
Record CallChain : Type := mkCallChain {
  Chain_Parent : OperationID;
  Operations : slice;
  Edges : slice
}.

(** ** The evaluator state *)

(** The struct [evaluator] with the objects it reaches by pointer: the
    allocated operations, the call chains, and the arrays under the
    slices of the chains.  [operations] holds pointers into [ops];
    [None] is the nil pointer. *)
Record evaluator : Type := mkEvaluator {
  id : nat;
  scope : gmap string Value;
  operations : list (option nat);
  edges : list Edge;
  ops : list Operation;
  chains : list CallChain;
  opArrays : list (list (option nat));
  edgeArrays : list (list Edge)
}.

Definition set_id v (ev : evaluator) :=
  mkEvaluator v (scope ev) (operations ev) (edges ev) (ops ev) (chains ev)
    (opArrays ev) (edgeArrays ev).
Definition set_scope v (ev : evaluator) :=
  mkEvaluator (id ev) v (operations ev) (edges ev) (ops ev) (chains ev)
    (opArrays ev) (edgeArrays ev).
Definition set_operations v (ev : evaluator) :=
  mkEvaluator (id ev) (scope ev) v (edges ev) (ops ev) (chains ev)
    (opArrays ev) (edgeArrays ev).
Definition set_edges v (ev : evaluator) :=
  mkEvaluator (id ev) (scope ev) (operations ev) v (ops ev) (chains ev)
    (opArrays ev) (edgeArrays ev).
Definition set_ops v (ev : evaluator) :=
  mkEvaluator (id ev) (scope ev) (operations ev) (edges ev) v (chains ev)
    (opArrays ev) (edgeArrays ev).
Definition set_chains v (ev : evaluator) :=
  mkEvaluator (id ev) (scope ev) (operations ev) (edges ev) (ops ev) v
    (opArrays ev) (edgeArrays ev).
Definition set_opArrays v (ev : evaluator) :=
  mkEvaluator (id ev) (scope ev) (operations ev) (edges ev) (ops ev) (chains ev)
    v (edgeArrays ev).
Definition set_edgeArrays v (ev : evaluator) :=
  mkEvaluator (id ev) (scope ev) (operations ev) (edges ev) (ops ev) (chains ev)
    (opArrays ev) v.

(** ** The monad of evaluator methods *)

Inductive result (A : Type) : Type :=
  | Ok (a : A)
  | Err (err : error)
  | Panicked (msg : string)
  | OutOfFuel.
Arguments Ok {A} a.
Arguments Err {A} err.
Arguments Panicked {A} msg.
Arguments OutOfFuel {A}.

Definition M (A : Type) : Type := evaluator -> result (A * evaluator).

Definition ret {A} (a : A) : M A := fun ev => Ok (a, ev).
Definition bind {A B} (m : M A) (k : A -> M B) : M B :=
  fun ev =>
    match m ev with
    | Ok (a, ev) => k a ev
    | Err e => Err e
    | Panicked msg => Panicked msg
    | OutOfFuel => OutOfFuel
    end.
Definition fail {A} (e : error) : M A := fun _ => Err e.
Definition panic {A} (msg : string) : M A := fun _ => Panicked msg.
Definition out_of_fuel {A} : M A := fun _ => OutOfFuel.
Definition gets {A} (f : evaluator -> A) : M A := fun ev => Ok (f ev, ev).
Definition modify (f : evaluator -> evaluator) : M unit := fun ev => Ok (tt, f ev).

Notation "x <- m ;; k" := (bind m (fun x => k))
  (at level 90, m at next level, right associativity).
Notation "m ;;; k" := (bind m (fun _ => k))
  (at level 90, right associativity).


(** ** Formatting *)

(** The verb [%q]: the argument between double quotes. *)
Definition quote (s : string) : string :=
  let dq := String (Ascii.ascii_of_nat 34) EmptyString in
  dq +:+ s +:+ dq.

(** [fmt.Sprintf("%s%d", name, n)] *)
Definition Sprintf_sd (name : string) (n : nat) : string := name +:+ pretty n.

(** ** Literals and expression trees *)

Definition doLiteral (lit : Expression) : M Value :=
  match lit with
  | DateTimeLiteral v => ret (mkValue TTime (dTime v))
  | DurationLiteral v => ret (mkValue TDuration (dDuration v))
  | NumberLiteral v => ret (mkValue TFloat (dFloat v))
  | IntegerLiteral v => ret (mkValue TInt (dInt v))
  | StringLiteral v => ret (mkValue TString (dString v))
  | BooleanLiteral v => ret (mkValue TBool (dBool v))
  | _ => fail (Errorf "unknown literal type")
  end.

Definition expressionOperator (op : OperatorKind) (isRegexp : bool)
    : error + expression.Operator :=
  match op with
  | EqualOperator =>
      if isRegexp then inr expression.RegexpMatchOperator
      else inr expression.EqualOperator
  | NotEqualOperator =>
      if isRegexp then inr expression.RegexpNotMatchOperator
      else inr expression.NotEqualOperator
  | StartsWithOperator => inr expression.StartsWithOperator
  | MultiplicationOperator => inr expression.MultiplicationOperator
  | DivisionOperator => inr expression.DivisionOperator
  | AdditionOperator => inr expression.AdditionOperator
  | SubtractionOperator => inr expression.SubtractionOperator
  | LessThanEqualOperator => inr expression.LessThanEqualOperator
  | LessThanOperator => inr expression.LessThanOperator
  | GreaterThanEqualOperator => inr expression.GreaterThanEqualOperator
  | GreaterThanOperator => inr expression.GreaterThanOperator
  | InOperator => inr expression.InOperator
  | NotEmptyOperator => inr expression.NotEmptyOperator
  | opUnknown => inl (Errorf "unknown operator")
  end.

Definition logicalOperator (op : LogicalOperatorKind) : error + expression.Operator :=
  match op with
  | AndOperator => inr expression.AndOperator
  | OrOperator => inr expression.OrOperator
  | logUnknown => inl (Errorf "unknown logical operator")
  end.

Definition propertyName (property : Expression) : error + string :=
  match property with
  | Identifier name => inr name
  | StringLiteral v => inr v
  | _ => inl (Errorf "unsupported property expression")
  end.

(** primaryNode and binaryExpression call each other along the tree;
    neither touches the evaluator. *)
Fixpoint primaryNode (expr : Expression) : error + expression.Node :=
  match expr with
  | BinaryExpression op l r =>
      match primaryNode l with
      | inl err => inl err
      | inr lhs =>
          match primaryNode r with
          | inl err => inl err
          | inr rhs =>
              let isRegexp :=
                expression.isRegexpLiteral lhs || expression.isRegexpLiteral rhs in
              match expressionOperator op isRegexp with
              | inl err => inl err
              | inr op => inr (expression.BinaryNode op lhs rhs)
              end
          end
      end
  | StringLiteral v => inr (expression.StringLiteralNode v)
  | BooleanLiteral v => inr (expression.BooleanLiteralNode v)
  | NumberLiteral v => inr (expression.FloatLiteralNode v)
  | IntegerLiteral v => inr (expression.IntegerLiteralNode v)
  | DurationLiteral v => inr (expression.DurationLiteralNode v)
  | DateTimeLiteral v => inr (expression.TimeLiteralNode v)
  | RegexpLiteral v => inr (expression.RegexpLiteralNode v)
  | Identifier name => inr (expression.ReferenceNode name)
  | MemberExpression object property =>
      match primaryNode object with
      | inl err => inl err
      | inr o =>
          match propertyName property with
          | inl err => inl err
          | inr p => inr (expression.MemberReferenceNode o p)
          end
      end
  | _ => inl (Errorf "unknown primary type")
  end.

Definition binaryExpression (op : OperatorKind) (l r : Expression)
    : error + expression.Node :=
  primaryNode (BinaryExpression op l r).

(** binaryOperation and logicalExpression, again along the tree. *)
Fixpoint binaryOperation (expr : Expression) : error + expression.Node :=
  match expr with
  | BinaryExpression op l r => binaryExpression op l r
  | LogicalExpression op l r =>
      match binaryOperation l with
      | inl err => inl err
      | inr lhs =>
          match binaryOperation r with
          | inl err => inl err
          | inr rhs =>
              match logicalOperator op with
              | inl err => inl err
              | inr op => inr (expression.BinaryNode op lhs rhs)
              end
          end
      end
  | _ => inl (Errorf "Expression type expected to be arithmatic, relational or logical")
  end.

Definition logicalExpression (op : LogicalOperatorKind) (l r : Expression)
    : error + expression.Node :=
  binaryOperation (LogicalExpression op l r).

Definition lift {A} (r : error + A) : M A :=
  match r with
  | inl err => fail err
  | inr a => ret a
  end.


(** ** Keyword arguments *)

Record arguments : Type := mkArguments {
  params : gmap string Value;
  used : gmap string bool
}.

(** A nil parameter map reads like the empty map. *)
Definition newArguments (params : gmap string Value) : arguments :=
  mkArguments params ∅.

Definition get (a : arguments) (name : string) (typ : ValueType) (required : bool)
    : arguments * (Value * bool * option error) :=
  let a := mkArguments (params a) (<[name := true]> (used a)) in
  match params a !! name with
  | None =>
      if required then
        (a, (Value_zero, false,
             Some (Errorf ("missing required keyword argument " +:+ quote name))))
      else (a, (Value_zero, false, None))
  | Some v =>
      if bool_decide (Type_of v <> typ) then
        (a, (Value_zero, true,
             Some (Errorf ("keyword argument " +:+ quote name +:+ " should be of type "
                           +:+ ValueType_String typ +:+ ", but got "
                           +:+ ValueType_String (Type_of v)))))
      else (a, (v, true, None))
  end.

(** ToQueryTime switches on the dynamic type of the value. *)
Definition ToQueryTime (value : Value) : error + queryTime.t :=
  match Value_of value with
  | dTime v => inr (queryTime.mk v 0 false)
  | dDuration v => inr (queryTime.mk 0 v true)
  | dInt v => inr (queryTime.mk (v * 1000000000)%Z 0 false)
  | _ => inl (Errorf ("value is not a time, got " +:+ ValueType_String (Type_of value)))
  end.

Definition GetTime (a : arguments) (name : string)
    : arguments * (queryTime.t * bool * option error) :=
  let a := mkArguments (params a) (<[name := true]> (used a)) in
  match params a !! name with
  | None => (a, (queryTime.zero, false, None))
  | Some v =>
      match ToQueryTime v with
      | inl err => (a, (queryTime.zero, true, Some err))
      | inr qt => (a, (qt, true, None))
      end
  end.

(** listUnused ranges over the parameter map; Go leaves the order of
    that iteration open, [map_to_list] fixes one. *)
Definition listUnused (a : arguments) : list string :=
  omap (fun kv : string * Value =>
          if negb (default false (used a !! kv.1)) then Some kv.1 else None)
       (map_to_list (params a)).

(** ** Registered constructors *)

Record context : Type := mkContext { parents : list OperationID }.

(** context.AdditionalParent *)
Definition AdditionalParent (c : context) (id : OperationID) : context :=
  if bool_decide (id ∈ parents c) then c else mkContext (parents c ++ [id]).

(** context.LookupIDFromIdentifier; the scope is the evaluator's. *)
Definition LookupIDFromIdentifier (ev : evaluator) (ident : string)
    : outcome (OperationID * option error) :=
  match scope ev !! ident with
  | None => Done ("", Some (Errorf ("unknown identifier " +:+ quote ident)))
  | Some v =>
      if bool_decide (Type_of v <> TChain) then
        Done ("", Some (Errorf ("identifier not a function chain " +:+ quote ident)))
      else
        match Value_of v with
        | dChain p =>
            match chains ev !! p with
            | Some c => Done (Chain_Parent c, None)
            | None => Panic "nil pointer dereference"
            end
        | _ => Panic "interface conversion"
        end
  end.

(** A CreateOperationSpec is code of another package: all it can do
    with its [Arguments] and [Context] is to call their methods.  A
    constructor is therefore given as the tree of the calls it makes,
    each continuing with what the call returned. *)
Inductive CreateOperationSpec : Type :=
  | Return (spec : OperationSpec)
  | ReturnErr (err : error)
  | CallGet (name : string) (typ : ValueType) (required : bool)
      (k : Value -> bool -> option error -> CreateOperationSpec)
  | CallGetTime (name : string)
      (k : queryTime.t -> bool -> option error -> CreateOperationSpec)
  | CallAdditionalParent (id : OperationID) (k : CreateOperationSpec)
  | CallLookupID (ident : string)
      (k : OperationID -> option error -> CreateOperationSpec)
  | CtorPanic (msg : string).

(** Running a constructor against the arguments and the context. *)
Fixpoint runCtor (c : CreateOperationSpec) (ev : evaluator) (a : arguments)
    (ctx : context) : outcome (arguments * context * (error + OperationSpec)) :=
  match c with
  | Return spec => Done (a, ctx, inr spec)
  | ReturnErr err => Done (a, ctx, inl err)
  | CallGet name typ required k =>
      let '(a, (v, ok, err)) := get a name typ required in
      runCtor (k v ok err) ev a ctx
  | CallGetTime name k =>
      let '(a, (qt, ok, err)) := GetTime a name in
      runCtor (k qt ok err) ev a ctx
  | CallAdditionalParent id k => runCtor k ev a (AdditionalParent ctx id)
  | CallLookupID ident k =>
      match LookupIDFromIdentifier ev ident with
      | Done (id, err) => runCtor (k id err) ev a ctx
      | Panic msg => Panic msg
      end
  | CtorPanic msg => Panic msg
  end.

(** The typed accessors of [Arguments], as a constructor calls them. *)
Definition GetString (name : string)
    (k : string -> bool -> option error -> CreateOperationSpec) : CreateOperationSpec :=
  CallGet name TString false (fun v ok err =>
    if bool_decide (err <> None) || negb ok then k "" ok err
    else match Value_of v with
         | dString s => k s ok None
         | _ => CtorPanic "interface conversion"
         end).

Definition GetBool (name : string)
    (k : bool -> bool -> option error -> CreateOperationSpec) : CreateOperationSpec :=
  CallGet name TBool false (fun v ok err =>
    if bool_decide (err <> None) || negb ok then k false ok err
    else match Value_of v with
         | dBool b => k b ok None
         | _ => CtorPanic "interface conversion"
         end).

Definition GetRequiredString (name : string)
    (k : string -> option error -> CreateOperationSpec) : CreateOperationSpec :=
  CallGet name TString true (fun v _ err =>
    if bool_decide (err <> None) then k "" err
    else match Value_of v with
         | dString s => k s None
         | _ => CtorPanic "interface conversion"
         end).

Definition GetArray (name : string) (t : ValueType)
    (k : dyn -> bool -> option error -> CreateOperationSpec) : CreateOperationSpec :=
  CallGet name TArray false (fun v ok err =>
    if bool_decide (err <> None) || negb ok then k (dArray TInvalid []) ok err
    else match Value_of v with
         | dArray t' els =>
             if bool_decide (t' <> t) then
               k (dArray TInvalid []) true
                 (Some (Errorf ("keyword argument " +:+ quote name
                                +:+ " should be of an array of type "
                                +:+ ValueType_String t
                                +:+ ", but got an array of type "
                                +:+ ValueType_String t')))
             else k (dArray t' els) ok None
         | _ => CtorPanic "interface conversion"
         end).

(** createMaxOpSpec, the constructor registered for the method max. *)
Definition createMaxOpSpec : CreateOperationSpec :=
  GetBool "useRowTime" (fun useRowTime ok err =>
    match err with
    | Some err => ReturnErr err
    | None => if ok then Return (MaxOpSpec useRowTime) else Return (MaxOpSpec false)
    end).


(** ** The methods of the evaluator *)

Section Evaluator.
(** The tables filled by RegisterFunction and RegisterMethod, and the
    growth policy of append. *)
Variable functionsMap : gmap string CreateOperationSpec.
Variable methodMap : gmap string CreateOperationSpec.
Variable growslice : nat -> nat -> nat.

Definition nextID : M nat :=
  fun ev => Ok (id ev, set_id (id ev + 1) ev).

(** [&query.Operation{ID: id}] *)
Definition newOperation (id : OperationID) : M nat :=
  fun ev => Ok (length (ops ev), set_ops (ops ev ++ [mkOperation id None]) ev).

(** [op.ID] *)
Definition Operation_ID (op : nat) : M OperationID :=
  fun ev =>
    match ops ev !! op with
    | Some o => Ok (ID o, ev)
    | None => Panicked "nil pointer dereference"
    end.

(** [op.Spec = spec] *)
Definition set_Operation_Spec (op : nat) (spec : OperationSpec) : M unit :=
  fun ev =>
    match ops ev !! op with
    | Some o => Ok (tt, set_ops (<[op := mkOperation (ID o) (Some spec)]> (ops ev)) ev)
    | None => Panicked "nil pointer dereference"
    end.

(** [*chain] *)
Definition load_chain (chain : nat) : M CallChain :=
  fun ev =>
    match chains ev !! chain with
    | Some c => Ok (c, ev)
    | None => Panicked "nil pointer dereference"
    end.

(** [*chain = c] *)
Definition store_chain (chain : nat) (c : CallChain) : M unit :=
  fun ev =>
    match chains ev !! chain with
    | Some _ => Ok (tt, set_chains (<[chain := c]> (chains ev)) ev)
    | None => Panicked "nil pointer dereference"
    end.

(** [&CallChain{...}] and [new(CallChain)] *)
Definition new_chain (c : CallChain) : M nat :=
  fun ev => Ok (length (chains ev), set_chains (chains ev ++ [c]) ev).

(** [chain.Operations = append(chain.Operations, op)] *)
Definition append_Operation (chain : nat) (op : nat) : M unit :=
  c <- load_chain chain ;;
  arrays <- gets opArrays ;;
  let '(arrays, s) := append1 None growslice arrays (Operations c) (Some op) in
  modify (set_opArrays arrays) ;;;
  store_chain chain (mkCallChain (Chain_Parent c) s (Edges c)).

(** [chain.Edges = append(chain.Edges, e)] *)
Definition append_Edge (chain : nat) (e : Edge) : M unit :=
  c <- load_chain chain ;;
  arrays <- gets edgeArrays ;;
  let '(arrays, s) := append1 Edge_zero growslice arrays (Edges c) e in
  modify (set_edgeArrays arrays) ;;;
  store_chain chain (mkCallChain (Chain_Parent c) (Operations c) s).

Definition addChain (chain : nat) : M unit :=
  c <- load_chain chain ;;
  modify (fun ev =>
    set_operations (operations ev ++ elems (opArrays ev) (Operations c)) ev) ;;;
  modify (fun ev =>
    set_edges (edges ev ++ elems (edgeArrays ev) (Edges c)) ev) ;;;
  c <- load_chain chain ;;
  store_chain chain (mkCallChain (Chain_Parent c) (reslice0 (Operations c)) (Edges c)) ;;;
  c <- load_chain chain ;;
  store_chain chain (mkCallChain (Chain_Parent c) (Operations c) (reslice0 (Edges c))).

Definition scope_Get (name : string) : M (option Value) :=
  gets (fun ev => scope ev !! name).

Definition scope_Set (name : string) (value : Value) : M unit :=
  modify (fun ev => set_scope (<[name := value]> (scope ev)) ev).

(** The conversion of the collected elements into the typed slice of
    the array: [value[i] = el.Value.(T)] for every element. *)
Fixpoint typed_elements (t : ValueType) (elements : list Value) : M (list dyn) :=
  match elements with
  | [] => ret []
  | el :: elements =>
      if assertable t (Value_of el) then
        value <- typed_elements t elements ;;
        ret (Value_of el :: value)
      else panic "interface conversion"
  end.

Section Knot.
(** The two methods through which the evaluator recurses. *)
Variable doExpression : Expression -> M Value.
Variable callFunction : Expression -> list Expression -> option nat -> M nat.

(** The loop of doArray over the elements, from the current type of
    the array on. *)
Fixpoint doArray_elements (els : list Expression) (arrayType : ValueType)
    : M (ValueType * list Value) :=
  match els with
  | [] => ret (arrayType, [])
  | el :: els =>
      v <- doExpression el ;;
      let arrayType :=
        if bool_decide (arrayType = TInvalid) then Type_of v else arrayType in
      if bool_decide (arrayType <> Type_of v) then
        fail (Errorf ("cannot mix types in an array, found both "
                      +:+ ValueType_String arrayType +:+ " and "
                      +:+ ValueType_String (Type_of v)))
      else
        r <- doArray_elements els arrayType ;;
        ret (r.1, v :: r.2)
  end.

Definition doArray (a : list Expression) : M Value :=
  r <- doArray_elements a TInvalid ;;
  let '(arrayType, elements) := r in
  match arrayType with
  | TString | TInt | TFloat | TBool | TTime | TDuration | TArray | TMap
  | TChain | TExpression =>
      value <- typed_elements arrayType elements ;;
      ret (mkValue TArray (dArray arrayType value))
  | TInvalid =>
      fail (Errorf ("cannot define an array with elements of type "
                    +:+ ValueType_String arrayType))
  end.

Fixpoint resolveParameters_loop (properties : list (string * Expression))
    (paramsMap : gmap string Value) : M (gmap string Value) :=
  match properties with
  | [] => ret paramsMap
  | p :: properties =>
      value <- doExpression p.2 ;;
      match paramsMap !! p.1 with
      | Some _ =>
          fail (Errorf ("duplicate keyword parameter specified: " +:+ quote p.1))
      | None => resolveParameters_loop properties (<[p.1 := value]> paramsMap)
      end
  end.

Definition resolveParameters (properties : list (string * Expression))
    : M (gmap string Value) :=
  resolveParameters_loop properties ∅.

Definition createOp (name : string) (createOpSpec : CreateOperationSpec)
    (args : list Expression) : M (nat * list OperationID) :=
  n <- nextID ;;
  op <- newOperation (Sprintf_sd name n) ;;
  paramMap <-
    match args with
    | [arg] =>
        match arg with
        | ObjectExpression properties => resolveParameters properties
        | _ => fail (Errorf "arguments not a valid object expression")
        end
    | _ => ret ∅
    end ;;
  let arguments := newArguments paramMap in
  let ctx := mkContext [] in
  ev <- gets (fun ev => ev) ;;
  match runCtor createOpSpec ev arguments ctx with
  | Panic msg => panic msg
  | Done (arguments, ctx, inl err) => fail err
  | Done (arguments, ctx, inr spec) =>
      let unused := listUnused arguments in
      if 0 <? length unused then
        fail (Errorf ("extra arguments provided: [" +:+ String.concat "," unused +:+ "]"))
      else
        set_Operation_Spec op spec ;;;
        ret (op, parents ctx)
  end.

(** [errors.Wrapf(err, msg)] around a call. *)
Definition wrapping {A} (msg : string) (m : M A) : M A :=
  fun ev =>
    match m ev with
    | Err err => Err (Wrapf err msg)
    | r => r
    end.

Definition method (name : string) (args : list Expression)
    : M (nat * list OperationID) :=
  match methodMap !! name with
  | None => fail (Errorf ("unknown method " +:+ quote name))
  | Some createOpSpec =>
      wrapping ("error calling method " +:+ quote name)
        (createOp name createOpSpec args)
  end.

Definition function (name : string) (args : list Expression)
    : M (nat * list OperationID) :=
  match functionsMap !! name with
  | None => fail (Errorf ("unknown function " +:+ quote name))
  | Some createOpSpec =>
      wrapping ("error calling function " +:+ quote name)
        (createOp name createOpSpec args)
  end.

Definition memberFunction (object property : Expression) (chain : option nat)
    : M (nat * string) :=
  chain <-
    match object with
    | CallExpression callee args => callFunction callee args chain
    | Identifier name =>
        value <- scope_Get name ;;
        match value with
        | None => fail (Errorf ("undefined identifier " +:+ quote name))
        | Some value =>
            if bool_decide (Type_of value <> TChain) then
              fail (Errorf ("variable " +:+ quote name +:+ " is not a function chain"))
            else
              (* Create a copy of the chain since we do not want to
                 mutate the version stored in the scope. *)
              chain <-
                match chain with
                | None => new_chain (mkCallChain "" nil_slice nil_slice)
                | Some chain => ret chain
                end ;;
              match Value_of value with
              | dChain p =>
                  c <- load_chain p ;;
                  store_chain chain c ;;;
                  ret chain
              | _ => panic "interface conversion"
              end
        end
    | _ => fail (Errorf "unsupported member expression object type")
    end ;;
  match property with
  | Identifier name => ret (chain, name)
  | _ => panic "interface conversion"
  end.

Fixpoint additional_parents (chain : nat) (child : OperationID)
    (skip : option OperationID) (parents : list OperationID) : M unit :=
  match parents with
  | [] => ret tt
  | p :: parents =>
      (if bool_decide (Some p <> skip) then append_Edge chain (mkEdge p child)
       else ret tt) ;;;
      additional_parents chain child skip parents
  end.

Definition callFunction_body (callee : Expression) (args : list Expression)
    (chain : option nat) : M nat :=
  match callee with
  | Identifier name =>
      r <- function name args ;;
      let '(op, parents) := r in
      opID <- Operation_ID op ;;
      arrays <- gets opArrays ;;
      let '(arrays, s) := literal1 arrays (Some op) in
      modify (set_opArrays arrays) ;;;
      chain <- new_chain (mkCallChain opID s nil_slice) ;;
      (* Add any additional parents *)
      additional_parents chain opID None parents ;;;
      ret chain
  | MemberExpression object property =>
      r <- memberFunction object property chain ;;
      let '(chain, name) := r in
      r <- method name args ;;
      let '(op, parents) := r in
      opID <- Operation_ID op ;;
      (* Update chain *)
      append_Operation chain op ;;;
      c <- load_chain chain ;;
      append_Edge chain (mkEdge (Chain_Parent c) opID) ;;;
      (* Add any additional parents *)
      additional_parents chain opID (Some (Chain_Parent c)) parents ;;;
      (* Update ParentID *)
      c <- load_chain chain ;;
      store_chain chain (mkCallChain opID (Operations c) (Edges c)) ;;;
      ret chain
  | _ => fail (Errorf "Unsupported callee expression type")
  end.

Definition doExpression_body (expr : Expression) : M Value :=
  if isLiteral expr then doLiteral expr
  else
    match expr with
    | Identifier name =>
        value <- scope_Get name ;;
        match value with
        | None => fail (Errorf ("undefined identifier " +:+ quote name))
        | Some value => ret value
        end
    | CallExpression callee args =>
        chain <- callFunction callee args None ;;
        ret (mkValue TChain (dChain chain))
    | BinaryExpression op l r =>
        root <- lift (binaryExpression op l r) ;;
        ret (mkValue TExpression (dExpression (expression.mkExpression root [])))
    | LogicalExpression op l r =>
        root <- lift (logicalExpression op l r) ;;
        ret (mkValue TExpression (dExpression (expression.mkExpression root [])))
    | ArrowFunctionExpression params body =>
        v <- doExpression body ;;
        match Value_of v with
        | dExpression expr =>
            ret (mkValue (Type_of v)
                   (dExpression (expression.mkExpression (expression.Root expr) params)))
        | _ => panic "interface conversion"
        end
    | ArrayExpression elements => doArray elements
    | _ => fail (Errorf "unsupported expression")
    end.

End Knot.

(** The recursion of doExpression and callFunction through each other
    is bounded by the fuel. *)
Fixpoint doExpression (fuel : nat) (expr : Expression) : M Value :=
  match fuel with
  | O => out_of_fuel
  | S fuel => doExpression_body (doExpression fuel) (callFunction fuel) expr
  end
with callFunction (fuel : nat) (callee : Expression) (args : list Expression)
    (chain : option nat) : M nat :=
  match fuel with
  | O => out_of_fuel
  | S fuel => callFunction_body (doExpression fuel) (callFunction fuel) callee args chain
  end.

Fixpoint doVariableDeclaration (fuel : nat) (declarations : list (string * Expression))
    : M unit :=
  match declarations with
  | [] => ret tt
  | vd :: declarations =>
      value <- doExpression fuel vd.2 ;;
      scope_Set vd.1 value ;;;
      (if bool_decide (Type_of value = TChain) then
         match Value_of value with
         | dChain chain => addChain chain
         | _ => panic "interface conversion"
         end
       else ret tt) ;;;
      doVariableDeclaration fuel declarations
  end.

Fixpoint eval (fuel : nat) (body : list Statement) : M unit :=
  match body with
  | [] => ret tt
  | stmt :: body =>
      match stmt with
      | VariableDeclaration s => doVariableDeclaration fuel s
      | ExpressionStatement e =>
          value <- doExpression fuel e ;;
          if bool_decide (Type_of value = TChain) then
            match Value_of value with
            | dChain chain => addChain chain
            | _ => panic "interface conversion"
            end
          else ret tt
      | OtherStatement _ =>
          fail (Errorf "unsupported program statement expression type")
      end ;;;
      eval fuel body
  end.

(** query.QuerySpec; the operations are the pointers that [spec]
    hands out, to be read in the final state. *)
Record QuerySpec : Type := mkQuerySpec {
  QuerySpec_Operations : list (option nat);
  QuerySpec_Edges : list Edge
}.

Definition spec (ev : evaluator) : QuerySpec :=
  mkQuerySpec (operations ev) (edges ev).

Definition newEvaluator : evaluator :=
  mkEvaluator 0 ∅ [] [] [] [] [] [].

(** Evaluate; next to the query spec it yields the final state, in
    which the pointers of the spec are read. *)
Definition Evaluate (fuel : nat) (program : Program) : result (QuerySpec * evaluator) :=
  match eval fuel (ProgramBody program) newEvaluator with
  | Ok (_, ev) => Ok (spec ev, ev)
  | Err err => Err err
  | Panicked msg => Panicked msg
  | OutOfFuel => OutOfFuel
  end.

End Evaluator.

End Eval.

(** * The filter transformation (package functions) *)
Module Filter.

(** execute.ObjectProperty *)
Record ObjectProperty : Type := mkObjectProperty {
  Object : string;
  Property : string
}.

Global Instance ObjectProperty_eq_dec : EqDecision ObjectProperty.
Proof. solve_decision. Defined.

Global Instance ObjectProperty_countable : Countable ObjectProperty.
Proof.
  refine (inj_countable' (fun op => (Object op, Property op))
            (fun p => mkObjectProperty p.1 p.2) _).
  intros []; reflexivity.
Defined.

Definition DataType_to_nat (t : DataType) : nat :=
  match t with
  | TInvalid => 0 | TTime => 1 | TString => 2 | TFloat => 3
  | TInt => 4 | TUInt => 5 | TBool => 6
  end%nat.

Definition DataType_of_nat (n : nat) : DataType :=
  match n with
  | 1 => TTime | 2 => TString | 3 => TFloat | 4 => TInt | 5 => TUInt | 6 => TBool
  | _ => TInvalid
  end%nat.

Global Instance DataType_countable : Countable DataType.
Proof.
  refine (inj_countable' DataType_to_nat DataType_of_nat _).
  intros []; reflexivity.
Defined.

(** execute.Scope *)
Definition Scope := gmap ObjectProperty cell.

(** execute.CompiledExpression: the two methods the filter calls.
    EvalBool returns a Go pair (bool, error). *)
Record CompiledExpression : Type := mkCompiled {
  ce_Type : DataType;
  EvalBool : Scope -> bool * option error
}.

Record expressionOrError : Type := mkExprOrErr {
  Err : option error;
  Expr : option CompiledExpression
}.

(** The zero value that a map yields for a missing key. *)
Definition expressionOrError_zero : expressionOrError := mkExprOrErr None None.

(** The identity of a block for the builder cache. *)
Definition BlockKey : Type := (Z * Z * list (string * string))%type.

(** A block as the filter reads it: its columns, and the frames that
    DoTime hands to the callback one after the other, each with its
    rows; a row has a cell per column. *)
Record Block : Type := mkBlock {
  Key : BlockKey;
  Cols : list ColMeta;
  frames : list (list (list cell))
}.

(** execute.BlockBuilder: the columns and what was appended to each. *)
Record BlockBuilder : Type := mkBuilder {
  builder_cols : list ColMeta;
  builder_data : list (list cell)
}.

(** Modelled from the spec: execute.AddBlockCols is not part of the
    sources; it gives the builder the columns of the block, all empty. *)
Definition AddBlockCols (b : Block) (builder : BlockBuilder) : BlockBuilder :=
  mkBuilder (Cols b) (replicate (length (Cols b)) []).

(** [builder.AppendBool(j, v)] and its siblings: the value goes to the
    end of column [j]. *)
Definition Append (builder : BlockBuilder) (j : nat) (c : cell) : outcome BlockBuilder :=
  match builder_data builder !! j with
  | Some col =>
      Done (mkBuilder (builder_cols builder) (<[j := col ++ [c]]> (builder_data builder)))
  | None => Panic "index out of range"
  end.

Definition cell_type (c : cell) : DataType :=
  match c with
  | CBool _ => TBool
  | CInt _ => TInt
  | CUInt _ => TUInt
  | CFloat _ => TFloat
  | CString _ => TString
  | CTime _ => TTime
  end.

(** A row reader is the frame under the callback. *)
Definition RowReader := list (list cell).

(** [rr.AtBool(i, j)] and its siblings for the type [t]: the cell at
    row [i], column [j], which must hold a value of that type. *)
Definition At (t : DataType) (rr : RowReader) (i j : nat) : outcome cell :=
  match rr !! i with
  | None => Panic "index out of range"
  | Some row =>
      match row !! j with
      | None => Panic "index out of range"
      | Some c =>
          if bool_decide (cell_type c = t) then Done c
          else Panic "interface conversion"
      end
  end.

(** Modelled from the spec: execute.ValueForRow is not part of the
    sources; it reads the cell at row [i], column [j] through the
    accessor of the column's type. *)
Definition ValueForRow (i : nat) (j : Z) (rr : RowReader) : outcome cell :=
  if (j <? 0)%Z then Panic "index out of range"
  else
    match rr !! i with
    | None => Panic "index out of range"
    | Some row =>
        match row !! Z.to_nat j with
        | None => Panic "index out of range"
        | Some c => Done c
        end
    end.

Record filterTransformation : Type := mkFilterTransformation {
  cache : gmap BlockKey BlockBuilder;
  properties : list ObjectProperty;
  scope : Scope;
  scopeCols : gmap string Z;
  ces : gmap DataType expressionOrError
}.

Section Transformation.
(** The parts of package execute that the filter calls and that lie
    outside the sources. *)
Variable ObjectProperties : ast.ArrowFunction -> error + list ObjectProperty.
Variable CompileExpression :
  ast.ArrowFunction -> gmap ObjectProperty DataType ->
  option CompiledExpression * option error.
Variable ValueDataTypes : list DataType.
Variable ValueIdx : list ColMeta -> Z.

(** The loop over ValueDataTypes in NewFilterTransformation. *)
Fixpoint compile_kinds (F : ast.ArrowFunction) (valueOP : ObjectProperty)
    (kinds : list DataType) (types : gmap ObjectProperty DataType)
    (ces : gmap DataType expressionOrError)
    : outcome (gmap DataType expressionOrError) :=
  match kinds with
  | [] => Done ces
  | typ :: kinds =>
      let types := <[valueOP := typ]> types in
      let '(ce, err) := CompileExpression F types in
      let ces := <[typ := mkExprOrErr err ce]> ces in
      match err with
      | Some _ => compile_kinds F valueOP kinds types ces
      | None =>
          match ce with
          | None => Panic "nil pointer dereference"
          | Some c =>
              if bool_decide (ce_Type c <> TBool) then
                compile_kinds F valueOP kinds types
                  (<[typ := mkExprOrErr
                              (Some (Errorf "expression does not evaluate to boolean"))
                              None]> ces)
              else compile_kinds F valueOP kinds types ces
          end
      end
  end.

Definition NewFilterTransformation (cache : gmap BlockKey BlockBuilder)
    (spec : Plan.FilterProcedureSpec) : outcome (error + filterTransformation) :=
  match Plan.F spec with
  | None => Panic "nil pointer dereference"
  | Some F =>
      match ast.Params F with
      | [objectName] =>
          match ObjectProperties F with
          | inl err => Done (inl err)
          | inr properties =>
              let valueOP := mkObjectProperty objectName "_value" in
              let types :=
                foldl (fun (types : gmap ObjectProperty DataType) op =>
                         if bool_decide (op <> valueOP) then <[op := TString]> types
                         else types)
                      ∅ properties in
              match compile_kinds F valueOP ValueDataTypes types ∅ with
              | Panic msg => Panic msg
              | Done ces =>
                  Done (inr (mkFilterTransformation cache properties ∅ ∅ ces))
              end
          end
      | _ =>
          Done (inl (Errorf "filter functions should only have a single parameter"))
      end
  end.

(** The scope preparation of Process: the loop over the columns. *)
Fixpoint prepare_scope (properties : list ObjectProperty) (valueIdx : Z)
    (j : nat) (cols : list ColMeta) (scopeCols : gmap string Z) : gmap string Z :=
  match cols with
  | [] => scopeCols
  | c :: cols =>
      let scopeCols :=
        if bool_decide (Label c = ValueColLabel) then
          <["_value" := valueIdx]> scopeCols
        else if bool_decide (Exists (fun op => Property op = Label c) properties) then
          <[Label c := Z.of_nat j]> scopeCols
        else scopeCols in
      prepare_scope properties valueIdx (S j) cols scopeCols
  end.

(** [for _, op := range t.properties { t.scope[op] = ValueForRow(...) }] *)
Fixpoint fill_scope (properties : list ObjectProperty) (scopeCols : gmap string Z)
    (i : nat) (rr : RowReader) (scope : Scope) : outcome Scope :=
  match properties with
  | [] => Done scope
  | op :: properties =>
      match ValueForRow i (default 0%Z (scopeCols !! Property op)) rr with
      | Panic msg => Panic msg
      | Done v => fill_scope properties scopeCols i rr (<[op := v]> scope)
      end
  end.

(** [for j, c := range cols]: the row goes to the builder, column by
    column, the common columns left out. *)
Fixpoint append_row (i : nat) (rr : RowReader) (j : nat) (cols : list ColMeta)
    (builder : BlockBuilder) : outcome BlockBuilder :=
  match cols with
  | [] => Done builder
  | c :: cols =>
      if IsCommon c then append_row i rr (S j) cols builder
      else
        match Type_ c with
        | TBool | TInt | TUInt | TFloat | TString | TTime =>
            match At (Type_ c) rr i j with
            | Panic msg => Panic msg
            | Done v =>
                match Append builder j v with
                | Panic msg => Panic msg
                | Done builder => append_row i rr (S j) cols builder
                end
            end
        | TInvalid => Panic "unknown type"
        end
  end.

(** What the rows of a block work on: the scope of the transformation,
    the builder, and the lines written to the log. *)
Record rows_state : Type := mkRowsState {
  rs_scope : Scope;
  rs_builder : BlockBuilder;
  rs_log : list error
}.

(** The body of [for i := range ts]. *)
Definition process_row (properties : list ObjectProperty) (scopeCols : gmap string Z)
    (ce : option CompiledExpression) (cols : list ColMeta) (rr : RowReader)
    (st : rows_state) (i : nat) : outcome rows_state :=
  match fill_scope properties scopeCols i rr (rs_scope st) with
  | Panic msg => Panic msg
  | Done scope =>
      match ce with
      | None => Panic "nil pointer dereference"
      | Some ce =>
          let '(pass, err) := EvalBool ce scope in
          if negb pass then
            match err with
            | Some err =>
                Done (mkRowsState scope (rs_builder st)
                        (rs_log st ++ [Wrapf err "failed to evaluate expression"]))
            | None => Done (mkRowsState scope (rs_builder st) (rs_log st))
            end
          else
            match append_row i rr 0 cols (rs_builder st) with
            | Panic msg => Panic msg
            | Done builder => Done (mkRowsState scope builder (rs_log st))
            end
      end
  end.

Fixpoint process_rows (properties : list ObjectProperty) (scopeCols : gmap string Z)
    (ce : option CompiledExpression) (cols : list ColMeta) (rr : RowReader)
    (idx : list nat) (st : rows_state) : outcome rows_state :=
  match idx with
  | [] => Done st
  | i :: idx =>
      match process_row properties scopeCols ce cols rr st i with
      | Panic msg => Panic msg
      | Done st => process_rows properties scopeCols ce cols rr idx st
      end
  end.

(** [b.Times().DoTime(f)]: the callback runs once per frame. *)
Fixpoint DoTime (properties : list ObjectProperty) (scopeCols : gmap string Z)
    (ce : option CompiledExpression) (cols : list ColMeta)
    (frames : list RowReader) (st : rows_state) : outcome rows_state :=
  match frames with
  | [] => Done st
  | rr :: frames =>
      match process_rows properties scopeCols ce cols rr (seq 0 (length rr)) st with
      | Panic msg => Panic msg
      | Done st => DoTime properties scopeCols ce cols frames st
      end
  end.

(** What Process leaves behind: the transformation, the log, and the
    returned error. *)
Record ProcessResult : Type := mkProcessResult {
  transformation : filterTransformation;
  logged : list error;
  returned : option error
}.

Definition Process (t : filterTransformation) (b : Block) : outcome ProcessResult :=
  let '(builder, new) :=
    match cache t !! Key b with
    | Some builder => (builder, false)
    | None => (mkBuilder [] [], true)
    end in
  let builder := if new then AddBlockCols b builder else builder in
  let cache := <[Key b := builder]> (cache t) in
  (* Prepare scope *)
  let cols := Cols b in
  let valueIdx := ValueIdx cols in
  let scopeCols := prepare_scope (properties t) valueIdx 0 cols (scopeCols t) in
  if (valueIdx <? 0)%Z then Panic "index out of range"
  else
    match cols !! Z.to_nat valueIdx with
    | None => Panic "index out of range"
    | Some valueCol =>
        let exprErr := default expressionOrError_zero (ces t !! Type_ valueCol) in
        match Err exprErr with
        | Some err =>
            Done (mkProcessResult
                    (mkFilterTransformation cache (properties t) (scope t) scopeCols (ces t))
                    []
                    (Some (Wrapf err "expression does not support type")))
        | None =>
            let ce := Expr exprErr in
            (* Append only matching rows to block *)
            match DoTime (properties t) scopeCols ce cols (frames b)
                    (mkRowsState (scope t) builder []) with
            | Panic msg => Panic msg
            | Done st =>
                Done (mkProcessResult
                        (mkFilterTransformation (<[Key b := rs_builder st]> cache)
                           (properties t) (rs_scope st) scopeCols (ces t))
                        (rs_log st) None)
            end
        end
    end.

End Transformation.

End Filter.

(** * The value iterators of a storage block (package execute) *)
Module StorageIter.
Import Storage.

(** storageBlock.Col; the read state is the one the block shares with
    its iterator.  A new iterator has no buffers. *)
Definition Col (b : storageBlock) (data : readState) (c : nat)
    : storageBlockValueIterator :=
  mkValueIterator data (colMeta b) c (nilBuf, nilBuf) [] [] [] [].

Definition Times (b : storageBlock) (data : readState) : storageBlockValueIterator :=
  Col b data 0.

Definition Values (b : storageBlock) (data : readState) : storageBlockValueIterator :=
  Col b data 1.

(** Indexing the arrays [colMeta] and [colBufs] of length two. *)
Definition index2 {A : Type} (a : A * A) (j : nat) : outcome A :=
  match j with
  | O => Done a.1
  | S O => Done a.2
  | _ => Panic "index out of range"
  end.

(** How a run of one of the Do methods ends.  [Closed]: the loop is
    over and [done] is closed; it carries what the callback received,
    frame by frame.  [Running]: the loop is still running when the fuel
    is used up. *)
Inductive DoValues (V : Type) : Type :=
  | Closed (received : list (list V)) (b : storageBlockValueIterator)
  | DoPanicked (msg : string)
  | Running.
Arguments Closed {V} received b.
Arguments DoPanicked {V} msg.
Arguments Running {V}.

Section Typed.
(** execute.checkColType lies outside the sources. *)
Variable checkColType : ColMeta -> DataType -> outcome unit.

Context {V : Type}.
(** The type assertion on the buffer of the column. *)
Variable assert : colBuf -> option (list V).

(** [for b.advance() { f(b.colBufs[b.col].(T), b) }] *)
Fixpoint Do_loop (fuel : nat) (b : storageBlockValueIterator)
    (received : list (list V)) : DoValues V :=
  match fuel with
  | O => Running
  | S fuel =>
      match advance b with
      | Panic msg => DoPanicked msg
      | Done (false, b) => Closed received b
      | Done (true, b) =>
          match index2 (colBufs b) (col b) with
          | Panic msg => DoPanicked msg
          | Done buf =>
              match assert buf with
              | None => DoPanicked "interface conversion"
              | Some vs => Do_loop fuel b (received ++ [vs])
              end
          end
      end
  end.

Definition DoColumn (typ : DataType) (fuel : nat) (b : storageBlockValueIterator)
    : DoValues V :=
  match index2 (vi_colMeta b) (col b) with
  | Panic msg => DoPanicked msg
  | Done meta =>
      match checkColType meta typ with
      | Panic msg => DoPanicked msg
      | Done _ => Do_loop fuel b []
      end
  end.

(** [b.colBufs[j].(T)[i]] behind checkColType. *)
Definition AtColumn (typ : DataType) (b : storageBlockValueIterator) (i j : nat)
    : outcome V :=
  match index2 (vi_colMeta b) j with
  | Panic msg => Panic msg
  | Done meta =>
      match checkColType meta typ with
      | Panic msg => Panic msg
      | Done _ =>
          match index2 (colBufs b) j with
          | Panic msg => Panic msg
          | Done buf =>
              match assert buf with
              | None => Panic "interface conversion"
              | Some vs =>
                  match vs !! i with
                  | Some v => Done v
                  | None => Panic "index out of range"
                  end
              end
          end
      end
  end.

End Typed.

Definition assertFloat (buf : colBuf) : option (list float64) :=
  match buf with FloatBuf vs => Some vs | _ => None end.
Definition assertString (buf : colBuf) : option (list string) :=
  match buf with StringBuf vs => Some vs | _ => None end.
Definition assertTime (buf : colBuf) : option (list Time) :=
  match buf with TimeBuf ts => Some ts | _ => None end.
Definition assertInt (buf : colBuf) : option (list Z) :=
  match buf with IntBuf vs => Some vs | _ => None end.

Section Methods.
Variable checkColType : ColMeta -> DataType -> outcome unit.

Definition DoFloat := DoColumn checkColType assertFloat TFloat.
Definition DoTime := DoColumn checkColType assertTime TTime.

Definition AtFloat := AtColumn checkColType assertFloat TFloat.
Definition AtString := AtColumn checkColType assertString TString.
Definition AtInt := AtColumn checkColType assertInt TInt.
Definition AtTime := AtColumn checkColType assertTime TTime.

End Methods.

End StorageIter.

(** * The select source (package functions) *)
Module Select.
Import Eval.

(** Arithmetic on int64 wraps around. *)
Definition wrap64 (z : Z) : Z := (z + 2 ^ 63) mod 2 ^ 64 - 2 ^ 63.

Definition int64_add (a b : Z) : Z := wrap64 (a + b).
Definition int64_sub (a b : Z) : Z := wrap64 (a - b).

(** execute.Bounds, named apart from the field Bounds of the spec. *)
Definition execute_Bounds : Type := Bounds.

(** plan.WindowSpec, with the fields that createSelectSource reads. *)
Record WindowSpec : Type := mkWindowSpec {
  Window_Every : Z;
  Window_Period : Z;
  Window_Round : Z;
  Window_Start : queryTime.t
}.

Definition WindowSpec_zero : WindowSpec := mkWindowSpec 0 0 0 queryTime.zero.

Record SelectProcedureSpec : Type := mkSelect {
  Database : string;
  BoundsSet : bool;
  Bounds : Plan.BoundsSpec;
  WhereSet : bool;
  Where : option Storage.Predicate;
  DescendingSet : bool;
  Descending : bool;
  LimitSet : bool;
  Limit : Z;
  Offset : Z;
  WindowSet : bool;
  Window : WindowSpec
}.

(** The procedure specs that can reach createSelectSource. *)
Inductive ProcedureSpec : Type :=
  | SelectSpec (s : SelectProcedureSpec)
  | OtherSpec (kind : string).

(** execute.Window *)
Record Window_ : Type := mkWindow {
  Every : Z;
  Period : Z;
  Round : Z;
  Start_ : Time
}.

(** What createSelectSource hands to execute.NewStorageSource, next
    to the dataset id and the reader. *)
Record StorageSource : Type := mkStorageSource {
  readSpec : Storage.ReadSpec.t;
  source_bounds : execute_Bounds;
  window : Window_;
  currentTime : Time
}.

Section Source.
(** ctx.ResolveTime, of package execute. *)
Variable ResolveTime : queryTime.t -> Time.

Definition createSelectSource (prSpec : ProcedureSpec) : outcome StorageSource :=
  match prSpec with
  | OtherSpec _ => Panic "interface conversion"
  | SelectSpec spec =>
      let w :=
        if WindowSet spec then
          mkWindow (Window_Every (Window spec)) (Window_Period (Window spec))
            (Window_Round (Window spec)) (ResolveTime (Window_Start (Window spec)))
        else
          let duration :=
            int64_sub (ResolveTime (Plan.Bounds_Stop (Bounds spec)))
                      (ResolveTime (Plan.Bounds_Start (Bounds spec))) in
          mkWindow duration duration 0 (ResolveTime (Plan.Bounds_Start (Bounds spec))) in
      let currentTime := int64_add (Start_ w) (Period w) in
      let bounds :=
        mkBounds (ResolveTime (Plan.Bounds_Start (Bounds spec)))
                 (ResolveTime (Plan.Bounds_Stop (Bounds spec))) in
      Done (mkStorageSource
              (Storage.ReadSpec.mk (Database spec) (Where spec) (Limit spec)
                 (Descending spec))
              bounds w currentTime)
  end.

End Source.

End Select.

(** * The tables of constructors (package ifql) *)
Module Registry.
Import Eval.

(** The maps [functionsMap] and [methodMap]: a registered constructor
    may be the nil func, [None]. *)
Definition table : Type := gmap string (option CreateOperationSpec).

(** The body that RegisterFunction and RegisterMethod share, up to the
    word in the message of the panic. *)
Definition register (what : string) (name : string) (c : option CreateOperationSpec)
    (m : gmap string (option CreateOperationSpec)) : outcome table :=
  match m !! name with
  | Some (Some _) => Panic ("duplicate registration for " +:+ what +:+ " " +:+ quote name)
  | _ => Done (<[name := c]> m)
  end.

(** RegisterFunction adds a new top level function. *)
Definition RegisterFunction : string -> option CreateOperationSpec -> table -> outcome table :=
  register "function".

(** RegisterMethod adds a new chaining method. *)
Definition RegisterMethod : string -> option CreateOperationSpec -> table -> outcome table :=
  register "method".

(** Registrations one after the other, as the init functions of the
    packages make them. *)
Fixpoint register_all (reg : string -> option CreateOperationSpec -> table -> outcome table)
    (calls : list (string * option CreateOperationSpec))
    (m : gmap string (option CreateOperationSpec)) : outcome table :=
  match calls with
  | [] => Done m
  | call :: calls =>
      match reg call.1 call.2 m with
      | Done m => register_all reg calls m
      | Panic msg => Panic msg
      end
  end.

(** The calls that register the constructors of a list. *)
Definition registrations (ctors : list (string * CreateOperationSpec))
    : list (string * option CreateOperationSpec) :=
  (fun ctor => (ctor.1, Some ctor.2)) <$> ctors.

End Registry.

(** * Properties of the storage reader *)
Module StorageFacts.
Import Storage.

(** ** Receiving: errors and the end of the stream *)

Lemma more_buffered (s : readState) f fs :
  rep s = f :: fs -> more s = (true, s).
Proof. unfold more. now intros ->. Qed.

Lemma more_error (e : error) (rest : Storage_ReadClient) :
  more (mkReadState (RecvError e :: rest) []) =
  (false, mkReadState (RecvError e :: rest) []).
Proof. unfold more, RecvMsg; simpl. now destruct e. Qed.

Lemma more_exhausted : more (mkReadState [] []) = (false, mkReadState [] []).
Proof. reflexivity. Qed.

(** C3.  A transport error of RecvMsg ends [more], and with it the loop
    of [Do], exactly as the clean end of the stream does: whatever the
    error is, [Do] returns normally with the blocks delivered so far,
    and the error is handed to nobody. *)
Theorem Do_swallows_transport_error :
  forall (e : error) (rest : Storage_ReadClient) (fuel : nat)
         (f : storageBlock -> readState -> option readState)
         (b : Bounds) (delivered : list storageBlock),
    more (mkReadState (RecvError e :: rest) []) =
      (false, mkReadState (RecvError e :: rest) [])
    /\ Do (S fuel) f b (mkReadState (RecvError e :: rest) []) delivered =
       Returned delivered (mkReadState (RecvError e :: rest) [])
    /\ Do (S fuel) f b (mkReadState [] []) delivered =
       Returned delivered (mkReadState [] []).
Proof.
  intros e rest fuel f b delivered. split; [apply more_error|].
  split; simpl.
  - now rewrite more_error.
  - reflexivity.
Qed.

(** ** Frame kinds *)

Definition supported (f : Frame) : bool :=
  match f with
  | Series _ | IntegerPoints _ _ | FloatPoints _ _ => true
  | _ => false
  end.

(** The timestamps and values of a points frame are parallel arrays. *)
Definition parallel (f : Frame) : Prop :=
  match f with
  | Series _ => True
  | IntegerPoints ts vs => length ts = length vs
  | FloatPoints ts vs => length ts = length vs
  | StringPoints ts vs => length ts = length vs
  | BooleanPoints ts vs => length ts = length vs
  | UnsignedPoints ts vs => length ts = length vs
  end.

Lemma copy_points_parallel {V : Type} (ts : list Z) (vs : list V) :
  length ts = length vs -> copy_points ts vs = Done (ts, vs).
Proof.
  revert vs. induction ts as [|t ts IH]; intros [|v vs] Hlen; simpl in *;
    try discriminate; try reflexivity.
  rewrite IH by congruence. reflexivity.
Qed.

Lemma peek_supported (s : readState) f fs :
  rep s = f :: fs -> supported f = true -> exists t, peek s = Done t.
Proof.
  unfold peek. intros -> Hf. destruct f; try discriminate; eauto.
Qed.

Lemma peek_unsupported (s : readState) f fs :
  rep s = f :: fs -> supported f = false -> exists msg, peek s = Panic msg.
Proof.
  unfold peek. intros -> Hf. destruct f; try discriminate; eauto.
Qed.

(** C4, counterexample.  A stringPoints frame at the head of the
    response is one of the six documented kinds, and [peek] panics on
    it; so does [advance]. *)
Lemma peek_panics_on_stringPoints :
  peek (mkReadState [] [StringPoints [1%Z] ["a"]]) =
    Panic "read response frame should have one of series, integerPoints, or floatPoints"
  /\ advance (mkValueIterator (mkReadState [] [StringPoints [1%Z] ["a"]])
                (TimeCol, ValueCol) 1 (nilBuf, nilBuf) [] [] [] []) =
    Panic "read response frame should have one of series, integerPoints, or floatPoints".
Proof. split; reflexivity. Qed.

(** C4, amended.  For a frame of kind series, integerPoints or
    floatPoints at the head of the response, with parallel timestamps
    and values, [peek] classifies the frame and [advance] handles it,
    both without a panic; on a frame of one of the other three kinds
    [peek] panics. *)
Theorem peek_advance_supported_kinds :
  forall (s : readState) (f : Frame) (fs : list Frame),
    rep s = f :: fs ->
    parallel f ->
    (supported f = true ->
       (exists t, peek s = Done t) /\
       (forall b : storageBlockValueIterator,
           vi_data b = s -> exists r, advance b = Done r))
    /\ (supported f = false -> exists msg, peek s = Panic msg).
Proof.
  intros s f fs Hrep Hpar. split; [|now apply peek_unsupported with fs].
  intros Hsup. split; [now apply peek_supported with f fs|].
  intros b Hb. unfold advance. rewrite Hb, (more_buffered s f fs Hrep).
  unfold peek, next. rewrite Hrep.
  destruct f; try discriminate; simpl in Hpar.
  - eauto.
  - rewrite copy_points_parallel by assumption. eauto.
  - rewrite copy_points_parallel by assumption. eauto.
Qed.

Lemma peek_advance_supported_kinds_witness :
  (exists t, peek (mkReadState [] [IntegerPoints [1%Z; 2%Z] [10%Z; 20%Z]]) = Done t)
  /\ exists r,
      advance (mkValueIterator (mkReadState [] [IntegerPoints [1%Z; 2%Z] [10%Z; 20%Z]])
                 (TimeCol, ValueCol) 1 (nilBuf, nilBuf) [] [] [] []) = Done r.
Proof.
  destruct (peek_advance_supported_kinds
              (mkReadState [] [IntegerPoints [1%Z; 2%Z] [10%Z; 20%Z]])
              (IntegerPoints [1%Z; 2%Z] [10%Z; 20%Z]) [] eq_refl eq_refl)
    as [H _].
  destruct (H eq_refl) as [Hp Ha]. split; [exact Hp|].
  apply Ha. reflexivity.
Defined.

(** ** The read request *)

Section ReadFacts.
Context {ClientConn : Type}.
Variable Dial : string -> error + ClientConn.
Variable client_Read : ClientConn -> ReadRequest.t -> error + Storage_ReadClient.

(** The request that [Read] builds. *)
Definition request_of (readSpec : ReadSpec.t) (start stop : Time) : ReadRequest.t :=
  ReadRequest.mk (ReadSpec.Database readSpec) (ReadSpec.Predicate readSpec) 0
    (ReadSpec.Descending readSpec) (mkRange start stop).

(** C6.  When the connection and the stream open, [Read] sends a
    request with the database, predicate and descending flag of the
    spec and the range (start, stop), and returns an iterator bound to
    (start, stop); the limit of the request is 0 whatever the limit of
    the spec is. *)
Theorem Read_request_without_limit :
  forall (sr : storageReader) (readSpec : ReadSpec.t) (start stop : Time)
         (conn : ClientConn) (stream : Storage_ReadClient),
    Dial "localhost:8082" = inr conn ->
    client_Read conn (request_of readSpec start stop) = inr stream ->
    let r := Read Dial client_Read sr readSpec start stop in
    sent r = Some (request_of readSpec start stop)
    /\ ReadRequest.Limit (request_of readSpec start stop) = 0%Z
    /\ returned r = inr (mkIterator (mkBounds start stop) (mkReadState stream [])).
Proof.
  intros sr readSpec start stop conn stream Hdial Hopen. simpl.
  unfold Read, connect. rewrite Hdial.
  unfold ReadRequest.set_End, ReadRequest.set_Start, ReadRequest.set_Descending,
    ReadRequest.set_Predicate, ReadRequest.set_Database, ReadRequest.zero.
  unfold request_of in *. cbn in *. rewrite Hopen. auto.
Qed.

End ReadFacts.

(** A spec with limit 1: the request leaves with limit 0. *)
Lemma Read_request_without_limit_witness :
  let readSpec := ReadSpec.mk "mydb" None 1 true in
  let r := Read (fun _ => inr tt) (fun _ _ => inr []) (mkReader []) readSpec 0%Z 10%Z in
  sent r = Some (request_of readSpec 0%Z 10%Z)
  /\ ReadRequest.Limit (request_of readSpec 0%Z 10%Z) = 0%Z
  /\ returned r = inr (mkIterator (mkBounds 0%Z 10%Z) (mkReadState [] [])).
Proof.
  exact (Read_request_without_limit (fun _ => inr tt) (fun _ _ => inr [])
           (mkReader []) (ReadSpec.mk "mydb" None 1 true) 0%Z 10%Z tt []
           eq_refl eq_refl).
Defined.

End StorageFacts.

(** * Properties of the filter push-down *)
Module PlanFacts.
Import Plan.

(** The first push-down into a root without a filter absorbs it. *)
Lemma PushDown_first (s : FilterProcedureSpec) (root : nat)
    (dup : store -> nat * store) (h : store) r selectSpec :
  h !! root = Some r ->
  Spec r = FromSpec selectSpec ->
  FilterSet selectSpec = false ->
  PushDown s root dup h =
    Done (<[root := set_Spec (FromSpec (set_Filter (F s) (set_FilterSet true selectSpec))) r]> h).
Proof.
  intros Hr Hs Hf. unfold PushDown. rewrite Hr, Hs, Hf. reflexivity.
Qed.

(** C1.  When the root already has its filter set, PushDown takes the
    copy from [dup] and clears it: the copy ends with FilterSet = false
    and Filter = nil, the pushed filter [F s] is absorbed nowhere.  The
    original root keeps its state. *)
Theorem PushDown_second_filter_clears_copy :
  forall (s : FilterProcedureSpec) (root : nat) (dup : store -> nat * store)
         (h h1 : store) (r r1 : Procedure) (selectSpec spec1 : FromProcedureSpec)
         (a : nat),
    h !! root = Some r ->
    Spec r = FromSpec selectSpec ->
    FilterSet selectSpec = true ->
    dup h = (a, h1) ->
    a <> root ->
    h1 !! root = Some r ->
    h1 !! a = Some r1 ->
    Spec r1 = FromSpec spec1 ->
    exists h' r',
      PushDown s root dup h = Done h'
      /\ h' !! root = Some r
      /\ h' !! a = Some r'
      /\ ID r' = ID r1
      /\ Spec r' = FromSpec (set_Filter None (set_FilterSet false spec1))
      /\ forall spec', Spec r' = FromSpec spec' ->
           FilterSet spec' = false /\ Filter spec' = None.
Proof.
  intros s root dup h h1 r r1 selectSpec spec1 a Hr Hs Hset Hdup Hne Hr1 Ha Hs1.
  unfold PushDown. rewrite Hr, Hs, Hset, Hdup, Ha, Hs1.
  eexists _, _. split; [reflexivity|].
  split; [rewrite lookup_insert_ne; auto|].
  split; [apply lookup_insert_eq|].
  split; [reflexivity|]. split; [reflexivity|].
  intros spec' Heq. simpl in Heq. injection Heq as <-. split; reflexivity.
Qed.

(** The plan of TestFilter_PushDown_Branch when filterB arrives: the
    from procedure has absorbed filterA. *)
Definition filter_expr (tag : string) : ast.ArrowFunction :=
  ast.mkArrow ["r"]
    (ast.BinaryExpression ast.NotEqualOperator
       (ast.MemberExpression (ast.Identifier "r") (ast.Identifier "_measurement"))
       (ast.StringLiteral tag)).

Definition from_with_filterA : Procedure :=
  mkProcedure (ProcedureIDFromOperationID "from")
    (FromSpec (mkFrom "mydb" true (mkBoundsSpec queryTime.zero queryTime.Now)
                 true (Some (filter_expr "A")) false false false 0))
    [] [].

Definition from_unfiltered : FromProcedureSpec :=
  mkFrom "mydb" true (mkBoundsSpec queryTime.zero queryTime.Now)
    false None false false false 0.

Definition from_dup : Procedure :=
  mkProcedure (ProcedureIDForDuplicate (ProcedureIDFromOperationID "from"))
    (Spec from_with_filterA) [] [].

Lemma PushDown_second_filter_clears_copy_witness :
  exists h' r',
    PushDown (mkFilter (Some (filter_expr "B"))) 0%nat (planner_dup 0%nat)
      {[ 0%nat := from_with_filterA ]} = Done h'
    /\ h' !! 0%nat = Some from_with_filterA
    /\ h' !! 1%nat = Some r'
    /\ ID r' = ProcedureIDForDuplicate (ProcedureIDFromOperationID "from")
    /\ Spec r' = FromSpec from_unfiltered
    /\ forall spec', Spec r' = FromSpec spec' ->
         FilterSet spec' = false /\ Filter spec' = None.
Proof.
  exact (PushDown_second_filter_clears_copy
           (mkFilter (Some (filter_expr "B"))) 0%nat (planner_dup 0%nat)
           {[ 0%nat := from_with_filterA ]}
           (<[1%nat := from_dup]> {[ 0%nat := from_with_filterA ]})
           from_with_filterA from_dup
           (mkFrom "mydb" true (mkBoundsSpec queryTime.zero queryTime.Now)
              true (Some (filter_expr "A")) false false false 0)
           (mkFrom "mydb" true (mkBoundsSpec queryTime.zero queryTime.Now)
              true (Some (filter_expr "A")) false false false 0)
           1%nat eq_refl eq_refl eq_refl eq_refl ltac:(lia) eq_refl eq_refl eq_refl).
Defined.

End PlanFacts.

(** * Properties of the max selector *)
Module MaxFacts.
Import MaxSelect.

(** What a typed selector holds after a frame [vs]: no value of the
    frame exceeds its max; either no value passed the test
    [!s.set || v > s.max] and the selector is as before, or the max is
    the value of a row [k] of the frame that is selected, all rows
    before [k] hold strictly smaller values, and the max exceeds the
    previous one. *)
Definition selects_first_max {V : Type} (gt : V -> V -> bool)
    (s : MaxTypedSelector V) (vs : list V) (rr : RowReader)
    (s' : MaxTypedSelector V) : Prop :=
  (forall v, v ∈ vs -> gt v (max s') = false)
  /\ (((forall v, v ∈ vs -> set (base s) = true /\ gt v (max s) = false) /\ s' = s)
      \/ (exists k : nat,
            vs !! k = Some (max s')
            /\ base s' = mkMaxSelector true [ReadRow (Z.of_nat k) rr]
            /\ (forall j v, (j < k)%nat -> vs !! j = Some v -> gt (max s') v = true)
            /\ (set (base s) = true -> gt (max s') (max s) = true))).

Section Generic.
Context {V : Type}.
Variable gt : V -> V -> bool.
Variable valid : V -> Prop.
Hypothesis gt_irrefl : forall a, valid a -> gt a a = false.
Hypothesis gt_trans : forall a b c,
  valid a -> valid b -> valid c -> gt a b = true -> gt b c = true -> gt a c = true.
Hypothesis ngt_trans : forall a b c,
  valid a -> valid b -> valid c -> gt a b = false -> gt b c = false -> gt a c = false.

Lemma gt_asym a b : valid a -> valid b -> gt a b = true -> gt b a = false.
Proof.
  intros Ha Hb Hab. destruct (gt b a) eqn:Hba; [|reflexivity].
  rewrite <- (gt_irrefl a Ha). symmetry. now apply gt_trans with b.
Qed.

(** The loop, started at index [i] with the candidate [maxIdx]. *)
Lemma range_loop_spec (vs : list V) :
  forall (s : MaxTypedSelector V) (maxIdx i : Z),
    Forall valid vs ->
    (set (base s) = true -> valid (max s)) ->
    forall s' idx', range_loop gt s maxIdx i vs = (s', idx') ->
    rows (base s') = rows (base s)
    /\ (((forall v, v ∈ vs -> set (base s) = true /\ gt v (max s) = false)
         /\ s' = s /\ idx' = maxIdx)
        \/ (exists k : nat,
              idx' = (i + Z.of_nat k)%Z
              /\ vs !! k = Some (max s')
              /\ set (base s') = true
              /\ (forall v, v ∈ vs -> gt v (max s') = false)
              /\ (forall j v, (j < k)%nat -> vs !! j = Some v -> gt (max s') v = true)
              /\ (set (base s) = true -> gt (max s') (max s) = true))).
Proof.
  induction vs as [|v vs IH]; intros s maxIdx i Hvalid Hs s' idx' Hloop; simpl in Hloop.
  - injection Hloop as <- <-. split; [reflexivity|]. left.
    split; [|auto]. intros v Hv. inversion Hv.
  - apply Forall_cons in Hvalid as [Hv Hvs].
    destruct (negb (set (base s)) || gt v (max s)) eqn:Hcond.
    + destruct (IH (mkTyped (mkMaxSelector true (rows (base s))) v) i (i + 1)%Z
                  Hvs (fun _ => Hv) _ _ Hloop) as [Hrows Hcases].
      split; [exact Hrows|]. right.
      assert (Hprev : set (base s) = true -> gt v (max s) = true).
      { intros Hset. rewrite Hset in Hcond. exact Hcond. }
      destruct Hcases as [(Hnone & -> & ->) | (k & -> & Hk & Hset' & Hmax & Hfirst & Hgt)].
      * exists 0%nat. simpl. split; [lia|]. split; [reflexivity|].
        split; [reflexivity|]. split; [|split; [intros; lia|exact Hprev]].
        intros w Hw. apply elem_of_cons in Hw as [->|Hw].
        -- now apply gt_irrefl.
        -- now apply Hnone.
      * assert (Hm : valid (max s')).
        { eapply Forall_forall; [exact Hvs|]. eapply list_elem_of_lookup_2, Hk. }
        specialize (Hgt eq_refl). simpl in Hgt.
        exists (S k). split; [lia|]. split; [exact Hk|]. split; [exact Hset'|].
        split; [|split].
        -- intros w Hw. apply elem_of_cons in Hw as [->|Hw]; [|now apply Hmax].
           now apply gt_asym.
        -- intros [|j] w Hj Hw; simpl in Hw.
           ++ now injection Hw as <-.
           ++ apply (Hfirst j); [lia|exact Hw].
        -- intros Hset. apply gt_trans with v; auto.
    + apply orb_false_iff in Hcond as [Hset Hle].
      apply negb_false_iff in Hset.
      destruct (IH _ _ _ Hvs Hs _ _ Hloop) as [Hrows Hcases].
      split; [exact Hrows|].
      destruct Hcases as [(Hnone & -> & ->) | (k & -> & Hk & Hset' & Hmax & Hfirst & Hgt)].
      * left. split; [|auto]. intros w Hw.
        apply elem_of_cons in Hw as [->|Hw]; [auto|now apply Hnone].
      * assert (Hm : valid (max s')).
        { eapply Forall_forall; [exact Hvs|]. eapply list_elem_of_lookup_2, Hk. }
        specialize (Hgt Hset). specialize (Hs Hset).
        right. exists (S k). split; [lia|]. split; [exact Hk|]. split; [exact Hset'|].
        split; [|split; [|auto]].
        -- intros w Hw. apply elem_of_cons in Hw as [->|Hw]; [|now apply Hmax].
           destruct (gt v (max s')) eqn:Hvm; [|reflexivity].
           rewrite <- Hle. symmetry. now apply gt_trans with (max s').
        -- intros [|j] w Hj Hw; simpl in Hw.
           ++ injection Hw as <-.
              destruct (gt (max s') v) eqn:Hmv; [reflexivity|].
              rewrite <- Hgt. symmetry. now apply ngt_trans with v.
           ++ apply (Hfirst j); [lia|exact Hw].
Qed.

Lemma DoTyped_spec (s : MaxTypedSelector V) (vs : list V) (rr : RowReader) :
  Forall valid vs ->
  (set (base s) = true -> valid (max s)) ->
  selects_first_max gt s vs rr (DoTyped gt s vs rr).
Proof.
  intros Hvs Hs. unfold DoTyped.
  destruct (range_loop gt s (-1) 0 vs) as [s' idx'] eqn:Hloop.
  destruct (range_loop_spec vs s (-1)%Z 0%Z Hvs Hs s' idx' Hloop) as [Hrows Hcases].
  destruct Hcases as [(Hnone & -> & ->) | (k & -> & Hk & Hset' & Hmax & Hfirst & Hgt)].
  - unfold selectRow. simpl. split.
    + intros v Hv. now apply Hnone.
    + left. split; [exact Hnone|]. now destruct s.
  - unfold selectRow.
    replace (0 <=? 0 + Z.of_nat k)%Z with true by (symmetry; apply Z.leb_le; lia).
    simpl. split; [exact Hmax|]. right. exists k.
    rewrite Hset'. replace (0 + Z.of_nat k)%Z with (Z.of_nat k) by lia. auto.
Qed.

End Generic.

(** ** The order of float64 without NaN *)

Definition not_nan (f : float64) : Prop := f <> S754_nan.

(** A key that orders the floats other than NaN as [SFltb] does. *)
Definition float_key (f : float64) : Z * Z * Z :=
  match f with
  | S754_zero _ => (0, 0, 0)
  | S754_infinity false => (2, 0, 0)
  | S754_infinity true => (-2, 0, 0)
  | S754_nan => (0, 0, 0)
  | S754_finite false m e => (1, e, Zpos m)
  | S754_finite true m e => (-1, - e, - Zpos m)
  end%Z.

Definition key_lt (a b : Z * Z * Z) : Prop :=
  (a.1.1 < b.1.1 \/ (a.1.1 = b.1.1 /\ (a.1.2 < b.1.2 \/ (a.1.2 = b.1.2 /\ a.2 < b.2))))%Z.

Lemma SFltb_key (a b : float64) :
  not_nan a -> not_nan b -> SFltb a b = true <-> key_lt (float_key a) (float_key b).
Proof.
  unfold not_nan, SFltb, SFcompare, key_lt.
  destruct a as [sa|sa| |sa ma ea], b as [sb|sb| |sb mb eb]; try congruence;
    intros _ _; try destruct sa; try destruct sb; simpl;
    try (split; [discriminate|lia]); try (split; [lia|reflexivity]);
    try (split; [intros _; lia|reflexivity]).
  - destruct (Z.compare_spec ea eb) as [->|Hlt|Hgt]; simpl.
    + rewrite Pos.compare_cont_spec. simpl.
      destruct (Pos.compare_spec ma mb) as [->|Hm|Hm]; simpl;
        (split; [try discriminate; try lia|try reflexivity; lia]).
    + split; [discriminate|lia].
    + split; [lia|reflexivity].
  - destruct (Z.compare_spec ea eb) as [->|Hlt|Hgt]; simpl.
    + rewrite Pos.compare_cont_spec. simpl.
      destruct (Pos.compare_spec ma mb) as [->|Hm|Hm]; simpl;
        (split; [try discriminate; try lia|try reflexivity; lia]).
    + split; [lia|reflexivity].
    + split; [discriminate|lia].
Qed.

Lemma float_gt_key (v m : float64) :
  not_nan v -> not_nan m ->
  float_gt v m = true <-> key_lt (float_key m) (float_key v).
Proof. intros Hv Hm. unfold float_gt. now apply SFltb_key. Qed.

Lemma float_gt_false_key (v m : float64) :
  not_nan v -> not_nan m ->
  float_gt v m = false <-> ~ key_lt (float_key m) (float_key v).
Proof.
  intros Hv Hm. rewrite <- (float_gt_key v m Hv Hm).
  destruct (float_gt v m); split; congruence.
Qed.

Lemma float_gt_irrefl a : not_nan a -> float_gt a a = false.
Proof.
  intros Ha. apply float_gt_false_key; auto. unfold key_lt. lia.
Qed.

Lemma float_gt_trans a b c :
  not_nan a -> not_nan b -> not_nan c ->
  float_gt a b = true -> float_gt b c = true -> float_gt a c = true.
Proof.
  intros Ha Hb Hc Hab Hbc.
  apply float_gt_key in Hab; auto. apply float_gt_key in Hbc; auto.
  apply float_gt_key; auto. unfold key_lt in *. lia.
Qed.

Lemma float_ngt_trans a b c :
  not_nan a -> not_nan b -> not_nan c ->
  float_gt a b = false -> float_gt b c = false -> float_gt a c = false.
Proof.
  intros Ha Hb Hc Hab Hbc.
  apply float_gt_false_key in Hab; auto. apply float_gt_false_key in Hbc; auto.
  apply float_gt_false_key; auto. unfold key_lt in *. lia.
Qed.

Lemma Z_gtb_irrefl (a : Z) : True -> (a >? a)%Z = false.
Proof. intros _. rewrite Z.gtb_ltb. apply Z.ltb_irrefl. Qed.

Lemma Z_gtb_trans (a b c : Z) :
  True -> True -> True -> (a >? b)%Z = true -> (b >? c)%Z = true -> (a >? c)%Z = true.
Proof. intros _ _ _. rewrite !Z.gtb_ltb, !Z.ltb_lt. lia. Qed.

Lemma Z_ngtb_trans (a b c : Z) :
  True -> True -> True -> (a >? b)%Z = false -> (b >? c)%Z = false -> (a >? c)%Z = false.
Proof. intros _ _ _. rewrite !Z.gtb_ltb, !Z.ltb_ge. lia. Qed.

Definition row_of (i : Z) : Row := mkRow [CTime (10 * i); CInt 5].

(** C2, counterexample.  Two rows tie for the maximum 5: DoInt selects
    row 0, the first of them, not row 1, the last.  And a NaN that
    comes first stays selected whatever follows. *)
Lemma DoInt_tie_selects_first_row :
  Rows (base (DoInt newMaxInt [5; 5]%Z row_of)) = [row_of 0]
  /\ Rows (base (DoInt newMaxInt [5; 5]%Z row_of)) <> [row_of 1]
  /\ DoFloat newMaxFloat [S754_nan; S754_finite false 1 0] row_of =
       mkTyped (mkMaxSelector true [row_of 0]) S754_nan.
Proof. split; [reflexivity|split; [discriminate|reflexivity]]. Qed.

(** C2, amended.  After DoInt, DoUInt or DoFloat on a frame (for
    DoFloat: without NaN among the values and in the selector), no
    value of the frame exceeds the selector's max; if some value passed
    the test then the max is that of the selected row and every earlier
    row of the frame holds a strictly smaller value, so among rows that
    tie for the maximum the first one is selected; otherwise the
    selector is unchanged. *)
Theorem max_selects_first_maximum :
  (forall (s : MaxIntSelector) (vs : list Z) (rr : RowReader),
      selects_first_max Z.gtb s vs rr (DoInt s vs rr))
  /\ (forall (s : MaxUIntSelector) (vs : list Z) (rr : RowReader),
        selects_first_max Z.gtb s vs rr (DoUInt s vs rr))
  /\ (forall (s : MaxFloatSelector) (vs : list float64) (rr : RowReader),
        Forall not_nan vs ->
        (set (base s) = true -> not_nan (max s)) ->
        selects_first_max float_gt s vs rr (DoFloat s vs rr)).
Proof.
  split; [|split].
  - intros s vs rr. unfold DoInt.
    apply (DoTyped_spec Z.gtb (fun _ => True) Z_gtb_irrefl Z_gtb_trans Z_ngtb_trans).
    + now apply Forall_forall.
    + auto.
  - intros s vs rr. unfold DoUInt.
    apply (DoTyped_spec Z.gtb (fun _ => True) Z_gtb_irrefl Z_gtb_trans Z_ngtb_trans).
    + now apply Forall_forall.
    + auto.
  - intros s vs rr Hvs Hs. unfold DoFloat.
    now apply (DoTyped_spec float_gt not_nan float_gt_irrefl float_gt_trans
                 float_ngt_trans).
Qed.

Definition f2 : float64 := S754_finite false 1 1.
Definition f1 : float64 := S754_finite false 1 0.

Lemma max_selects_first_maximum_witness :
  selects_first_max Z.gtb newMaxInt [3; 5; 5]%Z row_of (DoInt newMaxInt [3; 5; 5]%Z row_of)
  /\ selects_first_max float_gt newMaxFloat [f1; f2; f2] row_of
       (DoFloat newMaxFloat [f1; f2; f2] row_of).
Proof.
  destruct max_selects_first_maximum as (Hint & _ & Hfloat).
  split; [apply Hint|]. apply Hfloat.
  - repeat constructor; discriminate.
  - discriminate.
Defined.

End MaxFacts.

(** * Properties of the evaluator: arguments and arrays *)
Module EvalArgsFacts.
Import ast Eval.
Local Open Scope nat_scope.

Lemma bind_Ok {A B} (m : M A) (k : A -> M B) ev a ev' :
  m ev = Ok (a, ev') -> bind m k ev = k a ev'.
Proof. unfold bind. now intros ->. Qed.

Lemma bind_Err {A B} (m : M A) (k : A -> M B) ev e :
  m ev = Err e -> bind m k ev = Err e.
Proof. unfold bind. now intros ->. Qed.

(** ** Empty array literals *)

(** C10.  An array literal without elements is an error: the type of
    the array is still TInvalid after the (empty) loop over the
    elements, and the switch over it takes its default branch. *)
Theorem empty_array_is_an_error :
  let err := Errorf "cannot define an array with elements of type unknown type 0" in
  (forall (doExpression : Expression -> M Value) (ev : evaluator),
      doArray doExpression [] ev = Err err)
  /\ (forall functionsMap methodMap growslice (fuel : nat) (ev : evaluator),
        doExpression functionsMap methodMap growslice (S fuel) (ArrayExpression []) ev
        = Err err)
  /\ (forall functionsMap methodMap growslice (fuel : nat) (rest : list Statement),
        Evaluate functionsMap methodMap growslice (S fuel)
          (mkProgram (ExpressionStatement (ArrayExpression []) :: rest))
        = Err err).
Proof.
  simpl. split; [|split].
  - reflexivity.
  - reflexivity.
  - reflexivity.
Qed.

(** ** Unused keyword arguments *)

Lemma get_params a name typ required :
  params (get a name typ required).1 = params a.
Proof.
  unfold get. simpl. destruct (params a !! name) as [v|].
  - now destruct (bool_decide (Type_of v <> typ)).
  - now destruct required.
Qed.

Lemma GetTime_params a name : params (GetTime a name).1 = params a.
Proof.
  unfold GetTime. simpl. destruct (params a !! name) as [v|]; [|reflexivity].
  now destruct (ToQueryTime v).
Qed.

(** A constructor cannot change the parameters it was called with. *)
Lemma runCtor_params (c : CreateOperationSpec) :
  forall ev a ctx a' ctx' r,
    runCtor c ev a ctx = Done (a', ctx', r) -> params a' = params a.
Proof.
  induction c as [spec|err|name typ required k IH|name k IH|id k IH|ident k IH|msg];
    intros ev a ctx a' ctx' r Hrun; simpl in Hrun.
  - now injection Hrun as <- _ _.
  - now injection Hrun as <- _ _.
  - pose proof (get_params a name typ required) as Hp.
    destruct (get a name typ required) as [a1 [[v ok] err]].
    apply IH in Hrun. simpl in Hp. congruence.
  - pose proof (GetTime_params a name) as Hp.
    destruct (GetTime a name) as [a1 [[qt ok] err]].
    apply IH in Hrun. simpl in Hp. congruence.
  - eauto.
  - destruct (LookupIDFromIdentifier ev ident) as [[id err]|]; [|discriminate].
    eauto.
  - discriminate.
Qed.

(** The names that listUnused returns: the parameters not marked as
    used. *)
Lemma elem_of_listUnused (a : arguments) (k : string) :
  k ∈ listUnused a <-> is_Some (params a !! k) /\ used a !! k <> Some true.
Proof.
  unfold listUnused. rewrite list_elem_of_omap. split.
  - intros [[k' v] [Hin Hk]]. simpl in Hk.
    apply elem_of_map_to_list in Hin.
    destruct (used a !! k') as [[|]|] eqn:Hu; simpl in Hk; try discriminate;
      injection Hk as <-; (split; [eauto|congruence]).
  - intros [[v Hv] Hu]. exists (k, v). split; [now apply elem_of_map_to_list|].
    simpl. destruct (used a !! k) as [[|]|]; simpl; congruence.
Qed.

Section CreateOp.
Variable functionsMap : gmap string CreateOperationSpec.
Variable methodMap : gmap string CreateOperationSpec.
Variable doExpression : Expression -> M Value.

(** The state in which createOp resolves the parameters: the id is
    taken and the operation allocated. *)
Definition after_allocation (name : string) (ev : evaluator) : evaluator :=
  set_ops (ops ev ++ [mkOperation (Sprintf_sd name (id ev)) None])
    (set_id (id ev + 1) ev).

Definition extra_arguments (unused : list string) : error :=
  Errorf ("extra arguments provided: [" +:+ String.concat "," unused +:+ "]").

Lemma createOp_extra_arguments (name : string) (createOpSpec : CreateOperationSpec)
    (properties : list (string * Expression)) (ev ev' : evaluator)
    (paramMap : gmap string Value) (a : arguments) (ctx : context)
    (spec : OperationSpec) (k : string) :
  resolveParameters doExpression properties (after_allocation name ev)
    = Ok (paramMap, ev') ->
  runCtor createOpSpec ev' (newArguments paramMap) (mkContext [])
    = Done (a, ctx, inr spec) ->
  is_Some (paramMap !! k) ->
  used a !! k <> Some true ->
  createOp doExpression name createOpSpec [ObjectExpression properties] ev
    = Err (extra_arguments (listUnused a))
  /\ k ∈ listUnused a
  /\ (forall k', k' ∈ listUnused a <->
                 is_Some (paramMap !! k') /\ used a !! k' <> Some true).
Proof.
  intros Hres Hrun Hk Hunused.
  assert (Hparams : params a = paramMap).
  { apply runCtor_params in Hrun. exact Hrun. }
  assert (Hin : k ∈ listUnused a).
  { apply elem_of_listUnused. rewrite Hparams. auto. }
  split; [|split; [exact Hin|]].
  - unfold createOp.
    rewrite (bind_Ok nextID _ ev (id ev) (set_id (id ev + 1) ev)) by reflexivity.
    rewrite (bind_Ok (newOperation _) _ _ (length (ops ev)) (after_allocation name ev))
      by reflexivity.
    rewrite (bind_Ok _ _ _ _ _ Hres).
    unfold bind at 1, gets. rewrite Hrun.
    destruct (listUnused a) as [|u unused] eqn:Hl; [inversion Hin|].
    reflexivity.
  - intros k'. rewrite elem_of_listUnused, Hparams. reflexivity.
Qed.

(** C9.  A call whose argument is one object, whose properties
    resolve, and whose constructor returns a spec without having read
    the property [k]: createOp returns the error "extra arguments
    provided" with exactly the unread properties, [k] among them;
    method and function pass it on wrapped.  An error carries no
    operation. *)
Theorem unread_property_is_extra_argument :
  forall (name : string) (createOpSpec : CreateOperationSpec)
         (properties : list (string * Expression)) (ev ev' : evaluator)
         (paramMap : gmap string Value) (a : arguments) (ctx : context)
         (spec : OperationSpec) (k : string),
    resolveParameters doExpression properties (after_allocation name ev)
      = Ok (paramMap, ev') ->
    runCtor createOpSpec ev' (newArguments paramMap) (mkContext [])
      = Done (a, ctx, inr spec) ->
    is_Some (paramMap !! k) ->
    used a !! k <> Some true ->
    exists unused : list string,
      createOp doExpression name createOpSpec [ObjectExpression properties] ev
        = Err (extra_arguments unused)
      /\ k ∈ unused
      /\ (forall k', k' ∈ unused <->
                     is_Some (paramMap !! k') /\ used a !! k' <> Some true)
      /\ (methodMap !! name = Some createOpSpec ->
            method methodMap doExpression name [ObjectExpression properties] ev
              = Err (Wrapf (extra_arguments unused)
                       ("error calling method " +:+ quote name)))
      /\ (functionsMap !! name = Some createOpSpec ->
            function functionsMap doExpression name [ObjectExpression properties] ev
              = Err (Wrapf (extra_arguments unused)
                       ("error calling function " +:+ quote name))).
Proof.
  intros name createOpSpec properties ev ev' paramMap a ctx spec k Hres Hrun Hk Hu.
  destruct (createOp_extra_arguments name createOpSpec properties ev ev' paramMap
              a ctx spec k Hres Hrun Hk Hu) as (Hc & Hin & Hall).
  exists (listUnused a). repeat split; try apply Hall; auto.
  - intros Hm. unfold method, wrapping. now rewrite Hm, Hc.
  - intros Hf. unfold function, wrapping. now rewrite Hf, Hc.
Qed.

End CreateOp.

(** The call [max(useRowTime: true, foo: 1)]: the constructor of max
    reads useRowTime and leaves foo. *)
Definition max_call_properties : list (string * Expression) :=
  [("useRowTime", BooleanLiteral true); ("foo", IntegerLiteral 1)].

Definition literals_only : Expression -> M Value :=
  doExpression ∅ ∅ (fun _ needed => needed) 1.

Lemma unread_property_is_extra_argument_witness :
  exists unused : list string,
    createOp literals_only "max" createMaxOpSpec
      [ObjectExpression max_call_properties] newEvaluator
      = Err (extra_arguments unused)
    /\ "foo" ∈ unused.
Proof.
  destruct (unread_property_is_extra_argument ∅ {[ "max" := createMaxOpSpec ]}
              literals_only "max" createMaxOpSpec max_call_properties
              newEvaluator (after_allocation "max" newEvaluator)
              (<["foo" := mkValue TInt (dInt 1)]>
                 (<["useRowTime" := mkValue TBool (dBool true)]> ∅))
              (mkArguments
                 (<["foo" := mkValue TInt (dInt 1)]>
                    (<["useRowTime" := mkValue TBool (dBool true)]> ∅))
                 (<["useRowTime" := true]> ∅))
              (mkContext []) (MaxOpSpec true) "foo")
    as (unused & Hc & Hin & _).
  - reflexivity.
  - reflexivity.
  - exists (mkValue TInt (dInt 1)). reflexivity.
  - intros H. vm_compute in H. discriminate H.
  - exists unused. split; assumption.
Defined.

End EvalArgsFacts.

(** * Properties of the filter transformation *)
Module FilterFacts.
Import Filter.
Local Open Scope nat_scope.

Section Facts.
Variable ObjectProperties : ast.ArrowFunction -> error + list ObjectProperty.
Variable CompileExpression :
  ast.ArrowFunction -> gmap ObjectProperty DataType ->
  option CompiledExpression * option error.
Variable ValueDataTypes : list DataType.
Variable ValueIdx : list ColMeta -> Z.

(** ** Compilation per value kind *)

(** The types under which the function is compiled for the kind
    [typ]: every property a string, the value of kind [typ]. *)
Definition kind_types (objectName : string) (properties : list ObjectProperty)
    (typ : DataType) : gmap ObjectProperty DataType :=
  let valueOP := mkObjectProperty objectName "_value" in
  <[valueOP := typ]>
    (foldl (fun (types : gmap ObjectProperty DataType) op =>
              if bool_decide (op <> valueOP) then <[op := TString]> types else types)
           ∅ properties).

(** What NewFilterTransformation stores for a compilation result. *)
Definition stored (r : option CompiledExpression * option error) : expressionOrError :=
  match r with
  | (ce, Some err) => mkExprOrErr (Some err) ce
  | (Some c, None) =>
      if bool_decide (ce_Type c <> TBool) then
        mkExprOrErr (Some (Errorf "expression does not evaluate to boolean")) None
      else mkExprOrErr None (Some c)
  | (None, None) => mkExprOrErr None None
  end.

(** CompileExpression returns an expression whenever it returns no
    error. *)
Definition compiles_or_fails (F : ast.ArrowFunction)
    (types : gmap ObjectProperty DataType) : Prop :=
  (CompileExpression F types).2 = None -> is_Some (CompileExpression F types).1.

Lemma stored_error ce e : stored (ce, Some e) = mkExprOrErr (Some e) ce.
Proof. now destruct ce. Qed.

(** The loop stores the result for every kind it visits and keeps the
    other entries. *)
Lemma compile_kinds_spec (F : ast.ArrowFunction) (valueOP : ObjectProperty)
    (kinds : list DataType) :
  forall (types : gmap ObjectProperty DataType) (ces0 : gmap DataType expressionOrError),
    (forall typ, typ ∈ kinds -> compiles_or_fails F (<[valueOP := typ]> types)) ->
    exists ces,
      compile_kinds CompileExpression F valueOP kinds types ces0 = Done ces
      /\ (forall typ, typ ∉ kinds -> ces !! typ = ces0 !! typ)
      /\ forall typ, typ ∈ kinds ->
           ces !! typ = Some (stored (CompileExpression F (<[valueOP := typ]> types))).
Proof.
  induction kinds as [|t ks IH]; intros types ces0 Hok; simpl.
  - eexists. split; [reflexivity|]. split; [auto|]. intros ? Hin. inversion Hin.
  - assert (Hrest : forall typ, typ ∈ ks ->
              compiles_or_fails F (<[valueOP := typ]> (<[valueOP := t]> types))).
    { intros typ Hin. rewrite insert_insert_eq. apply Hok. now right. }
    pose proof (Hok t (list_elem_of_here _ _)) as Hh. unfold compiles_or_fails in Hh.
    destruct (CompileExpression F (<[valueOP := t]> types)) as [ce err] eqn:Hc.
    simpl in Hh.
    assert (Hstep : forall ces1,
              ces1 !! t = Some (stored (ce, err)) ->
              (forall typ, typ <> t -> ces1 !! typ = ces0 !! typ) ->
              exists ces,
                compile_kinds CompileExpression F valueOP ks
                  (<[valueOP := t]> types) ces1 = Done ces
                /\ (forall typ, typ ∉ t :: ks -> ces !! typ = ces0 !! typ)
                /\ forall typ, typ ∈ t :: ks ->
                     ces !! typ =
                       Some (stored (CompileExpression F (<[valueOP := typ]> types)))).
    { intros ces1 H1 Hother.
      destruct (IH (<[valueOP := t]> types) ces1 Hrest) as (ces & Hrun & Hk1 & Hk2).
      exists ces. split; [exact Hrun|]. split.
      - intros typ Hnin. rewrite Hk1.
        + apply Hother. intros ->. apply Hnin. now left.
        + intros Hin. apply Hnin. now right.
      - intros typ Hin. destruct (decide (typ ∈ ks)) as [Hin'|Hnin].
        + rewrite Hk2 by exact Hin'. now rewrite insert_insert_eq.
        + apply elem_of_cons in Hin as [->|Hin]; [|contradiction].
          rewrite Hk1 by exact Hnin. now rewrite Hc. }
    destruct err as [e|].
    + apply Hstep.
      * now rewrite lookup_insert_eq, stored_error.
      * intros typ Hne. now rewrite lookup_insert_ne.
    + destruct ce as [c|]; [|destruct (Hh eq_refl) as [? [=]]].
      simpl. destruct (bool_decide (ce_Type c <> TBool)) eqn:Hb.
      * apply Hstep.
        -- rewrite lookup_insert_eq. simpl. now rewrite Hb.
        -- intros typ Hne. now rewrite !lookup_insert_ne.
      * apply Hstep.
        -- rewrite lookup_insert_eq. simpl. now rewrite Hb.
        -- intros typ Hne. now rewrite lookup_insert_ne.
Qed.

Lemma Process_ces (t : filterTransformation) (b : Block) r :
  Process ValueIdx t b = Done r -> ces (transformation r) = ces t.
Proof.
  unfold Process. destruct (cache t !! Key b) as [builder|];
    destruct (ValueIdx (Cols b) <? 0)%Z; try discriminate;
    destruct (Cols b !! Z.to_nat (ValueIdx (Cols b))) as [valueCol|]; try discriminate;
    destruct (Err (default expressionOrError_zero (ces t !! Type_ valueCol)));
    try (intros [= <-]; reflexivity);
    match goal with |- context [DoTime ?a ?b ?c ?d ?e ?f] =>
      destruct (DoTime a b c d e f) end;
    try discriminate; intros [= <-]; reflexivity.
Qed.

(** A block whose value column has a kind with a stored error. *)
Lemma Process_stored_error (t : filterTransformation) (b : Block)
    (valueCol : ColMeta) (err : error) (ce : option CompiledExpression) :
  (0 <= ValueIdx (Cols b))%Z ->
  Cols b !! Z.to_nat (ValueIdx (Cols b)) = Some valueCol ->
  ces t !! Type_ valueCol = Some (mkExprOrErr (Some err) ce) ->
  exists r,
    Process ValueIdx t b = Done r
    /\ returned r = Some (Wrapf err "expression does not support type")
    /\ logged r = [].
Proof.
  intros Hidx Hcol Hces. unfold Process.
  replace (ValueIdx (Cols b) <? 0)%Z with false by (symmetry; apply Z.ltb_ge; lia).
  destruct (cache t !! Key b) as [builder|]; rewrite Hcol, Hces; simpl;
    eexists; split; try reflexivity; split; reflexivity.
Qed.

(** C7.  A filter function with one parameter whose properties can be
    listed, and whose compilation for the value kind [typ] fails with
    [err]: NewFilterTransformation succeeds and stores [err] for
    [typ]; Process then returns [err], wrapped, for every block whose
    value column has kind [typ], and the stored results stay as they
    are. *)
Theorem compile_error_is_deferred_to_Process :
  forall (cache : gmap BlockKey BlockBuilder) (spec : Plan.FilterProcedureSpec)
         (F : ast.ArrowFunction) (objectName : string)
         (properties : list ObjectProperty) (typ : DataType)
         (ce : option CompiledExpression) (err : error),
    Plan.F spec = Some F ->
    ast.Params F = [objectName] ->
    ObjectProperties F = inr properties ->
    (forall typ', typ' ∈ ValueDataTypes ->
       compiles_or_fails F (kind_types objectName properties typ')) ->
    typ ∈ ValueDataTypes ->
    CompileExpression F (kind_types objectName properties typ) = (ce, Some err) ->
    exists t : filterTransformation,
      NewFilterTransformation ObjectProperties CompileExpression ValueDataTypes cache spec
        = Done (inr t)
      /\ ces t !! typ = Some (mkExprOrErr (Some err) ce)
      /\ forall (t' : filterTransformation) (b : Block) (valueCol : ColMeta),
           ces t' = ces t ->
           (0 <= ValueIdx (Cols b))%Z ->
           Cols b !! Z.to_nat (ValueIdx (Cols b)) = Some valueCol ->
           Type_ valueCol = typ ->
           exists r,
             Process ValueIdx t' b = Done r
             /\ returned r = Some (Wrapf err "expression does not support type")
             /\ ces (transformation r) = ces t.
Proof.
  intros cache spec F objectName properties typ ce err HF Hparams Hprops Hok Hin Hc.
  unfold NewFilterTransformation. rewrite HF, Hparams, Hprops.
  unfold kind_types in *.
  match goal with |- context [compile_kinds _ _ ?v _ ?ty ?c0] =>
    destruct (compile_kinds_spec F v ValueDataTypes ty c0 Hok) as (ces & Hrun & _ & Hall)
  end.
  rewrite Hrun. eexists. split; [reflexivity|]. simpl.
  assert (Hstored : ces !! typ = Some (mkExprOrErr (Some err) ce)).
  { rewrite (Hall typ Hin), Hc. now rewrite stored_error. }
  split; [exact Hstored|].
  intros t' b valueCol Hces Hidx Hcol Htyp. simpl in Hces.
  destruct (Process_stored_error t' b valueCol err ce Hidx Hcol) as (r & Hr & Hret & _).
  { rewrite Hces, Htyp. exact Hstored. }
  exists r. split; [exact Hr|]. split; [exact Hret|].
  rewrite (Process_ces _ _ _ Hr). exact Hces.
Qed.

(** ** Rows *)

(** A row has a cell per column, of the type of the column. *)
Definition row_typed (cols : list ColMeta) (row : list cell) : Prop :=
  length row = length cols
  /\ forall j c v, cols !! j = Some c -> row !! j = Some v ->
       IsCommon c = false -> cell_type v = Type_ c.

Definition block_typed (b : Block) : Prop :=
  forall rr row, rr ∈ frames b -> row ∈ rr -> row_typed (Cols b) row.

(** The columns that the scope reads exist. *)
Definition scope_in_range (properties : list ObjectProperty)
    (scopeCols : gmap string Z) (n : nat) : Prop :=
  forall op, op ∈ properties ->
    (0 <= default 0 (scopeCols !! Property op) < Z.of_nat n)%Z.

(** The row went to the builder in full: its cell at the end of every
    column that is not common, the common columns as they were. *)
Definition row_kept (cols : list ColMeta) (row : list cell)
    (data data' : list (list cell)) : Prop :=
  length data' = length data
  /\ forall j c col v, cols !! j = Some c -> data !! j = Some col ->
       row !! j = Some v ->
       data' !! j = Some (if IsCommon c then col else col ++ [v]).

Lemma append_row_spec (i : nat) (rr : RowReader) (row : list cell) :
  rr !! i = Some row ->
  forall (cols : list ColMeta) (j0 : nat) (builder : BlockBuilder),
    (forall k c, cols !! k = Some c -> IsCommon c = false ->
       exists v, row !! (j0 + k) = Some v /\ cell_type v = Type_ c) ->
    j0 + length cols <= length (builder_data builder) ->
    exists builder',
      append_row i rr j0 cols builder = Done builder'
      /\ builder_cols builder' = builder_cols builder
      /\ length (builder_data builder') = length (builder_data builder)
      /\ (forall k, k < j0 -> builder_data builder' !! k = builder_data builder !! k)
      /\ forall k c col v, cols !! k = Some c ->
           builder_data builder !! (j0 + k) = Some col ->
           row !! (j0 + k) = Some v ->
           builder_data builder' !! (j0 + k) =
             Some (if IsCommon c then col else col ++ [v]).
Proof.
  intros Hrow. induction cols as [|c cols IH]; intros j0 builder Hcells Hlen; simpl.
  - eexists. repeat split; try reflexivity. intros k c col v Hk. inversion Hk.
  - simpl in Hlen.
    assert (Hshift : forall k c', cols !! k = Some c' -> IsCommon c' = false ->
              exists v, row !! (S j0 + k) = Some v /\ cell_type v = Type_ c').
    { intros k c' Hk Hc'. destruct (Hcells (S k) c' Hk Hc') as (v & Hv & Ht).
      exists v. split; [|exact Ht]. rewrite <- Hv. f_equal. lia. }
    destruct (IsCommon c) eqn:Hcommon.
    + destruct (IH (S j0) builder Hshift) as (b' & Hrun & Hcols & Hl & Hlow & Hhigh);
        [lia|].
      exists b'. split; [exact Hrun|]. split; [exact Hcols|]. split; [exact Hl|].
      split; [intros k Hk; apply Hlow; lia|].
      intros [|k] c' col v Hk Hcol Hv; simpl in Hk.
      * injection Hk as <-. rewrite Hcommon, <- Hcol. apply Hlow. lia.
      * replace (j0 + S k) with (S j0 + k) in * by lia. now apply Hhigh.
    + destruct (Hcells 0 c eq_refl Hcommon) as (v0 & Hv0 & Ht0).
      replace (j0 + 0) with j0 in Hv0 by lia.
      assert (HAt : At (Type_ c) rr i j0 = Done v0).
      { unfold At. rewrite Hrow, Hv0. now rewrite bool_decide_eq_true_2. }
      destruct (lookup_lt_is_Some_2 (builder_data builder) j0) as [col0 Hcol0]; [lia|].
      assert (Hstep : append_row i rr j0 (c :: cols) builder =
                append_row i rr (S j0) cols
                  (mkBuilder (builder_cols builder)
                     (<[j0 := col0 ++ [v0]]> (builder_data builder)))).
      { simpl. rewrite Hcommon.
        destruct (Type_ c) eqn:Htc; rewrite ?HAt; unfold Append; rewrite ?Hcol0;
          try reflexivity.
        destruct v0; discriminate. }
      simpl in Hstep. rewrite Hcommon in Hstep. rewrite Hstep. clear Hstep.
      destruct (IH (S j0)
                  (mkBuilder (builder_cols builder)
                     (<[j0 := col0 ++ [v0]]> (builder_data builder))) Hshift)
        as (b' & Hrun & Hcols & Hl & Hlow & Hhigh).
      { simpl. rewrite length_insert. lia. }
      simpl in *. rewrite length_insert in Hl.
      exists b'. split; [exact Hrun|]. split; [exact Hcols|]. split; [exact Hl|].
      split.
      * intros k Hk. rewrite Hlow by lia. apply list_lookup_insert_ne. lia.
      * intros [|k] c' col v Hk Hcol Hv; simpl in Hk.
        -- injection Hk as <-. replace (j0 + 0) with j0 in * by lia.
           rewrite Hcommon, Hlow by lia.
           rewrite list_lookup_insert_eq by lia. congruence.
        -- replace (j0 + S k) with (S j0 + k) in * by lia.
           apply Hhigh; auto. rewrite list_lookup_insert_ne by lia. exact Hcol.
Qed.

Lemma fill_scope_ok (i : nat) (rr : RowReader) (row : list cell)
    (scopeCols : gmap string Z) :
  rr !! i = Some row ->
  forall (props : list ObjectProperty) (scope : Scope),
    scope_in_range props scopeCols (length row) ->
    exists scope', fill_scope props scopeCols i rr scope = Done scope'.
Proof.
  intros Hrow props. induction props as [|op ops IH]; intros scope Hrange; simpl.
  - eauto.
  - pose proof (Hrange op (list_elem_of_here _ _)) as Hop.
    unfold ValueForRow.
    replace (default 0%Z (scopeCols !! Property op) <? 0)%Z with false
      by (symmetry; apply Z.ltb_ge; lia).
    rewrite Hrow.
    destruct (lookup_lt_is_Some_2 row
                (Z.to_nat (default 0%Z (scopeCols !! Property op)))) as [v Hv]; [lia|].
    rewrite Hv. apply IH. intros op' Hin. apply Hrange. now right.
Qed.

Definition log_line (err : option error) : list error :=
  match err with
  | Some e => [Wrapf e "failed to evaluate expression"]
  | None => []
  end.

Lemma process_row_spec (properties : list ObjectProperty) (scopeCols : gmap string Z)
    (c : CompiledExpression) (cols : list ColMeta) (rr : RowReader)
    (st : rows_state) (i : nat) (row : list cell) :
  rr !! i = Some row ->
  row_typed cols row ->
  scope_in_range properties scopeCols (length cols) ->
  length (builder_data (rs_builder st)) = length cols ->
  exists scope' st',
    fill_scope properties scopeCols i rr (rs_scope st) = Done scope'
    /\ process_row properties scopeCols (Some c) cols rr st i = Done st'
    /\ rs_scope st' = scope'
    /\ length (builder_data (rs_builder st')) = length cols
    /\ ((EvalBool c scope').1 = false ->
          rs_builder st' = rs_builder st
          /\ rs_log st' = rs_log st ++ log_line (EvalBool c scope').2)
    /\ ((EvalBool c scope').1 = true ->
          rs_log st' = rs_log st
          /\ builder_cols (rs_builder st') = builder_cols (rs_builder st)
          /\ row_kept cols row (builder_data (rs_builder st))
               (builder_data (rs_builder st'))).
Proof.
  intros Hrow [Hlen Htyped] Hrange Hbuilder.
  destruct (fill_scope_ok i rr row scopeCols Hrow properties (rs_scope st))
    as [scope' Hfill]; [now rewrite Hlen|].
  unfold process_row. rewrite Hfill. exists scope'.
  destruct (EvalBool c scope') as [pass err] eqn:Heval. simpl.
  destruct pass; simpl.
  - destruct (append_row_spec i rr row Hrow cols 0 (rs_builder st))
      as (b' & Hrun & Hcols & Hl & _ & Hhigh).
    { intros k col Hk Hcommon.
      destruct (lookup_lt_is_Some_2 row k) as [v Hv].
      { rewrite Hlen. eapply lookup_lt_Some, Hk. }
      exists v. split; [exact Hv|]. eapply Htyped; eauto. }
    { simpl. lia. }
    rewrite Hrun. eexists. split; [reflexivity|]. split; [reflexivity|].
    simpl. split; [reflexivity|]. split; [congruence|].
    split; [discriminate|]. intros _. split; [reflexivity|]. split; [exact Hcols|].
    split; [exact Hl|]. intros j col0 col v Hj Hcol Hv. now apply (Hhigh j col0 col v).
  - destruct err as [e|]; eexists; (split; [reflexivity|]); (split; [reflexivity|]);
      simpl; (split; [reflexivity|]); (split; [exact Hbuilder|]);
      (split; [intros _; split; [reflexivity|]; now rewrite ?app_nil_r|discriminate]).
Qed.

Lemma process_rows_ok (properties : list ObjectProperty) (scopeCols : gmap string Z)
    (c : CompiledExpression) (cols : list ColMeta) (rr : RowReader) :
  (forall row, row ∈ rr -> row_typed cols row) ->
  scope_in_range properties scopeCols (length cols) ->
  forall (idx : list nat) (st : rows_state),
    (forall i, i ∈ idx -> i < length rr) ->
    length (builder_data (rs_builder st)) = length cols ->
    exists st',
      process_rows properties scopeCols (Some c) cols rr idx st = Done st'
      /\ length (builder_data (rs_builder st')) = length cols.
Proof.
  intros Htyped Hrange. induction idx as [|i idx IH]; intros st Hidx Hb; simpl.
  - eauto.
  - destruct (lookup_lt_is_Some_2 rr i) as [row Hrow].
    { apply Hidx. now left. }
    destruct (process_row_spec properties scopeCols c cols rr st i row Hrow)
      as (scope' & st1 & _ & Hrun & _ & Hb1 & _); auto.
    { apply Htyped. eapply list_elem_of_lookup_2, Hrow. }
    rewrite Hrun. apply IH; [|exact Hb1]. intros j Hj. apply Hidx. now right.
Qed.

Lemma DoTime_ok (props : list ObjectProperty) (scopeCols : gmap string Z)
    (c : CompiledExpression) (cols : list ColMeta) :
  scope_in_range props scopeCols (length cols) ->
  forall (frs : list RowReader) (st : rows_state),
    (forall rr row, rr ∈ frs -> row ∈ rr -> row_typed cols row) ->
    length (builder_data (rs_builder st)) = length cols ->
    exists st', DoTime props scopeCols (Some c) cols frs st = Done st'.
Proof.
  intros Hrange frs. induction frs as [|rr frs IH]; intros st Htyped Hb; simpl.
  - eauto.
  - destruct (process_rows_ok props scopeCols c cols rr) with
      (idx := seq 0 (length rr)) (st := st) as (st1 & Hrun & Hb1); auto.
    { intros row Hrow. apply (Htyped rr); [now left|exact Hrow]. }
    { intros i Hi. apply elem_of_seq in Hi. lia. }
    rewrite Hrun. apply IH; [|exact Hb1].
    intros rr' row Hrr Hrow. apply (Htyped rr'); [now right|exact Hrow].
Qed.

(** C8.  A block whose value kind compiled to [c], with typed rows:
    Process returns nil whatever the rows evaluate to.  For each row,
    with the scope filled from it: if EvalBool returns false or an
    error the builder is left as it is, and an error is logged; if it
    returns true every column that is not common receives the cell of
    the row.  An error of EvalBool comes with the value false. *)
Theorem filter_keeps_exactly_passing_rows :
  forall (t : filterTransformation) (b : Block) (valueCol : ColMeta)
         (c : CompiledExpression),
    (0 <= ValueIdx (Cols b))%Z ->
    Cols b !! Z.to_nat (ValueIdx (Cols b)) = Some valueCol ->
    ces t !! Type_ valueCol = Some (mkExprOrErr None (Some c)) ->
    (forall scope e, (EvalBool c scope).2 = Some e -> (EvalBool c scope).1 = false) ->
    block_typed b ->
    scope_in_range (properties t)
      (prepare_scope (properties t) (ValueIdx (Cols b)) 0 (Cols b) (scopeCols t))
      (length (Cols b)) ->
    (forall builder, cache t !! Key b = Some builder ->
       length (builder_data builder) = length (Cols b)) ->
    (exists r, Process ValueIdx t b = Done r /\ returned r = None)
    /\ forall (rr : RowReader) (i : nat) (row : list cell) (st : rows_state),
         rr ∈ frames b ->
         rr !! i = Some row ->
         length (builder_data (rs_builder st)) = length (Cols b) ->
         let scopeCols :=
           prepare_scope (properties t) (ValueIdx (Cols b)) 0 (Cols b) (scopeCols t) in
         exists scope' st',
           fill_scope (properties t) scopeCols i rr (rs_scope st) = Done scope'
           /\ process_row (properties t) scopeCols (Some c) (Cols b) rr st i = Done st'
           /\ ((EvalBool c scope').1 = false \/ is_Some (EvalBool c scope').2 ->
                 rs_builder st' = rs_builder st)
           /\ (forall e, (EvalBool c scope').2 = Some e ->
                 rs_log st' = rs_log st ++ [Wrapf e "failed to evaluate expression"])
           /\ ((EvalBool c scope').2 = None -> rs_log st' = rs_log st)
           /\ ((EvalBool c scope').1 = true ->
                 row_kept (Cols b) row (builder_data (rs_builder st))
                   (builder_data (rs_builder st'))).
Proof.
  intros t b valueCol c Hidx Hcol Hces Hcontract Htyped Hrange Hcache. split.
  - unfold Process.
    replace (ValueIdx (Cols b) <? 0)%Z with false by (symmetry; apply Z.ltb_ge; lia).
    destruct (cache t !! Key b) as [builder|] eqn:Hb; rewrite Hcol, Hces; simpl.
    + match goal with |- context [DoTime ?p ?sc _ ?cols ?fr ?st] =>
        destruct (DoTime_ok p sc c cols Hrange fr st) as [st' Hrun]
      end; [exact Htyped|now apply Hcache|].
      rewrite Hrun. eexists. split; reflexivity.
    + match goal with |- context [DoTime ?p ?sc _ ?cols ?fr ?st] =>
        destruct (DoTime_ok p sc c cols Hrange fr st) as [st' Hrun]
      end; [exact Htyped|apply length_replicate|].
      rewrite Hrun. eexists. split; reflexivity.
  - intros rr i row st Hrr Hrow Hb scopeCols.
    destruct (process_row_spec (properties t) scopeCols c (Cols b) rr st i row Hrow)
      as (scope' & st' & Hfill & Hrun & _ & _ & Hfalse & Htrue); auto.
    { apply (Htyped rr); [exact Hrr|]. eapply list_elem_of_lookup_2, Hrow. }
    exists scope', st'. split; [exact Hfill|]. split; [exact Hrun|].
    assert (Herr : forall e, (EvalBool c scope').2 = Some e -> (EvalBool c scope').1 = false)
      by (intros e; apply Hcontract).
    split; [|split; [|split]].
    + intros [Hf|[e He]]; [now apply Hfalse|]. apply Hfalse. now apply (Herr e).
    + intros e He. destruct (Hfalse (Herr e He)) as [_ Hlog]. now rewrite Hlog, He.
    + intros Hnone. destruct ((EvalBool c scope').1) eqn:Hpass.
      * now apply Htrue.
      * destruct (Hfalse eq_refl) as [_ Hlog]. rewrite Hlog, Hnone. apply app_nil_r.
    + intros Hpass. now apply Htrue.
Qed.

End Facts.

(** ** The filter [(r) => r._value > 5] *)

Definition r_value : ObjectProperty := mkObjectProperty "r" "_value".

Definition value_gt_5 : ast.ArrowFunction :=
  ast.mkArrow ["r"]
    (ast.BinaryExpression ast.GreaterThanOperator
       (ast.MemberExpression (ast.Identifier "r") (ast.Identifier "_value"))
       (ast.IntegerLiteral 5)).

Definition float_5 : float64 := S754_finite false 5 0.

(** The compiled comparison for a float value. *)
Definition gt_5_float : CompiledExpression :=
  mkCompiled TBool (fun scope =>
    match scope !! r_value with
    | Some (CFloat f) => (SFltb float_5 f, None)
    | _ => (false, Some (Errorf "missing value"))
    end).

Definition no_string_order : error := Errorf "unsupported binary expression string > int".

(** A compiler that knows this one function: it compiles for the
    numeric kinds and refuses strings and booleans. *)
Definition compile_gt_5 (F : ast.ArrowFunction) (types : gmap ObjectProperty DataType)
    : option CompiledExpression * option error :=
  match types !! r_value with
  | Some TFloat | Some TInt | Some TUInt => (Some gt_5_float, None)
  | _ => (None, Some no_string_order)
  end.

Definition properties_gt_5 (F : ast.ArrowFunction) : error + list ObjectProperty :=
  inr [r_value].

Definition value_kinds : list DataType := [TBool; TInt; TUInt; TFloat; TString].

Definition second_column (cols : list ColMeta) : Z := 1%Z.

Definition string_block : Block :=
  mkBlock (0, 10, [])%Z [TimeCol; mkColMeta "value" TString false false]
    [[[CTime 1%Z; CString "a"]]].

Lemma compile_error_is_deferred_to_Process_witness :
  exists t : filterTransformation,
    NewFilterTransformation properties_gt_5 compile_gt_5 value_kinds ∅
      (Plan.mkFilter (Some value_gt_5)) = Done (inr t)
    /\ ces t !! TString = Some (mkExprOrErr (Some no_string_order) None)
    /\ exists r,
         Process second_column t string_block = Done r
         /\ returned r = Some (Wrapf no_string_order "expression does not support type").
Proof.
  destruct (compile_error_is_deferred_to_Process properties_gt_5 compile_gt_5
              value_kinds second_column ∅ (Plan.mkFilter (Some value_gt_5))
              value_gt_5 "r" [r_value] TString None no_string_order)
    as (t & Hnew & Hces & Hprocess).
  - reflexivity.
  - reflexivity.
  - reflexivity.
  - intros typ' _. unfold compiles_or_fails. destruct typ'; vm_compute; eauto; discriminate.
  - unfold value_kinds. repeat constructor.
  - reflexivity.
  - exists t. split; [exact Hnew|]. split; [exact Hces|].
    destruct (Hprocess t string_block (mkColMeta "value" TString false false) eq_refl)
      as (r & Hr & Hret & _).
    + unfold second_column. lia.
    + reflexivity.
    + reflexivity.
    + exists r. split; assumption.
Defined.

Definition float_block : Block :=
  mkBlock (0, 10, [])%Z
    [TimeCol; ValueCol; mkColMeta "t1" TString true true]
    [[[CTime 1%Z; CFloat (S754_finite false 1 0); CString "a"];
      [CTime 2%Z; CFloat (S754_finite false 6 0); CString "a"]]].

Definition float_filter : filterTransformation :=
  mkFilterTransformation ∅ [r_value] ∅ ∅ {[ TFloat := mkExprOrErr None (Some gt_5_float) ]}.

Lemma filter_keeps_exactly_passing_rows_witness :
  exists r, Process second_column float_filter float_block = Done r /\ returned r = None.
Proof.
  refine (proj1 (filter_keeps_exactly_passing_rows second_column float_filter
                   float_block ValueCol gt_5_float _ _ _ _ _ _ _)).
  - unfold second_column. lia.
  - reflexivity.
  - reflexivity.
  - intros scope e. simpl. destruct (scope !! r_value) as [[]|]; simpl; congruence.
  - intros rr row Hrr Hrow. simpl in Hrr.
    apply list_elem_of_singleton in Hrr. subst rr.
    apply elem_of_cons in Hrow as [->|Hrow];
      [|apply list_elem_of_singleton in Hrow; subst row];
      (split; [reflexivity|]);
      intros [|[|[|j]]] c v Hc Hv Hcommon; simpl in Hc, Hv; try discriminate;
      injection Hc as <-; injection Hv as <-; try reflexivity; discriminate.
  - intros op Hop. apply list_elem_of_singleton in Hop. subst op. vm_compute.
    split; [discriminate|reflexivity].
  - intros builder Hb. unfold float_filter in Hb. simpl in Hb.
    rewrite lookup_empty in Hb. discriminate.
Defined.

End FilterFacts.

(** * Properties of the evaluator: call chains *)
Module EvalChainFacts.
Import ast Eval.
Local Open Scope nat_scope.

(** ** Slices of operation pointers *)

(** The pointer [n] sits in some array. *)
Definition held (arrays : list (list (option nat))) (n : nat) : Prop :=
  exists a arr i, arrays !! a = Some arr /\ arr !! i = Some (Some n).

(** No pointer sits in two cells of one array. *)
Definition array_nodup (arr : list (option nat)) : Prop :=
  forall i j n, arr !! i = Some (Some n) -> arr !! j = Some (Some n) -> i = j.

(** A slice lies within its array and shows no nil pointer. *)
Definition wf_slice (arrays : list (list (option nat))) (s : slice) : Prop :=
  len s <= cap s
  /\ (0 < cap s ->
      exists arr, arrays !! base s = Some arr /\ length arr = cap s
                  /\ forall i, i < len s -> exists n, arr !! i = Some (Some n)).

(** What a step may do to the arrays that exist: keep a cell or put
    the pointer [n] there. *)
Definition arrays_step (n : nat) (arrays arrays' : list (list (option nat))) : Prop :=
  forall a arr, arrays !! a = Some arr ->
    exists arr', arrays' !! a = Some arr' /\ length arr' = length arr
                 /\ forall i m, arr' !! i = Some (Some m) ->
                      arr !! i = Some (Some m) \/ m = n.

Implicit Types (arrays : list (list (option nat))) (s : slice).

Lemma elems_length arrays s :
  wf_slice arrays s -> length (elems arrays s) = len s.
Proof.
  intros [Hle Hwf]. unfold elems. destruct (decide (0 < cap s)) as [Hc|Hc].
  - destruct (Hwf Hc) as (arr & -> & Hlen & _). simpl. rewrite length_take. lia.
  - rewrite length_take. lia.
Qed.

Lemma elems_lookup arrays s i o :
  elems arrays s !! i = Some o ->
  i < len s /\ exists arr, arrays !! base s = Some arr /\ arr !! i = Some o.
Proof.
  unfold elems. intros H. apply lookup_take_Some in H as [H Hi].
  split; [exact Hi|]. destruct (arrays !! base s) as [arr|]; simpl in H.
  - eauto.
  - rewrite lookup_nil in H. discriminate.
Qed.

Lemma elems_held arrays s n : Some n ∈ elems arrays s -> held arrays n.
Proof.
  intros H. apply list_elem_of_lookup in H as [i H].
  apply elems_lookup in H as (_ & arr & Ha & Hi). now exists (base s), arr, i.
Qed.

Lemma elems_NoDup arrays s :
  wf_slice arrays s ->
  (forall a arr, arrays !! a = Some arr -> array_nodup arr) ->
  NoDup (elems arrays s).
Proof.
  intros [Hle Hwf] Hnodup. apply NoDup_alt. intros i j o Hi Hj.
  apply elems_lookup in Hi as (Hi & arr & Ha & Hio).
  apply elems_lookup in Hj as (Hj & arr' & Ha' & Hjo).
  assert (arr' = arr) by congruence. subst arr'.
  destruct (Hwf ltac:(lia)) as (arr0 & Ha0 & _ & Hsome).
  assert (arr0 = arr) by congruence. subst arr0.
  destruct (Hsome i Hi) as [n Hn]. assert (o = Some n) by congruence. subst o.
  eapply Hnodup; eauto.
Qed.

Lemma elems_Some arrays s o :
  wf_slice arrays s -> o ∈ elems arrays s -> exists n, o = Some n.
Proof.
  intros [Hle Hwf] H. apply list_elem_of_lookup in H as [i H].
  apply elems_lookup in H as (Hi & arr & Ha & Hio).
  destruct (Hwf ltac:(lia)) as (arr0 & Ha0 & _ & Hsome).
  assert (arr0 = arr) by congruence. subst arr0.
  destruct (Hsome i Hi) as [n Hn]. exists n. congruence.
Qed.

Section Append.
Variable growslice : nat -> nat -> nat.
Hypothesis growslice_fits : forall old needed, needed <= growslice old needed.

Lemma append1_spec arrays s n arrays' s' :
  append1 None growslice arrays s (Some n) = (arrays', s') ->
  wf_slice arrays s ->
  (forall a arr, arrays !! a = Some arr -> array_nodup arr) ->
  ~ held arrays n ->
  wf_slice arrays' s'
  /\ (forall a arr, arrays' !! a = Some arr -> array_nodup arr)
  /\ elems arrays' s' = elems arrays s ++ [Some n]
  /\ arrays_step n arrays arrays'
  /\ (forall m, held arrays' m -> held arrays m \/ m = n)
  /\ (forall s2, wf_slice arrays s2 -> wf_slice arrays' s2).
Proof.
  unfold append1. intros Happ [Hle Hwf] Hnodup Hfresh.
  destruct (len s <? cap s) eqn:Hlt.
  - apply Nat.ltb_lt in Hlt. injection Happ as <- <-.
    destruct (Hwf ltac:(lia)) as (arr & Harr & Hlen & Hsome).
    assert (Hnew : alter (fun arr => <[len s := Some n]> arr) (base s) arrays !! base s
                   = Some (<[len s := Some n]> arr)).
    { rewrite list_lookup_alter_eq, Harr. reflexivity. }
    assert (Hstep : arrays_step n arrays
              (alter (fun arr => <[len s := Some n]> arr) (base s) arrays)).
    { intros a arr0 Ha. destruct (decide (a = base s)) as [->|Hne].
      - assert (arr0 = arr) by congruence. subst arr0.
        exists (<[len s := Some n]> arr). split; [exact Hnew|].
        split; [apply length_insert|]. intros i m Hi.
        destruct (decide (i = len s)) as [->|Hi'].
        + rewrite list_lookup_insert_eq in Hi by lia. right. congruence.
        + rewrite list_lookup_insert_ne in Hi by auto. now left.
      - exists arr0. rewrite list_lookup_alter_ne by auto. split; [exact Ha|].
        split; [reflexivity|]. auto. }
    split; [|split; [|split; [|split; [exact Hstep|split]]]].
    + split; simpl; [lia|]. intros _. exists (<[len s := Some n]> arr).
      split; [exact Hnew|]. split; [now rewrite length_insert|].
      intros i Hi. destruct (decide (i = len s)) as [->|Hi'].
      * exists n. apply list_lookup_insert_eq. lia.
      * rewrite list_lookup_insert_ne by auto. apply Hsome. lia.
    + intros a arr0 Ha. destruct (decide (a = base s)) as [->|Hne].
      * assert (arr0 = <[len s := Some n]> arr) by congruence. subst arr0.
        intros i j m Hi Hj.
        destruct (decide (i = len s)) as [->|Hi']; destruct (decide (j = len s)) as [->|Hj'];
          auto.
        -- rewrite list_lookup_insert_eq in Hi by lia.
           rewrite list_lookup_insert_ne in Hj by auto.
           exfalso. apply Hfresh. exists (base s), arr, j. split; [exact Harr|]. congruence.
        -- rewrite list_lookup_insert_eq in Hj by lia.
           rewrite list_lookup_insert_ne in Hi by auto.
           exfalso. apply Hfresh. exists (base s), arr, i. split; [exact Harr|]. congruence.
        -- rewrite list_lookup_insert_ne in Hi, Hj by auto. eapply Hnodup; eauto.
      * rewrite list_lookup_alter_ne in Ha by auto. eapply Hnodup; eauto.
    + unfold elems. simpl. rewrite Hnew, Harr. simpl.
      replace (len s + 1) with (S (len s)) by lia.
      rewrite (take_S_r _ _ (Some n)) by (apply list_lookup_insert_eq; lia).
      now rewrite take_insert_ge by lia.
    + intros m (a & arr0 & i & Ha & Hi).
      destruct (decide (a = base s)) as [->|Hne].
      * assert (arr0 = <[len s := Some n]> arr) by congruence. subst arr0.
        destruct (decide (i = len s)) as [->|Hi'].
        -- rewrite list_lookup_insert_eq in Hi by lia. right. congruence.
        -- rewrite list_lookup_insert_ne in Hi by auto. left.
           now exists (base s), arr, i.
      * rewrite list_lookup_alter_ne in Ha by auto. left. now exists a, arr0, i.
    + intros s2 [Hle2 Hwf2]. split; [exact Hle2|]. intros Hc2.
      destruct (Hwf2 Hc2) as (arr2 & Ha2 & Hlen2 & Hsome2).
      destruct (Hstep _ _ Ha2) as (arr2' & Ha2' & Hlen2' & Hcells).
      exists arr2'. split; [exact Ha2'|]. split; [congruence|].
      intros i Hi. destruct (Hsome2 i Hi) as [m Hm].
      destruct (decide (base s2 = base s)) as [Heq|Hne].
      * rewrite Heq in *. assert (arr2 = arr) by congruence. subst arr2.
        assert (arr2' = <[len s := Some n]> arr) by congruence. subst arr2'.
        destruct (decide (i = len s)) as [->|Hi'].
        -- exists n. apply list_lookup_insert_eq. lia.
        -- exists m. now rewrite list_lookup_insert_ne by auto.
      * rewrite list_lookup_alter_ne in Ha2' by auto.
        assert (arr2' = arr2) by congruence. subst arr2'. eauto.
  - apply Nat.ltb_ge in Hlt. injection Happ as <- <-.
    assert (Hel : length (elems arrays s) = len s) by (apply elems_length; split; auto).
    set (newarr := elems arrays s ++ [Some n] ++
                   replicate (growslice (cap s) (len s + 1) - (len s + 1)) None).
    assert (Hnew : (arrays ++ [newarr]) !! length arrays = Some newarr).
    { apply list_lookup_middle. reflexivity. }
    assert (Hold : forall a arr, arrays !! a = Some arr -> (arrays ++ [newarr]) !! a = Some arr).
    { intros a arr Ha. now apply lookup_app_l_Some. }
    assert (Hcases : forall a arr, (arrays ++ [newarr]) !! a = Some arr ->
              arrays !! a = Some arr \/ (a = length arrays /\ arr = newarr)).
    { intros a arr Ha. apply lookup_app_Some in Ha as [Ha|[Hge Ha]]; [now left|].
      right. destruct (a - length arrays) as [|k] eqn:Hk; simpl in Ha; [|discriminate].
      split; [lia|congruence]. }
    assert (Hnewcell : forall i m, newarr !! i = Some (Some m) ->
              (i < len s /\ elems arrays s !! i = Some (Some m)) \/ (i = len s /\ m = n)).
    { intros i m Hi. unfold newarr in Hi.
      apply lookup_app_Some in Hi as [Hi|[Hge Hi]].
      - left. split; [|exact Hi]. apply lookup_lt_Some in Hi. lia.
      - rewrite Hel in *. destruct (i - len s) as [|k] eqn:Hk; simpl in Hi.
        + right. split; [lia|congruence].
        + apply lookup_replicate in Hi as [? _]. discriminate. }
    split; [|split; [|split; [|split; [|split]]]].
    + split; simpl; [apply growslice_fits|]. intros _. exists newarr.
      split; [exact Hnew|]. split.
      * unfold newarr. rewrite !length_app, length_replicate, Hel. simpl.
        pose proof (growslice_fits (cap s) (len s + 1)). lia.
      * intros i Hi. unfold newarr. destruct (decide (i < len s)) as [Hi'|Hi'].
        -- rewrite lookup_app_l by lia.
           destruct (lookup_lt_is_Some_2 (elems arrays s) i) as [o Ho]; [lia|].
           destruct (elems_Some arrays s o) as [m ->]; [split; auto| |eauto].
           eapply list_elem_of_lookup_2, Ho.
        -- exists n. rewrite lookup_app_r by lia.
           replace (i - length (elems arrays s)) with 0 by lia. reflexivity.
    + intros a arr Ha. destruct (Hcases a arr Ha) as [Ha'|[-> ->]]; [eauto|].
      intros i j m Hi Hj.
      destruct (Hnewcell i m Hi) as [[Hi1 Hi2]|[Hi1 Hi2]];
        destruct (Hnewcell j m Hj) as [[Hj1 Hj2]|[Hj1 Hj2]]; try lia.
      * pose proof (elems_NoDup arrays s (conj Hle Hwf) Hnodup) as Hnd.
        eapply NoDup_alt in Hnd; eauto.
      * exfalso. apply Hfresh. subst m. eapply elems_held, list_elem_of_lookup_2, Hi2.
      * exfalso. apply Hfresh. subst m. eapply elems_held, list_elem_of_lookup_2, Hj2.
    + unfold elems at 1. cbn [base len].
      rewrite list_lookup_middle by reflexivity. cbn [default].
      rewrite cons_middle, app_assoc. apply take_app_length'.
      rewrite length_app, Hel. reflexivity.
    + intros a arr Ha. exists arr. split; [now apply Hold|]. split; [reflexivity|auto].
    + intros m (a & arr & i & Ha & Hi). destruct (Hcases a arr Ha) as [Ha'|[-> ->]].
      * left. now exists a, arr, i.
      * destruct (Hnewcell i m Hi) as [[Hi1 Hi2]|[-> ->]]; [|now right].
        left. eapply elems_held, list_elem_of_lookup_2, Hi2.
    + intros s2 [Hle2 Hwf2]. split; [exact Hle2|]. intros Hc2.
      destruct (Hwf2 Hc2) as (arr2 & Ha2 & Hrest). exists arr2. split; [auto|exact Hrest].
Qed.

Lemma literal1_spec (arrays : list (list (option nat))) n arrays' s' :
  literal1 arrays (Some n) = (arrays', s') ->
  (forall a arr, arrays !! a = Some arr -> array_nodup arr) ->
  wf_slice arrays' s'
  /\ (forall a arr, arrays' !! a = Some arr -> array_nodup arr)
  /\ elems arrays' s' = [Some n]
  /\ arrays_step n arrays arrays'
  /\ (forall m, held arrays' m -> held arrays m \/ m = n)
  /\ (forall s2, wf_slice arrays s2 -> wf_slice arrays' s2).
Proof.
  unfold literal1. intros [= <- <-] Hnodup.
  assert (Hnew : (arrays ++ [[Some n]]) !! length arrays = Some [Some n]).
  { apply list_lookup_middle. reflexivity. }
  assert (Hcases : forall a arr, (arrays ++ [[Some n]]) !! a = Some arr ->
            arrays !! a = Some arr \/ (a = length arrays /\ arr = [Some n])).
  { intros a arr Ha. apply lookup_app_Some in Ha as [Ha|[Hge Ha]]; [now left|].
    right. destruct (a - length arrays) as [|k] eqn:Hk; simpl in Ha; [|discriminate].
    split; [lia|congruence]. }
  split; [|split; [|split; [|split; [|split]]]].
  - split; simpl; [lia|]. intros _. exists [Some n]. split; [exact Hnew|].
    split; [reflexivity|]. intros [|i] Hi; [eauto|lia].
  - intros a arr Ha. destruct (Hcases a arr Ha) as [Ha'|[-> ->]]; [eauto|].
    intros [|i] [|j] m Hi Hj; simpl in *; auto; discriminate.
  - unfold elems. simpl. now rewrite Hnew.
  - intros a arr Ha. exists arr. split; [now apply lookup_app_l_Some|].
    split; [reflexivity|auto].
  - intros m (a & arr & i & Ha & Hi). destruct (Hcases a arr Ha) as [Ha'|[-> ->]].
    + left. now exists a, arr, i.
    + right. destruct i as [|i]; simpl in Hi; [congruence|discriminate].
  - intros s2 [Hle2 Hwf2]. split; [exact Hle2|]. intros Hc2.
    destruct (Hwf2 Hc2) as (arr2 & Ha2 & Hrest). exists arr2.
    split; [now apply lookup_app_l_Some|exact Hrest].
Qed.

End Append.

(** ** The invariant of the evaluator state *)

Record Inv (ev : evaluator) : Prop := mkInv {
  inv_held : forall n, held (opArrays ev) n -> n < length (ops ev);
  inv_nodup : forall a arr, opArrays ev !! a = Some arr -> array_nodup arr;
  inv_wf : forall p c, chains ev !! p = Some c -> wf_slice (opArrays ev) (Operations c);
  inv_scope : forall name v p,
    scope ev !! name = Some v -> Value_of v = dChain p ->
    Type_of v = TChain
    /\ exists c, chains ev !! p = Some c
                 /\ len (Operations c) = 0 /\ len (Edges c) = 0;
  inv_ops_nodup : NoDup (operations ev);
  inv_ops : forall o, o ∈ operations ev -> exists n, o = Some n /\ n < length (ops ev)
}.

(** What the evaluation of an expression leaves in place.  [N] bounds
    the pointers that may be written from below, [K] the chains that
    may be touched. *)
Record Frame (N K : nat) (ev ev' : evaluator) : Prop := mkFrame {
  fr_operations : operations ev' = operations ev;
  fr_edges : edges ev' = edges ev;
  fr_scope : scope ev' = scope ev;
  fr_ops : length (ops ev) <= length (ops ev');
  fr_chains_len : length (chains ev) <= length (chains ev');
  fr_chains : forall p, p < K -> chains ev' !! p = chains ev !! p;
  fr_arrays : forall a arr, opArrays ev !! a = Some arr ->
    exists arr', opArrays ev' !! a = Some arr' /\ length arr' = length arr
                 /\ forall i n, arr' !! i = Some (Some n) ->
                      arr !! i = Some (Some n) \/ N <= n;
  fr_held : forall n, held (opArrays ev') n -> held (opArrays ev) n \/ N <= n
}.

Lemma Frame_refl N K ev : Frame N K ev ev.
Proof.
  constructor; auto. intros a arr Ha. exists arr. auto.
Qed.

Lemma Frame_trans N K ev1 ev2 ev3 :
  Frame N K ev1 ev2 -> Frame N K ev2 ev3 -> Frame N K ev1 ev3.
Proof.
  intros [] []. constructor; try congruence; try lia.
  - intros p Hp. rewrite fr_chains1, fr_chains0; auto.
  - intros a arr Ha. destruct (fr_arrays0 a arr Ha) as (arr2 & Ha2 & Hl2 & Hc2).
    destruct (fr_arrays1 a arr2 Ha2) as (arr3 & Ha3 & Hl3 & Hc3).
    exists arr3. split; [exact Ha3|]. split; [congruence|].
    intros i n Hi. destruct (Hc3 i n Hi) as [Hi2|]; auto.
  - intros n Hn. destruct (fr_held1 n Hn) as [Hn2|]; auto.
Qed.

Lemma Frame_weaken N K N' K' ev ev' :
  Frame N' K' ev ev' -> N <= N' -> K <= K' -> Frame N K ev ev'.
Proof.
  intros [] HN HK. constructor; auto.
  - intros p Hp. apply fr_chains0. lia.
  - intros a arr Ha. destruct (fr_arrays0 a arr Ha) as (arr' & Ha' & Hl & Hc).
    exists arr'. split; [exact Ha'|]. split; [exact Hl|].
    intros i n Hi. destruct (Hc i n Hi); [auto|right; lia].
  - intros n Hn. destruct (fr_held0 n Hn); [auto|right; lia].
Qed.

(** The chain at [p] shows only pointers from [N] on. *)
Definition fresh_chain (N : nat) (ev : evaluator) (p : nat) : Prop :=
  exists c, chains ev !! p = Some c
            /\ forall n, Some n ∈ elems (opArrays ev) (Operations c) -> N <= n.

Lemma fresh_chain_weaken N N' ev p :
  fresh_chain N' ev p -> N <= N' -> fresh_chain N ev p.
Proof.
  intros (c & Hc & Hf) HN. exists c. split; [exact Hc|].
  intros n Hn. specialize (Hf n Hn). lia.
Qed.

Lemma fresh_chain_frame N N' K' ev ev' p :
  Inv ev -> fresh_chain N ev p -> Frame N' K' ev ev' -> N <= N' -> p < K' ->
  fresh_chain N ev' p.
Proof.
  intros HI (c & Hc & Hf) HF HN Hp. exists c.
  split; [rewrite (fr_chains _ _ _ _ HF) by exact Hp; exact Hc|].
  intros n Hn. apply list_elem_of_lookup in Hn as [i Hi].
  apply elems_lookup in Hi as (Hlen & arr' & Ha' & Hi).
  destruct (inv_wf _ HI p c Hc) as [Hle Hwf].
  destruct (Hwf ltac:(lia)) as (arr & Ha & _ & _).
  destruct (fr_arrays _ _ _ _ HF _ _ Ha) as (arr2 & Ha2 & _ & Hcells).
  assert (arr2 = arr') by congruence. subst arr2.
  destruct (Hcells i n Hi) as [Hold|]; [|lia].
  apply Hf. apply list_elem_of_lookup. exists i. unfold elems.
  rewrite Ha. simpl. rewrite lookup_take_lt by exact Hlen. exact Hold.
Qed.

(** The chain [p] is not the value of a variable. *)
Definition unbound (ev : evaluator) (p : nat) : Prop :=
  forall name v, scope ev !! name = Some v -> Value_of v <> dChain p.

Lemma new_chains_unbound ev p :
  Inv ev -> length (chains ev) <= p -> unbound ev p.
Proof.
  intros HI Hp name v Hv Heq.
  destruct (inv_scope _ HI name v p Hv Heq) as (_ & c & Hc & _).
  apply lookup_lt_Some in Hc. lia.
Qed.

(** ** Steps of the monad *)

Lemma bind_inv {A B} (m : M A) (k : A -> M B) ev b ev' :
  bind m k ev = Ok (b, ev') ->
  exists a ev1, m ev = Ok (a, ev1) /\ k a ev1 = Ok (b, ev').
Proof.
  unfold bind. destruct (m ev) as [[a ev1]| | |]; try discriminate. eauto.
Qed.

Lemma load_chain_inv p ev c ev' :
  load_chain p ev = Ok (c, ev') -> ev' = ev /\ chains ev !! p = Some c.
Proof.
  unfold load_chain. destruct (chains ev !! p); [|discriminate].
  intros [= <- <-]. auto.
Qed.

Lemma store_chain_inv p c ev u ev' :
  store_chain p c ev = Ok (u, ev') ->
  ev' = set_chains (<[p := c]> (chains ev)) ev /\ p < length (chains ev).
Proof.
  unfold store_chain. destruct (chains ev !! p) eqn:Hp; [|discriminate].
  intros [= <- <-]. split; [reflexivity|]. eapply lookup_lt_Some, Hp.
Qed.

Lemma Operation_ID_inv op ev i ev' :
  Operation_ID op ev = Ok (i, ev') -> ev' = ev.
Proof.
  unfold Operation_ID. destruct (ops ev !! op); [|discriminate]. now intros [= _ <-].
Qed.

(** Peeling the binds of a run that returned. *)
Ltac run_inv H :=
  repeat match type of H with
  | bind _ _ _ = Ok _ =>
      let a := fresh "a" in let ev := fresh "ev" in
      let H1 := fresh "Hrun" in
      apply bind_inv in H as (a & ev & H1 & H)
  end.

(** ** Steps that touch the edges of one chain only *)

Record edge_step (p : nat) (ev ev' : evaluator) : Prop := mkEdgeStep {
  es_operations : operations ev' = operations ev;
  es_edges : edges ev' = edges ev;
  es_scope : scope ev' = scope ev;
  es_ops : ops ev' = ops ev;
  es_opArrays : opArrays ev' = opArrays ev;
  es_len : length (chains ev') = length (chains ev);
  es_others : forall q, q <> p -> chains ev' !! q = chains ev !! q;
  es_chain : forall c, chains ev !! p = Some c ->
    exists c', chains ev' !! p = Some c' /\ Operations c' = Operations c
}.

Lemma edge_step_refl p ev : edge_step p ev ev.
Proof. constructor; eauto. Qed.

Lemma edge_step_trans p ev1 ev2 ev3 :
  edge_step p ev1 ev2 -> edge_step p ev2 ev3 -> edge_step p ev1 ev3.
Proof.
  intros H1 H2. constructor.
  - rewrite (es_operations _ _ _ H2). apply H1.
  - rewrite (es_edges _ _ _ H2). apply H1.
  - rewrite (es_scope _ _ _ H2). apply H1.
  - rewrite (es_ops _ _ _ H2). apply H1.
  - rewrite (es_opArrays _ _ _ H2). apply H1.
  - rewrite (es_len _ _ _ H2). apply H1.
  - intros q Hq. rewrite (es_others _ _ _ H2), (es_others _ _ _ H1); auto.
  - intros c Hc. destruct (es_chain _ _ _ H1 c Hc) as (c2 & Hc2 & Ho2).
    destruct (es_chain _ _ _ H2 c2 Hc2) as (c3 & Hc3 & Ho3). exists c3. split; congruence.
Qed.

Lemma edge_step_store p c c' ev :
  chains ev !! p = Some c -> Operations c' = Operations c ->
  edge_step p ev (set_chains (<[p := c']> (chains ev)) ev).
Proof.
  intros Hc Ho. constructor; simpl; auto.
  - apply length_insert.
  - intros q Hq. apply list_lookup_insert_ne. auto.
  - intros c0 Hc0. exists c'. split; [|congruence].
    apply list_lookup_insert_eq. eapply lookup_lt_Some, Hc.
Qed.

Lemma edge_step_Inv p ev ev' :
  Inv ev -> edge_step p ev ev' -> unbound ev p -> Inv ev'.
Proof.
  intros HI HS Hun. constructor.
  - rewrite (es_opArrays _ _ _ HS), (es_ops _ _ _ HS). apply HI.
  - rewrite (es_opArrays _ _ _ HS). apply HI.
  - intros q c Hc. rewrite (es_opArrays _ _ _ HS).
    destruct (decide (q = p)) as [->|Hq].
    + destruct (lookup_lt_is_Some_2 (chains ev) p) as [c0 Hc0].
      { rewrite <- (es_len _ _ _ HS). eapply lookup_lt_Some, Hc. }
      destruct (es_chain _ _ _ HS c0 Hc0) as (c' & Hc' & Ho).
      assert (c' = c) by congruence. subst c'. rewrite Ho.
      eapply (inv_wf _ HI), Hc0.
    + rewrite (es_others _ _ _ HS) in Hc by auto. eapply (inv_wf _ HI), Hc.
  - intros name v q Hv Hq. rewrite (es_scope _ _ _ HS) in Hv.
    destruct (inv_scope _ HI name v q Hv Hq) as (Ht & c & Hc & Hl).
    split; [exact Ht|]. exists c. split; [|exact Hl].
    rewrite (es_others _ _ _ HS); [exact Hc|]. intros ->. now apply (Hun name v Hv).
  - rewrite (es_operations _ _ _ HS). apply HI.
  - rewrite (es_operations _ _ _ HS), (es_ops _ _ _ HS). apply HI.
Qed.

Lemma edge_step_Frame N K p ev ev' :
  edge_step p ev ev' -> K <= p -> Frame N K ev ev'.
Proof.
  intros HS HK. constructor; try apply HS.
  - rewrite (es_ops _ _ _ HS). lia.
  - rewrite (es_len _ _ _ HS). lia.
  - intros q Hq. apply (es_others _ _ _ HS). lia.
  - intros a arr Ha. exists arr. rewrite (es_opArrays _ _ _ HS). auto.
  - rewrite (es_opArrays _ _ _ HS). auto.
Qed.

Lemma edge_step_fresh N p ev ev' :
  fresh_chain N ev p -> edge_step p ev ev' -> fresh_chain N ev' p.
Proof.
  intros (c & Hc & Hf) HS. destruct (es_chain _ _ _ HS c Hc) as (c' & Hc' & Ho).
  exists c'. split; [exact Hc'|]. rewrite (es_opArrays _ _ _ HS), Ho. exact Hf.
Qed.

(** Overwriting a chain that no variable holds with a chain over the
    same arrays. *)
Lemma store_chain_spec N K p c ev :
  Inv ev -> p < length (chains ev) -> unbound ev p ->
  wf_slice (opArrays ev) (Operations c) -> K <= p ->
  Inv (set_chains (<[p := c]> (chains ev)) ev)
  /\ Frame N K ev (set_chains (<[p := c]> (chains ev)) ev).
Proof.
  intros HI Hlt Hun Hwf HK. split.
  - constructor; simpl; try apply HI.
    + intros q c' Hq. destruct (decide (q = p)) as [->|Hne].
      * rewrite list_lookup_insert_eq in Hq by exact Hlt. now injection Hq as <-.
      * rewrite list_lookup_insert_ne in Hq by auto. eapply (inv_wf _ HI), Hq.
    + intros name v q Hv Hq.
      destruct (inv_scope _ HI name v q Hv Hq) as (Ht & c' & Hc' & Hl).
      split; [exact Ht|]. exists c'. split; [|exact Hl].
      rewrite list_lookup_insert_ne; [exact Hc'|]. intros <-. now apply (Hun name v Hv).
  - constructor; simpl; auto.
    + now rewrite length_insert.
    + intros q Hq. apply list_lookup_insert_ne. lia.
    + intros a arr Ha. exists arr. auto.
Qed.

Section Primitives.
Variable growslice : nat -> nat -> nat.
Hypothesis growslice_fits : forall old needed, needed <= growslice old needed.

Lemma append_Edge_step p e ev u ev' :
  append_Edge growslice p e ev = Ok (u, ev') -> edge_step p ev ev'.
Proof.
  unfold append_Edge. intros H. run_inv H.
  apply load_chain_inv in Hrun as [-> Hc].
  unfold gets in Hrun0. injection Hrun0 as <- <-.
  destruct (append1 Edge_zero growslice (edgeArrays ev) (Edges a) e) as [arrays s].
  run_inv H. unfold modify in Hrun. injection Hrun as _ <-.
  apply store_chain_inv in H as [-> _].
  eapply edge_step_trans; [|apply (edge_step_store p a); simpl; eauto].
  constructor; simpl; eauto.
Qed.

Lemma additional_parents_step p child skip parents :
  forall ev u ev',
    additional_parents growslice p child skip parents ev = Ok (u, ev') ->
    edge_step p ev ev'.
Proof.
  induction parents as [|q parents IH]; intros ev u ev' H; simpl in H.
  - injection H as _ <-. apply edge_step_refl.
  - run_inv H. eapply edge_step_trans; [|eapply IH, H].
    destruct (bool_decide (Some q <> skip)).
    + eapply append_Edge_step, Hrun.
    + injection Hrun as _ <-. apply edge_step_refl.
Qed.

(** Appending a pointer that no array holds to a chain that no
    variable holds. *)
Lemma append_Operation_spec N K p n ev u ev' :
  append_Operation growslice p n ev = Ok (u, ev') ->
  Inv ev -> ~ held (opArrays ev) n -> n < length (ops ev) ->
  unbound ev p -> fresh_chain N ev p -> N <= n -> K <= p ->
  Inv ev' /\ Frame N K ev ev' /\ fresh_chain N ev' p.
Proof.
  unfold append_Operation. intros H HI Hfresh Hn Hun (c0 & Hc0 & Hf) HN HK.
  run_inv H. apply load_chain_inv in Hrun as [-> Hc].
  assert (c0 = a) by congruence. subst c0.
  unfold gets in Hrun0. injection Hrun0 as <- <-.
  destruct (append1 None growslice (opArrays ev) (Operations a) (Some n))
    as [arrays s] eqn:Happ.
  run_inv H. unfold modify in Hrun. injection Hrun as _ <-.
  apply store_chain_inv in H as [-> Hlt]. simpl in Hlt.
  destruct (append1_spec growslice growslice_fits _ _ _ _ _ Happ
              (inv_wf _ HI p a Hc) (inv_nodup _ HI) Hfresh)
    as (Hwf & Hnodup & Hel & Hstep & Hheld & Hkeep).
  split; [|split].
  - constructor; simpl.
    + intros m Hm. destruct (Hheld m Hm) as [Hold|Heq]; [|now subst m].
      now apply (inv_held _ HI).
    + exact Hnodup.
    + intros q c Hq. destruct (decide (q = p)) as [->|Hne].
      * rewrite list_lookup_insert_eq in Hq by exact Hlt. injection Hq as <-. exact Hwf.
      * rewrite list_lookup_insert_ne in Hq by auto. eapply Hkeep, (inv_wf _ HI), Hq.
    + intros name v q Hv Hq.
      destruct (inv_scope _ HI name v q Hv Hq) as (Ht & c & Hcq & Hl).
      split; [exact Ht|]. exists c. split; [|exact Hl].
      rewrite list_lookup_insert_ne; [exact Hcq|]. intros <-. now apply (Hun name v Hv).
    + apply HI.
    + apply HI.
  - constructor; simpl; auto.
    + now rewrite length_insert.
    + intros q Hq. apply list_lookup_insert_ne. lia.
    + intros b arr Hb. destruct (Hstep b arr Hb) as (arr' & Hb' & Hl & Hcells).
      exists arr'. split; [exact Hb'|]. split; [exact Hl|].
      intros i m Hi. destruct (Hcells i m Hi) as [Hold|Heq]; [auto|right; lia].
    + intros m Hm. destruct (Hheld m Hm) as [Hold|Heq]; [auto|right; lia].
  - eexists. split; [simpl; apply list_lookup_insert_eq; exact Hlt|]. simpl.
    rewrite Hel. intros m Hm. apply elem_of_app in Hm as [Hm|Hm]; [auto|].
    apply list_elem_of_singleton in Hm. congruence.
Qed.

Lemma new_chain_spec N K c ev p ev' :
  new_chain c ev = Ok (p, ev') ->
  Inv ev -> wf_slice (opArrays ev) (Operations c) -> K <= length (chains ev) ->
  Inv ev' /\ Frame N K ev ev' /\ p = length (chains ev)
  /\ chains ev' !! p = Some c /\ opArrays ev' = opArrays ev.
Proof.
  unfold new_chain. intros [= <- <-] HI Hwf HK.
  split; [|split; [|split; [reflexivity|split; [|reflexivity]]]].
  - constructor; simpl; try apply HI.
    + intros q c' Hq. apply lookup_app_Some in Hq as [Hq|[_ Hq]].
      * eapply (inv_wf _ HI), Hq.
      * destruct (q - length (chains ev)); simpl in Hq; [|discriminate]. congruence.
    + intros name v q Hv Hq.
      destruct (inv_scope _ HI name v q Hv Hq) as (Ht & c' & Hc' & Hl).
      split; [exact Ht|]. exists c'. split; [|exact Hl]. now apply lookup_app_l_Some.
  - constructor; simpl; auto.
    + rewrite length_app. lia.
    + intros q Hq. apply lookup_app_l. lia.
    + intros a arr Ha. exists arr. auto.
  - simpl. apply list_lookup_middle. reflexivity.
Qed.

End Primitives.

(** ** The methods of the evaluator keep the invariant *)

(** A chain that an expression evaluates to has the type TChain and
    shows only operations allocated since the evaluation began. *)
Definition value_post (N : nat) (ev' : evaluator) (v : Value) : Prop :=
  forall p, Value_of v = dChain p -> Type_of v = TChain /\ fresh_chain N ev' p.

Definition expr_ok (doExpression : Expression -> M Value) : Prop :=
  forall e ev v ev',
    doExpression e ev = Ok (v, ev') -> Inv ev ->
    Inv ev' /\ Frame (length (ops ev)) (length (chains ev)) ev ev'
    /\ value_post (length (ops ev)) ev' v.

Definition call_ok (callFunction : Expression -> list Expression -> option nat -> M nat)
    : Prop :=
  forall callee args ev p ev',
    callFunction callee args None ev = Ok (p, ev') -> Inv ev ->
    Inv ev' /\ Frame (length (ops ev)) (length (chains ev)) ev ev'
    /\ length (chains ev) <= p /\ fresh_chain (length (ops ev)) ev' p.

Lemma doLiteral_inv lit ev v ev' :
  doLiteral lit ev = Ok (v, ev') -> ev' = ev /\ forall p, Value_of v <> dChain p.
Proof.
  destruct lit; simpl; try discriminate; intros [= <- <-]; split; auto; discriminate.
Qed.

Lemma lift_inv {A} (r : error + A) ev a ev' : lift r ev = Ok (a, ev') -> ev' = ev.
Proof. destruct r; simpl; [discriminate|]. now intros [= _ <-]. Qed.

Lemma typed_elements_inv t els :
  forall ev l ev', typed_elements t els ev = Ok (l, ev') -> ev' = ev.
Proof.
  induction els as [|el els IH]; intros ev l ev' H; simpl in H.
  - now injection H as _ <-.
  - destruct (assertable t (Value_of el)); [|discriminate].
    run_inv H. apply IH in Hrun. subst. now injection H as _ <-.
Qed.

Lemma wrapping_inv {A} msg (m : M A) ev r :
  wrapping msg m ev = Ok r -> m ev = Ok r.
Proof. unfold wrapping. now destruct (m ev). Qed.

Section Methods.
Variable functionsMap : gmap string CreateOperationSpec.
Variable methodMap : gmap string CreateOperationSpec.
Variable growslice : nat -> nat -> nat.
Hypothesis growslice_fits : forall old needed, needed <= growslice old needed.

Section Body.
Variable doExpression : Expression -> M Value.
Variable callFunction : Expression -> list Expression -> option nat -> M nat.
Hypothesis doExpression_ok : expr_ok doExpression.
Hypothesis callFunction_ok : call_ok callFunction.

(** A further expression keeps what a sequence has established. *)
Lemma expr_step N K ev0 ev e v ev' :
  Inv ev -> Frame N K ev0 ev ->
  N <= length (ops ev) -> K <= length (chains ev) ->
  doExpression e ev = Ok (v, ev') ->
  Inv ev' /\ Frame N K ev0 ev' /\ length (ops ev) <= length (ops ev')
  /\ length (chains ev) <= length (chains ev')
  /\ value_post (length (ops ev)) ev' v.
Proof.
  intros HI HF HN HK Hrun.
  destruct (doExpression_ok e ev v ev' Hrun HI) as (HI' & HF' & Hv).
  split; [exact HI'|]. split.
  - eapply Frame_trans; [exact HF|]. eapply Frame_weaken; eauto.
  - split; [apply HF'|]. split; [apply HF'|exact Hv].
Qed.

Lemma doArray_elements_ok els :
  forall N K ev0 t ev r ev',
    Inv ev -> Frame N K ev0 ev ->
    N <= length (ops ev) -> K <= length (chains ev) ->
    doArray_elements doExpression els t ev = Ok (r, ev') ->
    Inv ev' /\ Frame N K ev0 ev'.
Proof.
  induction els as [|el els IH]; intros N K ev0 t ev r ev' HI HF HN HK H; simpl in H.
  - injection H as _ <-. auto.
  - run_inv H.
    destruct (expr_step N K ev0 ev el a ev1 HI HF HN HK Hrun) as (HI1 & HF1 & Ho & Hc & _).
    destruct (bool_decide _) in H; [discriminate|].
    run_inv H. injection H as _ <-.
    eapply IH; [exact HI1|exact HF1| | |exact Hrun0]; lia.
Qed.

Lemma doArray_ok a ev v ev' :
  doArray doExpression a ev = Ok (v, ev') -> Inv ev ->
  Inv ev' /\ Frame (length (ops ev)) (length (chains ev)) ev ev'
  /\ value_post (length (ops ev)) ev' v.
Proof.
  unfold doArray. intros H HI. run_inv H. destruct a0 as [arrayType elements].
  destruct (doArray_elements_ok a _ _ ev TInvalid ev _ _ HI (Frame_refl _ _ _)
              (le_n _) (le_n _) Hrun) as [HI1 HF1].
  assert (Hdone : (value <- typed_elements arrayType elements ;;
                   ret (mkValue TArray (dArray arrayType value))) ev0 = Ok (v, ev') ->
            Inv ev' /\ Frame (length (ops ev)) (length (chains ev)) ev ev'
            /\ value_post (length (ops ev)) ev' v).
  { intros H'. run_inv H'. apply typed_elements_inv in Hrun0. subst ev1.
    injection H' as <- <-. split; [exact HI1|]. split; [exact HF1|].
    intros p Hp. discriminate. }
  destruct arrayType; try (now apply Hdone); discriminate.
Qed.

Lemma resolveParameters_loop_ok properties :
  forall N K ev0 paramsMap ev r ev',
    Inv ev -> Frame N K ev0 ev ->
    N <= length (ops ev) -> K <= length (chains ev) ->
    resolveParameters_loop doExpression properties paramsMap ev = Ok (r, ev') ->
    Inv ev' /\ Frame N K ev0 ev'.
Proof.
  induction properties as [|p properties IH];
    intros N K ev0 paramsMap ev r ev' HI HF HN HK H; simpl in H.
  - injection H as _ <-. auto.
  - run_inv H.
    destruct (expr_step N K ev0 ev _ a ev1 HI HF HN HK Hrun) as (HI1 & HF1 & Ho & Hc & _).
    destruct (paramsMap !! p.1); [discriminate|].
    eapply IH; [exact HI1|exact HF1| | |exact H]; lia.
Qed.

Lemma createOp_ok name createOpSpec args ev op parents ev' :
  createOp doExpression name createOpSpec args ev = Ok ((op, parents), ev') ->
  Inv ev ->
  Inv ev' /\ Frame (length (ops ev)) (length (chains ev)) ev ev'
  /\ length (ops ev) <= op < length (ops ev')
  /\ ~ held (opArrays ev') op.
Proof.
  unfold createOp. intros H HI.
  apply bind_inv in H as (n & e1 & H1 & H). unfold nextID in H1. injection H1 as <- <-.
  apply bind_inv in H as (op0 & e2 & H2 & H).
  unfold newOperation in H2. injection H2 as <- <-. simpl in *.
  set (evA := set_ops (ops ev ++ [mkOperation (Sprintf_sd name (id ev)) None])
                (set_id (id ev + 1) ev)) in *.
  apply bind_inv in H as (paramMap & e3 & H3 & H).
  apply bind_inv in H as (e4 & e5 & H4 & H). unfold gets in H4. injection H4 as <- <-.
  assert (HIA : Inv evA).
  { constructor; simpl; try apply HI.
    - intros m Hm. apply (inv_held _ HI) in Hm. rewrite length_app. simpl. lia.
    - intros o Ho. destruct (inv_ops _ HI o Ho) as (m & -> & Hm).
      exists m. split; [reflexivity|]. rewrite length_app. simpl. lia. }
  assert (HFA : Frame (length (ops ev)) (length (chains ev)) ev evA).
  { constructor; simpl; auto.
    - rewrite length_app. lia.
    - intros a arr Ha. exists arr. auto. }
  assert (HlenA : length (ops evA) = S (length (ops ev))).
  { unfold evA. simpl. rewrite length_app. simpl. lia. }
  assert (Hparams : Inv e3 /\ Frame (length (ops evA)) (length (chains evA)) evA e3).
  { destruct args as [|arg [|? ?]].
    - injection H3 as _ <-. split; [exact HIA|apply Frame_refl].
    - destruct arg; try discriminate.
      eapply (resolveParameters_loop_ok _ _ _ evA ∅ evA); eauto using Frame_refl.
    - injection H3 as _ <-. split; [exact HIA|apply Frame_refl]. }
  destruct Hparams as [HI3 HF3].
  destruct (runCtor createOpSpec e3 (newArguments paramMap) (mkContext []))
    as [[[arguments ctx] [err|spec]]|msg]; try discriminate.
  destruct (0 <? length (listUnused arguments)); [discriminate|].
  apply bind_inv in H as (u & e6 & H6 & H). injection H as <- <- <-.
  unfold set_Operation_Spec in H6.
  destruct (ops e3 !! length (ops ev)) as [o|] eqn:Hop; [|discriminate].
  injection H6 as _ <-.
  assert (Hnot : ~ held (opArrays e3) (length (ops ev))).
  { intros Hh. destruct (fr_held _ _ _ _ HF3 _ Hh) as [Hh2|Hge]; [|lia].
    apply (inv_held _ HI) in Hh2. lia. }
  split; [|split; [|split]].
  - constructor; simpl; try apply HI3.
    + intros m Hm. rewrite length_insert. now apply (inv_held _ HI3).
    + intros o' Ho'. rewrite length_insert. now apply (inv_ops _ HI3).
  - eapply Frame_trans; [exact HFA|].
    eapply Frame_weaken with (N' := length (ops evA)) (K' := length (chains evA));
      [|lia|simpl; lia].
    constructor; simpl; try apply HF3. rewrite length_insert. apply HF3.
  - simpl. rewrite length_insert. split; [lia|].
    pose proof (fr_ops _ _ _ _ HF3). lia.
  - exact Hnot.
Qed.

Lemma method_ok name args ev op parents ev' :
  method methodMap doExpression name args ev = Ok ((op, parents), ev') ->
  Inv ev ->
  Inv ev' /\ Frame (length (ops ev)) (length (chains ev)) ev ev'
  /\ length (ops ev) <= op < length (ops ev')
  /\ ~ held (opArrays ev') op.
Proof.
  unfold method. destruct (methodMap !! name); [|discriminate].
  intros H. apply wrapping_inv in H. eapply createOp_ok, H.
Qed.

Lemma function_ok name args ev op parents ev' :
  function functionsMap doExpression name args ev = Ok ((op, parents), ev') ->
  Inv ev ->
  Inv ev' /\ Frame (length (ops ev)) (length (chains ev)) ev ev'
  /\ length (ops ev) <= op < length (ops ev')
  /\ ~ held (opArrays ev') op.
Proof.
  unfold function. destruct (functionsMap !! name); [|discriminate].
  intros H. apply wrapping_inv in H. eapply createOp_ok, H.
Qed.

Lemma memberFunction_ok object property ev p name ev' :
  memberFunction callFunction object property None ev = Ok ((p, name), ev') ->
  Inv ev ->
  Inv ev' /\ Frame (length (ops ev)) (length (chains ev)) ev ev'
  /\ length (chains ev) <= p /\ fresh_chain (length (ops ev)) ev' p.
Proof.
  unfold memberFunction. intros H HI.
  apply bind_inv in H as (chain & e1 & H1 & H).
  assert (Hchain : Inv e1 /\ Frame (length (ops ev)) (length (chains ev)) ev e1
                   /\ length (chains ev) <= chain
                   /\ fresh_chain (length (ops ev)) e1 chain).
  { destruct object as [x| | | | | | | | | | | | | | | |]; try discriminate.
    - (* a variable: its chain is copied into a new one *)
      apply bind_inv in H1 as (value & e2 & H2 & H1).
      unfold scope_Get, gets in H2. injection H2 as <- <-.
      destruct (scope ev !! x) as [value|] eqn:Hvalue; [|discriminate].
      destruct (bool_decide (Type_of value <> TChain)); [discriminate|].
      apply bind_inv in H1 as (chain0 & e3 & H3 & H1).
      destruct (Value_of value) as [| | | | | | | | |q|] eqn:Hq; try discriminate.
      destruct (inv_scope _ HI x value q Hvalue Hq) as (_ & c & Hc & Hlen & _).
      destruct (new_chain_spec (length (ops ev)) (length (chains ev)) _ ev chain0 e3 H3 HI)
        as (HI3 & HF3 & -> & Hnew & Harr).
      { split; simpl; [lia|]. intros Hlt. lia. }
      { lia. }
      apply bind_inv in H1 as (c' & e4 & H4 & H1).
      apply load_chain_inv in H4 as [-> Hc'].
      apply bind_inv in H1 as (u & e5 & H5 & H1).
      apply store_chain_inv in H5 as [-> Hlt]. injection H1 as <- <-.
      assert (c' = c).
      { rewrite (fr_chains _ _ _ _ HF3) in Hc'; [congruence|].
        eapply lookup_lt_Some, Hc. }
      subst c'.
      assert (Hun : unbound e3 (length (chains ev))).
      { intros nm v Hv. rewrite (fr_scope _ _ _ _ HF3) in Hv.
        now apply (new_chains_unbound ev _ HI (le_n _) nm v). }
      destruct (store_chain_spec (length (ops ev)) (length (chains ev))
                  (length (chains ev)) c e3 HI3 Hlt Hun) as [HI5 HF5].
      { eapply (inv_wf _ HI3). rewrite (fr_chains _ _ _ _ HF3); [exact Hc|].
        eapply lookup_lt_Some, Hc. }
      { lia. }
      split; [exact HI5|]. split; [eapply Frame_trans; eauto|]. split; [lia|].
      exists c. split; [simpl; apply list_lookup_insert_eq; exact Hlt|].
      intros n Hn. unfold elems in Hn. rewrite Hlen in Hn. simpl in Hn.
      rewrite take_0 in Hn. inversion Hn.
    - (* a call: the chain of the object *)
      eapply callFunction_ok; eauto. }
  destruct Hchain as (HI1 & HF1 & Hp & Hfresh).
  destruct property; try discriminate. injection H as <- <- <-. auto.
Qed.

Lemma callFunction_body_ok :
  call_ok (callFunction_body functionsMap methodMap growslice doExpression callFunction).
Proof.
  intros callee args ev p ev' H HI. unfold callFunction_body in H.
  destruct callee as [x| |object property| | | | | | | | | | | | | |]; try discriminate.
  - (* a function begins a chain *)
    apply bind_inv in H as ([op parents] & e1 & H1 & H).
    destruct (function_ok _ _ _ _ _ _ H1 HI)
      as (HI1 & HF1 & Hop & Hnot).
    apply bind_inv in H as (opID & e2 & H2 & H). apply Operation_ID_inv in H2 as ->.
    apply bind_inv in H as (arrays & e3 & H3 & H). unfold gets in H3. injection H3 as <- <-.
    destruct (literal1 (opArrays e1) (Some op)) as [arrays s] eqn:Hlit.
    apply bind_inv in H as (u & e4 & H4 & H). unfold modify in H4. injection H4 as _ <-.
    apply bind_inv in H as (chain & e5 & H5 & H).
    apply bind_inv in H as (u' & e6 & H6 & H). injection H as <- <-.
    destruct (literal1_spec _ _ _ _ Hlit (inv_nodup _ HI1))
      as (Hwf & Hnodup & Hel & Hstep & Hheld & Hkeep).
    set (eL := set_opArrays arrays e1) in *.
    assert (HIL : Inv eL).
    { constructor; simpl; try apply HI1.
      - intros m Hm. destruct (Hheld m Hm) as [Hold|Heq]; [|subst m; lia].
        now apply (inv_held _ HI1).
      - exact Hnodup.
      - intros q c Hq. eapply Hkeep, (inv_wf _ HI1), Hq. }
    assert (HFL : Frame (length (ops ev)) (length (chains ev)) e1 eL).
    { constructor; simpl; auto.
      - intros a arr Ha. destruct (Hstep a arr Ha) as (arr' & Ha' & Hl & Hcells).
        exists arr'. split; [exact Ha'|]. split; [exact Hl|].
        intros i m Hi. destruct (Hcells i m Hi) as [Hold|Heq]; [auto|right; lia].
      - intros m Hm. destruct (Hheld m Hm) as [Hold|Heq]; [auto|right; lia]. }
    destruct (new_chain_spec (length (ops ev)) (length (chains ev)) _ eL chain e5 H5 HIL)
      as (HI5 & HF5 & -> & Hnew & Harr).
    { exact Hwf. }
    { simpl. apply HF1. }
    assert (Hge : length (chains ev) <= length (chains eL)).
    { simpl. apply HF1. }
    pose proof (additional_parents_step growslice _ _ _ _ _ _ _ H6) as Hedge.
    assert (Hun : unbound e5 (length (chains eL))).
    { intros nm v Hv. rewrite (fr_scope _ _ _ _ HF5) in Hv. simpl in Hv.
      rewrite (fr_scope _ _ _ _ HF1) in Hv.
      now apply (new_chains_unbound ev _ HI Hge nm v). }
    split; [eapply edge_step_Inv; eauto|]. split.
    + eapply Frame_trans; [exact HF1|]. eapply Frame_trans; [exact HFL|].
      eapply Frame_trans; [exact HF5|]. eapply edge_step_Frame; eauto.
    + split; [exact Hge|]. eapply edge_step_fresh; [|exact Hedge].
      eexists. split; [exact Hnew|]. simpl. rewrite Harr. simpl. rewrite Hel.
      intros n Hn. apply list_elem_of_singleton in Hn. injection Hn as ->. lia.
  - (* a method extends the chain of its object *)
    apply bind_inv in H as ([chain name] & e1 & H1 & H).
    destruct (memberFunction_ok _ _ _ _ _ _ H1 HI) as (HI1 & HF1 & Hchain & Hfresh1).
    apply bind_inv in H as ([op parents] & e2 & H2 & H).
    destruct (method_ok _ _ _ _ _ _ H2 HI1) as (HI2 & HF2 & Hop & Hnot).
    apply bind_inv in H as (opID & e3 & H3 & H). apply Operation_ID_inv in H3 as ->.
    apply bind_inv in H as (u & e4 & H4 & H).
    assert (Hlt1 : chain < length (chains e1)).
    { destruct Hfresh1 as (c & Hc & _). eapply lookup_lt_Some, Hc. }
    assert (Hfresh2 : fresh_chain (length (ops ev)) e2 chain).
    { eapply fresh_chain_frame; [exact HI1|exact Hfresh1|exact HF2| |exact Hlt1].
      apply HF1. }
    assert (Hun : forall e, scope e = scope ev -> unbound e chain).
    { intros e He nm v Hv. rewrite He in Hv.
      now apply (new_chains_unbound ev _ HI Hchain nm v). }
    assert (Hs2 : scope e2 = scope ev).
    { rewrite (fr_scope _ _ _ _ HF2). apply HF1. }
    destruct (append_Operation_spec growslice growslice_fits
                (length (ops ev)) (length (chains ev)) _ _ _ _ _ H4 HI2 Hnot)
      as (HI4 & HF4 & Hfresh4); auto.
    { lia. }
    { pose proof (fr_ops _ _ _ _ HF1). lia. }
    assert (Hs4 : scope e4 = scope ev).
    { rewrite (fr_scope _ _ _ _ HF4). exact Hs2. }
    assert (Hedge : edge_step chain e4 ev').
    { apply bind_inv in H as (c & e5 & H5 & H). apply load_chain_inv in H5 as [-> Hc].
      apply bind_inv in H as (u5 & e6 & H6 & H).
      apply append_Edge_step in H6.
      apply bind_inv in H as (u6 & e7 & H7 & H).
      apply additional_parents_step in H7.
      apply bind_inv in H as (c8 & e8 & H8 & H). apply load_chain_inv in H8 as [-> Hc8].
      apply bind_inv in H as (u9 & e9 & H9 & H). injection H as <- <-.
      apply store_chain_inv in H9 as [-> _].
      eapply edge_step_trans; [exact H6|]. eapply edge_step_trans; [exact H7|].
      apply (edge_step_store chain c8); [exact Hc8|reflexivity]. }
    assert (Hp : p = chain).
    { apply bind_inv in H as (c & e5 & H5 & H).
      apply bind_inv in H as (u5 & e6 & H6 & H).
      apply bind_inv in H as (u6 & e7 & H7 & H).
      apply bind_inv in H as (c8 & e8 & H8 & H).
      apply bind_inv in H as (u9 & e9 & H9 & H). now injection H as <- _. }
    subst p.
    split; [eapply edge_step_Inv; eauto|]. split.
    + eapply Frame_trans; [exact HF1|].
      eapply Frame_trans.
      { eapply Frame_weaken; [exact HF2| |]; [apply HF1|apply HF1]. }
      eapply Frame_trans; [exact HF4|]. eapply edge_step_Frame; eauto.
    + split; [exact Hchain|]. eapply edge_step_fresh; eauto.
Qed.

Lemma doExpression_body_ok :
  expr_ok (doExpression_body doExpression callFunction).
Proof.
  intros e ev v ev' H HI. unfold doExpression_body in H.
  destruct (isLiteral e) eqn:Hlit.
  - apply doLiteral_inv in H as [-> Hv]. split; [exact HI|].
    split; [apply Frame_refl|]. intros p Hp. now destruct (Hv p).
  - destruct e as [x|callee args| |params body|op l r|op l r|elements| | | | | | | | | |];
      try discriminate.
    + (* a variable *)
      apply bind_inv in H as (value & e1 & H1 & H).
      unfold scope_Get, gets in H1. injection H1 as <- <-.
      destruct (scope ev !! x) as [value|] eqn:Hvalue; [|discriminate].
      injection H as <- <-. split; [exact HI|]. split; [apply Frame_refl|].
      intros p Hp. destruct (inv_scope _ HI x value p Hvalue Hp) as (Ht & c & Hc & Hlen & _).
      split; [exact Ht|]. exists c. split; [exact Hc|].
      intros n Hn. unfold elems in Hn. rewrite Hlen in Hn. rewrite take_0 in Hn.
      inversion Hn.
    + (* a call *)
      apply bind_inv in H as (chain & e1 & H1 & H). injection H as <- <-.
      destruct (callFunction_ok _ _ _ _ _ H1 HI) as (HI1 & HF1 & Hc & Hfresh).
      split; [exact HI1|]. split; [exact HF1|].
      intros p [= <-]. auto.
    + (* an arrow function *)
      apply bind_inv in H as (v0 & e1 & H1 & H).
      destruct (doExpression_ok _ _ _ _ H1 HI) as (HI1 & HF1 & _).
      destruct (Value_of v0); try discriminate. injection H as <- <-.
      split; [exact HI1|]. split; [exact HF1|]. intros p Hp. discriminate.
    + apply bind_inv in H as (root & e1 & H1 & H). apply lift_inv in H1 as ->.
      injection H as <- <-. split; [exact HI|]. split; [apply Frame_refl|].
      intros p Hp. discriminate.
    + apply bind_inv in H as (root & e1 & H1 & H). apply lift_inv in H1 as ->.
      injection H as <- <-. split; [exact HI|]. split; [apply Frame_refl|].
      intros p Hp. discriminate.
    + eapply doArray_ok; eauto.
Qed.

End Body.

(** The invariant holds along the evaluation of any expression,
    whatever the fuel. *)
Lemma doExpression_callFunction_ok (fuel : nat) :
  expr_ok (doExpression functionsMap methodMap growslice fuel)
  /\ call_ok (callFunction functionsMap methodMap growslice fuel).
Proof.
  induction fuel as [|fuel [IHe IHc]].
  - split.
    + intros e ev v ev' H. discriminate.
    + intros callee args ev p ev' H. discriminate.
  - split.
    + exact (doExpression_body_ok _ _ IHe IHc).
    + exact (callFunction_body_ok _ _ IHe IHc).
Qed.

End Methods.

(** ** Draining a chain *)

(** The chain after addChain: both buffers resliced to length 0. *)
Definition drained (c : CallChain) : CallChain :=
  mkCallChain (Chain_Parent c) (reslice0 (Operations c)) (reslice0 (Edges c)).

Lemma addChain_run p ev c :
  chains ev !! p = Some c ->
  addChain p ev =
    Ok (tt, set_chains (<[p := drained c]> (chains ev))
              (set_edges (edges ev ++ elems (edgeArrays ev) (Edges c))
                 (set_operations (operations ev ++ elems (opArrays ev) (Operations c))
                    ev))).
Proof.
  intros Hc. unfold addChain.
  assert (Hlt : p < length (chains ev)) by (eapply lookup_lt_Some, Hc).
  erewrite EvalArgsFacts.bind_Ok; [|unfold load_chain; rewrite Hc; reflexivity].
  erewrite EvalArgsFacts.bind_Ok; [|reflexivity].
  erewrite EvalArgsFacts.bind_Ok; [|reflexivity].
  erewrite EvalArgsFacts.bind_Ok; [|unfold load_chain; simpl; rewrite Hc; reflexivity].
  erewrite EvalArgsFacts.bind_Ok; [|unfold store_chain; simpl; rewrite Hc; reflexivity].
  erewrite EvalArgsFacts.bind_Ok;
    [|unfold load_chain; simpl; rewrite list_lookup_insert_eq by exact Hlt; reflexivity].
  unfold store_chain. simpl. rewrite list_lookup_insert_eq by exact Hlt.
  rewrite list_insert_insert_eq. reflexivity.
Qed.

Lemma addChain_inv p ev u ev' :
  addChain p ev = Ok (u, ev') ->
  exists c, chains ev !! p = Some c /\ addChain p ev = Ok (tt, ev')
            /\ ev' = set_chains (<[p := drained c]> (chains ev))
                       (set_edges (edges ev ++ elems (edgeArrays ev) (Edges c))
                          (set_operations
                             (operations ev ++ elems (opArrays ev) (Operations c)) ev)).
Proof.
  intros H. destruct (chains ev !! p) as [c|] eqn:Hc.
  - exists c. split; [reflexivity|]. pose proof (addChain_run p ev c Hc) as Hr.
    rewrite Hr in H. destruct u. injection H as <-. split; [exact Hr|reflexivity].
  - unfold addChain, bind, load_chain in H. rewrite Hc in H. discriminate.
Qed.

Lemma set_scope_id ev : set_scope (scope ev) ev = ev.
Proof. now destruct ev. Qed.

(** Draining the chain that an expression evaluated to, under a scope
    whose other chains are drained. *)
Lemma drain_Inv N sc p ev u ev' :
  Inv ev -> fresh_chain N ev p ->
  (forall o, o ∈ operations ev -> exists n, o = Some n /\ n < N) ->
  (forall name v q, sc !! name = Some v -> Value_of v = dChain q ->
     Type_of v = TChain
     /\ (q = p \/ exists c, chains ev !! q = Some c
                            /\ len (Operations c) = 0 /\ len (Edges c) = 0)) ->
  addChain p (set_scope sc ev) = Ok (u, ev') ->
  Inv ev'.
Proof.
  intros HI (c0 & Hc0 & Hfresh) Hold Hsc H.
  apply addChain_inv in H as (c & Hc & _ & ->). simpl in *.
  assert (c0 = c) by congruence. subst c0.
  pose proof (inv_wf _ HI p c Hc) as Hwf.
  assert (Hlt : p < length (chains ev)) by (eapply lookup_lt_Some, Hc).
  constructor; simpl; try apply HI.
  - intros q c' Hq. destruct (decide (q = p)) as [->|Hne].
    + rewrite list_lookup_insert_eq in Hq by exact Hlt. injection Hq as <-. simpl.
      destruct Hwf as [Hle Harr]. split; simpl; [lia|]. intros Hcap.
      destruct (Harr Hcap) as (arr & Ha & Hl & _). exists arr.
      split; [exact Ha|]. split; [exact Hl|]. intros i Hi. lia.
    + rewrite list_lookup_insert_ne in Hq by auto. eapply (inv_wf _ HI), Hq.
  - intros name v q Hv Hq. destruct (Hsc name v q Hv Hq) as [Ht Hcase].
    split; [exact Ht|]. destruct (decide (q = p)) as [->|Hne].
    + exists (drained c). split; [apply list_lookup_insert_eq; exact Hlt|]. auto.
    + destruct Hcase as [->|(c' & Hc' & Hl)]; [contradiction|].
      exists c'. split; [|exact Hl]. now rewrite list_lookup_insert_ne by auto.
  - apply NoDup_app. split; [apply HI|]. split.
    + intros o Ho Ho'. destruct (Hold o Ho) as (n & -> & Hn).
      apply Hfresh in Ho'. lia.
    + apply elems_NoDup; [exact Hwf|apply HI].
  - intros o Ho. apply elem_of_app in Ho as [Ho|Ho]; [now apply (inv_ops _ HI)|].
    destruct (elems_Some _ _ o Hwf Ho) as [n ->]. exists n. split; [reflexivity|].
    eapply (inv_held _ HI), elems_held, Ho.
Qed.

Section Program.
Variable functionsMap : gmap string CreateOperationSpec.
Variable methodMap : gmap string CreateOperationSpec.
Variable growslice : nat -> nat -> nat.
Hypothesis growslice_fits : forall old needed, needed <= growslice old needed.

(** What both kinds of statement do with the value of their
    expression: bind it or not, and drain it when it is a chain. *)
Lemma use_value_Inv N sc ev v u ev' :
  Inv ev -> value_post N ev v ->
  (forall o, o ∈ operations ev -> exists n, o = Some n /\ n < N) ->
  (forall name v' q, sc !! name = Some v' -> Value_of v' = dChain q ->
     v' = v \/ scope ev !! name = Some v') ->
  (if bool_decide (Type_of v = TChain) then
     match Value_of v with
     | dChain chain => addChain chain
     | _ => panic "interface conversion"
     end
   else ret tt) (set_scope sc ev) = Ok (u, ev') ->
  Inv ev'.
Proof.
  intros HI Hv Hold Hsc H. destruct (bool_decide (Type_of v = TChain)) eqn:Ht.
  - destruct (Value_of v) as [| | | | | | | | |p|] eqn:Hp; try discriminate.
    destruct (Hv p Hp) as [_ Hfresh].
    eapply (drain_Inv N sc p ev); eauto.
    intros name v' q Hv' Hq. destruct (Hsc name v' q Hv' Hq) as [->|Hin].
    + assert (q = p) by congruence. subst q. split; [apply (Hv p Hp)|]. now left.
    + destruct (inv_scope _ HI name v' q Hin Hq) as (Ht' & c & Hc). eauto.
  - injection H as _ <-. apply bool_decide_eq_false in Ht.
    constructor; simpl; try apply HI.
    intros name v' q Hv' Hq. destruct (Hsc name v' q Hv' Hq) as [->|Hin].
    + destruct (Hv q Hq) as [Ht' _]. contradiction.
    + now apply (inv_scope _ HI name v' q Hin Hq).
Qed.

Lemma doVariableDeclaration_Inv fuel declarations :
  forall ev u ev',
    doVariableDeclaration functionsMap methodMap growslice fuel declarations ev
      = Ok (u, ev') ->
    Inv ev -> Inv ev'.
Proof.
  induction declarations as [|vd declarations IH]; intros ev u ev' H HI; simpl in H.
  - now injection H as _ <-.
  - apply bind_inv in H as (value & e1 & H1 & H).
    destruct (doExpression_callFunction_ok functionsMap methodMap growslice
                growslice_fits fuel) as [Hexpr _].
    destruct (Hexpr _ _ _ _ H1 HI) as (HI1 & HF1 & Hv).
    apply bind_inv in H as (u1 & e2 & H2 & H).
    unfold scope_Set, modify in H2. injection H2 as _ <-.
    apply bind_inv in H as (u3 & e3 & H3 & H).
    eapply IH; [exact H|].
    refine (use_value_Inv (length (ops ev)) (<[vd.1 := value]> (scope e1)) e1 value
              u3 e3 HI1 Hv _ _ H3).
    + intros o Ho. rewrite (fr_operations _ _ _ _ HF1) in Ho. now apply (inv_ops _ HI).
    + intros name v' q Hv' Hq. destruct (decide (name = vd.1)) as [->|Hne].
      * rewrite lookup_insert_eq in Hv'. left. congruence.
      * rewrite lookup_insert_ne in Hv' by auto. now right.
Qed.

Lemma eval_Inv fuel body :
  forall ev u ev',
    eval functionsMap methodMap growslice fuel body ev = Ok (u, ev') ->
    Inv ev -> Inv ev'.
Proof.
  induction body as [|stmt body IH]; intros ev u ev' H HI; simpl in H.
  - now injection H as _ <-.
  - apply bind_inv in H as (u1 & e1 & H1 & H). eapply IH; [exact H|].
    destruct stmt as [s|e|kind]; try discriminate.
    + eapply doVariableDeclaration_Inv; eauto.
    + apply bind_inv in H1 as (value & e2 & H2 & H1).
      destruct (doExpression_callFunction_ok functionsMap methodMap growslice
                  growslice_fits fuel) as [Hexpr _].
      destruct (Hexpr _ _ _ _ H2 HI) as (HI2 & HF2 & Hv).
      rewrite <- (set_scope_id e2) in H1.
      refine (use_value_Inv (length (ops ev)) (scope e2) e2 value u1 e1 HI2 Hv _ _ H1).
      * intros o Ho. rewrite (fr_operations _ _ _ _ HF2) in Ho. now apply (inv_ops _ HI).
      * intros name v' q Hv' Hq. now right.
Qed.

Lemma Inv_newEvaluator : Inv newEvaluator.
Proof.
  constructor; simpl.
  - intros n (a & arr & i & Ha & _). rewrite lookup_nil in Ha. discriminate.
  - intros a arr Ha. rewrite lookup_nil in Ha. discriminate.
  - intros p c Hp. rewrite lookup_nil in Hp. discriminate.
  - intros name v p Hv. rewrite lookup_empty in Hv. discriminate.
  - constructor.
  - intros o Ho. inversion Ho.
Qed.

End Program.

(** The constructor of select, through the accessors of Arguments: it
    requires the string argument db. *)
Definition createSelectOpSpec : CreateOperationSpec :=
  GetRequiredString "db" (fun db err =>
    match err with
    | Some err => ReturnErr err
    | None => Return (SelectOpSpec db)
    end).

(** C5.  addChain appends the operations and edges that the chain
    shows to those of the evaluator and leaves both buffers of the
    chain with length 0, so that draining the same chain again appends
    nothing.  In the query spec of every program that evaluates, no
    operation occurs twice, every operation is an allocated one, and
    every chain held by a variable is drained. *)
Theorem chains_are_drained_once :
  forall (functionsMap methodMap : gmap string CreateOperationSpec)
         (growslice : nat -> nat -> nat),
    (forall old needed, needed <= growslice old needed) ->
    (forall (p : nat) (ev : evaluator) (c : CallChain),
        chains ev !! p = Some c ->
        exists ev',
          addChain p ev = Ok (tt, ev')
          /\ operations ev' = operations ev ++ elems (opArrays ev) (Operations c)
          /\ edges ev' = edges ev ++ elems (edgeArrays ev) (Edges c)
          /\ (exists c', chains ev' !! p = Some c'
                         /\ len (Operations c') = 0 /\ len (Edges c') = 0)
          /\ exists ev'', addChain p ev' = Ok (tt, ev'')
                          /\ operations ev'' = operations ev'
                          /\ edges ev'' = edges ev')
    /\ (forall (fuel : nat) (program : Program) (q : QuerySpec) (ev : evaluator),
          Evaluate functionsMap methodMap growslice fuel program = Ok (q, ev) ->
          NoDup (QuerySpec_Operations q)
          /\ (forall o, o ∈ QuerySpec_Operations q ->
                exists n, o = Some n /\ is_Some (ops ev !! n))
          /\ (forall name v p,
                scope ev !! name = Some v -> Value_of v = dChain p ->
                exists c, chains ev !! p = Some c
                          /\ len (Operations c) = 0 /\ len (Edges c) = 0)).
Proof.
  intros functionsMap methodMap growslice Hgrow. split.
  - intros p ev c Hc.
    assert (Hlt : p < length (chains ev)) by (eapply lookup_lt_Some, Hc).
    eexists. split; [apply (addChain_run p ev c Hc)|]. simpl.
    split; [reflexivity|]. split; [reflexivity|]. split.
    + exists (drained c). split; [apply list_lookup_insert_eq; exact Hlt|]. auto.
    + eexists. split.
      * apply (addChain_run p _ (drained c)). simpl.
        apply list_lookup_insert_eq. exact Hlt.
      * simpl. unfold elems. simpl. rewrite !take_0, !app_nil_r. auto.
  - intros fuel program q ev H. unfold Evaluate in H.
    destruct (eval functionsMap methodMap growslice fuel (ProgramBody program)
                newEvaluator) as [[u ev0]| | |] eqn:Heval; try discriminate.
    injection H as <- <-.
    pose proof (eval_Inv functionsMap methodMap growslice Hgrow fuel _ _ _ _ Heval
                  Inv_newEvaluator) as HI.
    simpl. split; [apply HI|]. split.
    + intros o Ho. destruct (inv_ops _ HI o Ho) as (n & -> & Hn).
      exists n. split; [reflexivity|]. now apply lookup_lt_is_Some_2.
    + intros name v p Hv Hp. now destruct (inv_scope _ HI name v p Hv Hp).
Qed.

(** The program
      a = select(db: "x")
      b = a.max()
      a.max()
      a                                                              *)
Definition branching_program : Program :=
  let a_max := CallExpression (MemberExpression (Identifier "a") (Identifier "max")) [] in
  mkProgram
    [VariableDeclaration
       [("a", CallExpression (Identifier "select")
                [ObjectExpression [("db", StringLiteral "x")]])];
     VariableDeclaration [("b", a_max)];
     ExpressionStatement a_max;
     ExpressionStatement (Identifier "a")].

Definition double_capacity (old needed : nat) : nat := Nat.max needed (2 * old).

Lemma chains_are_drained_once_witness :
  exists q ev,
    Evaluate {[ "select" := createSelectOpSpec ]} {[ "max" := createMaxOpSpec ]}
      double_capacity 10 branching_program = Ok (q, ev)
    /\ QuerySpec_Operations q = [Some 0; Some 1; Some 2]
    /\ NoDup (QuerySpec_Operations q).
Proof.
  destruct (chains_are_drained_once {[ "select" := createSelectOpSpec ]}
              {[ "max" := createMaxOpSpec ]} double_capacity) as [_ Hprog].
  { intros old needed. unfold double_capacity. lia. }
  destruct (Evaluate {[ "select" := createSelectOpSpec ]} {[ "max" := createMaxOpSpec ]}
              double_capacity 10 branching_program) as [[q ev]| | |] eqn:Heval;
    try (vm_compute in Heval; discriminate Heval).
  exists q, ev. split; [reflexivity|]. split.
  - vm_compute in Heval. injection Heval as <- _. reflexivity.
  - now apply (Hprog 10 branching_program q ev).
Defined.

(** A constructor that reads an array of chains. *)
Definition createTablesOpSpec : CreateOperationSpec :=
  GetArray "tables" TChain (fun tables _ err =>
    match err with
    | Some err => ReturnErr err
    | None => Return (OtherOpSpec "union" [tables])
    end).

(** The program
      a = select(db: "x")
      a.max().union(tables: [a.max()])                               *)
Definition nested_program : Program :=
  let a_max := CallExpression (MemberExpression (Identifier "a") (Identifier "max")) [] in
  mkProgram
    [VariableDeclaration
       [("a", CallExpression (Identifier "select")
                [ObjectExpression [("db", StringLiteral "x")]])];
     ExpressionStatement
       (CallExpression (MemberExpression a_max (Identifier "union"))
          [ObjectExpression [("tables", ArrayExpression [a_max])]])].

(** The copy that memberFunction makes of a variable's chain shares the
    arrays of that chain.  In [nested_program] the chain built inside
    the argument writes its operation max3 into the cell that held max1
    of the enclosing chain: the operations of the query spec are
    select0, max3 and union2, each once, and its edges name max1. *)
Remark argument_chain_shares_array :
  exists q ev,
    Evaluate {[ "select" := createSelectOpSpec ]}
      {[ "max" := createMaxOpSpec; "union" := createTablesOpSpec ]}
      double_capacity 10 nested_program = Ok (q, ev)
    /\ QuerySpec_Operations q = [Some 0; Some 3; Some 2]
    /\ ID <$> ops ev = ["select0"; "max1"; "union2"; "max3"]
    /\ QuerySpec_Edges q = [mkEdge "select0" "max1"; mkEdge "max1" "union2"].
Proof.
  destruct (Evaluate {[ "select" := createSelectOpSpec ]}
              {[ "max" := createMaxOpSpec; "union" := createTablesOpSpec ]}
              double_capacity 10 nested_program) as [[q ev]| | |] eqn:Heval;
    try (vm_compute in Heval; discriminate Heval).
  exists q, ev. split; [reflexivity|].
  vm_compute in Heval. injection Heval as <- <-. repeat split.
Qed.

End EvalChainFacts.

(** * Properties of the block iterators *)
Module StorageIterFacts.
Import Storage StorageIter.
Local Open Scope nat_scope.

(** ** The loop of Do *)

(** A points frame that peek knows. *)
Definition points (f : Frame) : bool :=
  match f with
  | IntegerPoints _ _ | FloatPoints _ _ => true
  | _ => false
  end.

(** X1.  When a points frame is at the head of the response, the loop
    of [Do] takes its [continue] branch without consuming anything: it
    never ends, whatever the consumer is, and no block is delivered. *)
Theorem Do_spins_on_unread_points :
  forall (fuel : nat) (f : storageBlock -> readState -> option readState)
         (b : Bounds) (s : readState) (delivered : list storageBlock)
         (fr : Frame) (rest : list Frame),
    rep s = fr :: rest ->
    points fr = true ->
    Do fuel f b s delivered = Spinning delivered s.
Proof.
  intros fuel f b s delivered fr rest Hrep Hp.
  induction fuel as [|fuel IH]; simpl; [reflexivity|].
  rewrite (StorageFacts.more_buffered s fr rest Hrep).
  unfold peek. rewrite Hrep. destruct fr; try discriminate; simpl; exact IH.
Qed.

Lemma Do_spins_on_unread_points_witness :
  Do 100 (fun _ s => Some s) (mkBounds 0%Z 10%Z)
    (mkReadState [] [IntegerPoints [1%Z] [2%Z]]) [] =
  Spinning [] (mkReadState [] [IntegerPoints [1%Z] [2%Z]]).
Proof.
  exact (Do_spins_on_unread_points 100 (fun _ s => Some s) (mkBounds 0%Z 10%Z)
           (mkReadState [] [IntegerPoints [1%Z] [2%Z]]) []
           (IntegerPoints [1%Z] [2%Z]) [] eq_refl eq_refl).
Defined.

(** X2.  A response message without frames: [more] has received it and
    answers true, and [peek] indexes the empty frame list.  Both [Do]
    and [advance] panic. *)
Theorem empty_response_panics :
  forall (rest : Storage_ReadClient) (fuel : nat)
         (f : storageBlock -> readState -> option readState)
         (bounds : Bounds) (delivered : list storageBlock)
         (b : storageBlockValueIterator),
    vi_data b = mkReadState (RecvResponse [] :: rest) [] ->
    more (vi_data b) = (true, mkReadState rest [])
    /\ Do (S fuel) f bounds (vi_data b) delivered = Panicked "index out of range"
    /\ advance b = Panic "index out of range".
Proof.
  intros rest fuel f bounds delivered b Hb. rewrite Hb.
  split; [reflexivity|]. split; [reflexivity|].
  unfold advance. rewrite Hb. reflexivity.
Qed.

Lemma empty_response_panics_witness :
  advance (Col (mkBlock (mkBounds 0%Z 10%Z) ∅ (TimeCol, ValueCol))
             (mkReadState [RecvResponse []] []) 1) = Panic "index out of range".
Proof.
  exact (proj2 (proj2 (empty_response_panics [] 0 (fun _ s => Some s) (mkBounds 0%Z 10%Z) []
           (Col (mkBlock (mkBounds 0%Z 10%Z) ∅ (TimeCol, ValueCol))
              (mkReadState [RecvResponse []] []) 1) eq_refl))).
Defined.

(** ** Copying a points frame *)

Lemma copy_points_spec {V : Type} (ts : list Z) :
  forall vs : list V,
    copy_points ts vs =
      if decide (length ts <= length vs) then Done (ts, take (length ts) vs)
      else Panic "index out of range".
Proof.
  induction ts as [|t ts IH]; intros vs; cbn [copy_points length].
  - destruct (decide (0 <= length vs)); [|lia]. now rewrite take_0.
  - destruct vs as [|v vs]; cbn [copy_points length].
    + destruct (decide (S (length ts) <= 0)); [lia|reflexivity].
    + rewrite IH. destruct (decide (length ts <= length vs));
        destruct (decide (S (length ts) <= S (length vs))); try lia; reflexivity.
Qed.

(** The iterator after a points frame was copied. *)
Definition after_points (b : storageBlockValueIterator) (rest : list Frame)
    (bufs : colBuf * colBuf) (tb : list Time) (fb : list float64) (ib : list Z)
    : storageBlockValueIterator :=
  mkValueIterator (mkReadState (stream (vi_data b)) rest) (vi_colMeta b) (col b)
    bufs tb fb [] ib.

(** X3.  [advance] on a points frame: with at least as many values as
    timestamps it consumes exactly that frame, leaves the timestamps in
    column buffer 0 and the first [len(timestamps)] values in column
    buffer 1 and returns true; surplus values are dropped.  With fewer
    values than timestamps it panics. *)
Theorem advance_copies_points_frame :
  forall (b : storageBlockValueIterator) (f : Frame) (rest : list Frame),
    rep (vi_data b) = f :: rest ->
    match f with
    | IntegerPoints ts vs =>
        if decide (length ts <= length vs) then
          advance b = Done (true, after_points b rest
                                    (TimeBuf ts, IntBuf (take (length ts) vs))
                                    ts [] (take (length ts) vs))
        else advance b = Panic "index out of range"
    | FloatPoints ts vs =>
        if decide (length ts <= length vs) then
          advance b = Done (true, after_points b rest
                                    (TimeBuf ts, FloatBuf (take (length ts) vs))
                                    ts (take (length ts) vs) [])
        else advance b = Panic "index out of range"
    | Series _ =>
        advance b = Done (false, mkValueIterator (vi_data b) (vi_colMeta b) (col b)
                                   (colBufs b) [] [] [] [])
    | _ => exists msg, advance b = Panic msg
    end.
Proof.
  intros b f rest Hrep. unfold advance.
  rewrite (StorageFacts.more_buffered _ f rest Hrep).
  unfold peek, next. rewrite Hrep.
  destruct f as [tags|ts vs|ts vs|ts vs|ts vs|ts vs]; simpl; eauto.
  - rewrite copy_points_spec. destruct (decide (length ts <= length vs)); reflexivity.
  - rewrite copy_points_spec. destruct (decide (length ts <= length vs)); reflexivity.
Qed.


(** ** The frames still to come *)

(** The frames of the messages that the stream delivers before it ends
    or fails. *)
Fixpoint responses (st : Storage_ReadClient) : list Frame :=
  match st with
  | RecvResponse fs :: rest => fs ++ responses rest
  | _ => []
  end.

(** The frames that a read state will yield, buffered ones first. *)
Definition pending (s : readState) : list Frame := rep s ++ responses (stream s).

(** No message of the stream is a response without frames. *)
Definition framed (st : Storage_ReadClient) : Prop :=
  Forall (fun m => m <> RecvResponse []) st.

Lemma more_pending (s : readState) :
  framed (stream s) ->
  match pending s with
  | [] => more s = (false, s)
  | f :: fs =>
      exists s' rest,
        more s = (true, s') /\ rep s' = f :: rest
        /\ pending s' = f :: fs /\ framed (stream s')
  end.
Proof.
  intros Hfr. unfold pending, more. destruct s as [st [|f fs]]; simpl in *.
  - destruct st as [|[fs|e] st]; simpl.
    + reflexivity.
    + apply Forall_cons in Hfr as [Hne Hfr].
      destruct fs as [|f fs]; [congruence|]. simpl.
      exists (mkReadState st (f :: fs)), fs. auto.
    + now destruct e.
  - exists (mkReadState st (f :: fs)), fs. auto.
Qed.

Lemma more_none (s : readState) :
  framed (stream s) -> pending s = [] -> more s = (false, s).
Proof. intros Hfr Hp. pose proof (more_pending s Hfr) as H. now rewrite Hp in H. Qed.

Lemma more_some (s : readState) f fs :
  framed (stream s) -> pending s = f :: fs ->
  exists s' rest,
    more s = (true, s') /\ rep s' = f :: rest
    /\ pending s' = f :: fs /\ framed (stream s').
Proof. intros Hfr Hp. pose proof (more_pending s Hfr) as H. now rewrite Hp in H. Qed.

(** ** The loops of the Do methods *)

Section Loop.
Context {V : Type}.
Variable assert : colBuf -> option (list V).
(** The column that the iterator reads. *)
Variable j : nat.
(** What the callback receives for a frame. *)
Variable view : Frame -> option (list V).

Hypothesis advance_view :
  forall (b : storageBlockValueIterator) (s' : readState) (f : Frame)
         (rest : list Frame) (vs : list V),
    col b = j ->
    more (vi_data b) = (true, s') ->
    rep s' = f :: rest ->
    view f = Some vs ->
    exists b',
      advance b = Done (true, b')
      /\ vi_data b' = mkReadState (stream s') rest
      /\ col b' = j
      /\ vi_colMeta b' = vi_colMeta b
      /\ exists buf, index2 (colBufs b') j = Done buf /\ assert buf = Some vs.

Lemma Do_loop_run (vss : list (list V)) :
  forall (run : list Frame) (tail : list Frame) (fuel : nat)
         (b : storageBlockValueIterator) (received : list (list V)),
    col b = j ->
    framed (stream (vi_data b)) ->
    pending (vi_data b) = run ++ tail ->
    Forall2 (fun f vs => view f = Some vs) run vss ->
    (tail = [] \/ exists tags tl, tail = Series tags :: tl) ->
    length run < fuel ->
    exists b',
      Do_loop assert fuel b received = Closed (received ++ vss) b'
      /\ pending (vi_data b') = tail
      /\ framed (stream (vi_data b'))
      /\ col b' = j /\ vi_colMeta b' = vi_colMeta b.
Proof.
  induction vss as [|vs vss IH]; intros run tail fuel b received Hcol Hfr Hp Hrun Htail Hfuel.
  - apply Forall2_nil_inv_r in Hrun. subst run. simpl in Hp.
    destruct fuel as [|fuel]; [simpl in Hfuel; lia|]. simpl.
    rewrite app_nil_r.
    destruct Htail as [->|(tags & tl & ->)].
    + unfold advance. rewrite (more_none _ Hfr Hp).
      eexists. split; [reflexivity|]. simpl. auto.
    + destruct (more_some _ _ _ Hfr Hp) as (s' & rest & Hm & Hrep & Hp' & Hfr').
      unfold advance. rewrite Hm. unfold peek. rewrite Hrep.
      eexists. split; [reflexivity|]. simpl. auto.
  - apply Forall2_cons_inv_r in Hrun as (f & run' & Hv & Hrun & ->).
    destruct fuel as [|fuel]; [simpl in Hfuel; lia|]. simpl in Hfuel. simpl.
    simpl in Hp.
    destruct (more_some _ _ _ Hfr Hp) as (s' & rest & Hm & Hrep & Hp' & Hfr').
    destruct (advance_view b s' f rest vs Hcol Hm Hrep Hv)
      as (b1 & Hadv & Hdata & Hcol1 & Hmeta1 & buf & Hbuf & Hassert).
    rewrite Hadv, Hcol1, Hbuf, Hassert.
    destruct (IH run' tail fuel b1 (received ++ [vs])) as (b' & Hloop & Hp2 & Hfr2 & Hc2 & Hm2);
      auto.
    + rewrite Hdata. exact Hfr'.
    + rewrite Hdata. unfold pending in *. simpl in *. rewrite Hrep in Hp'.
      simpl in Hp'. now injection Hp' as ->.
    + lia.
    + exists b'. rewrite Hloop, <- app_assoc. simpl. split; [reflexivity|].
      split; [exact Hp2|]. split; [exact Hfr2|]. split; [exact Hc2|]. congruence.
Qed.

End Loop.


(** What the callback of DoFloat receives for a frame: the values of a
    float frame, as many as it has timestamps. *)
Definition float_view (f : Frame) : option (list float64) :=
  match f with
  | FloatPoints ts vs =>
      if decide (length ts <= length vs) then Some (take (length ts) vs) else None
  | _ => None
  end.

(** What the callback of DoTime receives for a frame: the timestamps
    of a points frame. *)
Definition time_view (f : Frame) : option (list Time) :=
  match f with
  | IntegerPoints ts vs => if decide (length ts <= length vs) then Some ts else None
  | FloatPoints ts vs => if decide (length ts <= length vs) then Some ts else None
  | _ => None
  end.

Lemma advance_float_view (b : storageBlockValueIterator) (s' : readState) (f : Frame)
    (rest : list Frame) (vs : list float64) :
  col b = 1 ->
  more (vi_data b) = (true, s') ->
  rep s' = f :: rest ->
  float_view f = Some vs ->
  exists b',
    advance b = Done (true, b')
    /\ vi_data b' = mkReadState (stream s') rest
    /\ col b' = 1
    /\ vi_colMeta b' = vi_colMeta b
    /\ exists buf, index2 (colBufs b') 1 = Done buf /\ assertFloat buf = Some vs.
Proof.
  intros Hcol Hm Hrep Hv. unfold advance. rewrite Hm. unfold peek, next. rewrite Hrep.
  destruct f as [tags|ts ws|ts ws|ts ws|ts ws|ts ws]; try discriminate.
  simpl in Hv. rewrite copy_points_spec.
  destruct (decide (length ts <= length ws)); [|discriminate]. injection Hv as <-.
  eexists. split; [reflexivity|]. simpl. repeat split; auto. eexists. split; reflexivity.
Qed.

Lemma advance_time_view (b : storageBlockValueIterator) (s' : readState) (f : Frame)
    (rest : list Frame) (ts : list Time) :
  col b = 0 ->
  more (vi_data b) = (true, s') ->
  rep s' = f :: rest ->
  time_view f = Some ts ->
  exists b',
    advance b = Done (true, b')
    /\ vi_data b' = mkReadState (stream s') rest
    /\ col b' = 0
    /\ vi_colMeta b' = vi_colMeta b
    /\ exists buf, index2 (colBufs b') 0 = Done buf /\ assertTime buf = Some ts.
Proof.
  intros Hcol Hm Hrep Hv. unfold advance. rewrite Hm. unfold peek, next. rewrite Hrep.
  destruct f as [tags|ts' ws|ts' ws|ts' ws|ts' ws|ts' ws]; try discriminate;
    simpl in Hv; rewrite copy_points_spec;
    (destruct (decide (length ts' <= length ws)); [|discriminate]); injection Hv as <-;
    (eexists; split; [reflexivity|]); simpl; repeat split; auto;
    eexists; split; reflexivity.
Qed.

Lemma DoFloat_run (checkColType : ColMeta -> DataType -> outcome unit)
    (b : storageBlockValueIterator) (run tail : list Frame)
    (vss : list (list float64)) (fuel : nat) :
  col b = 1 ->
  checkColType (vi_colMeta b).2 TFloat = Done tt ->
  framed (stream (vi_data b)) ->
  pending (vi_data b) = run ++ tail ->
  Forall2 (fun f vs => float_view f = Some vs) run vss ->
  (tail = [] \/ exists tags tl, tail = Series tags :: tl) ->
  length run < fuel ->
  exists b',
    DoFloat checkColType fuel b = Closed vss b'
    /\ pending (vi_data b') = tail
    /\ framed (stream (vi_data b')).
Proof.
  intros Hcol Hcc Hfr Hp Hrun Htail Hfuel.
  unfold DoFloat, DoColumn. rewrite Hcol. simpl. rewrite Hcc.
  destruct (Do_loop_run assertFloat 1 float_view advance_float_view vss run tail fuel b [])
    as (b' & Hloop & Hp' & Hfr' & _); auto.
  exists b'. auto.
Qed.

(** X4.  DoFloat on the value column of an iterator whose check of the
    column type passes: the callback receives, frame by frame and in
    order, the values of the float frames that come before the next
    series frame or the end of the stream; then the loop ends, with
    that series frame still to come. *)
Theorem DoFloat_delivers_float_values :
  forall (checkColType : ColMeta -> DataType -> outcome unit)
         (b : storageBlockValueIterator) (run tail : list Frame)
         (vss : list (list float64)) (fuel : nat),
    col b = 1 ->
    checkColType (vi_colMeta b).2 TFloat = Done tt ->
    framed (stream (vi_data b)) ->
    pending (vi_data b) = run ++ tail ->
    Forall2 (fun f vs => float_view f = Some vs) run vss ->
    (tail = [] \/ exists tags tl, tail = Series tags :: tl) ->
    length run < fuel ->
    exists b',
      DoFloat checkColType fuel b = Closed vss b'
      /\ pending (vi_data b') = tail.
Proof.
  intros cc b run tail vss fuel Hcol Hcc Hfr Hp Hrun Htail Hfuel.
  destruct (DoFloat_run cc b run tail vss fuel) as (b' & Hdo & Hp' & _); auto.
  exists b'. split; [exact Hdo|exact Hp'].
Qed.

(** X5.  DoTime on the time column: the callback receives the
    timestamps of every points frame, integer or float, that comes
    before the next series frame or the end of the stream. *)
Theorem DoTime_delivers_timestamps :
  forall (checkColType : ColMeta -> DataType -> outcome unit)
         (b : storageBlockValueIterator) (run tail : list Frame)
         (tss : list (list Time)) (fuel : nat),
    col b = 0 ->
    checkColType (vi_colMeta b).1 TTime = Done tt ->
    framed (stream (vi_data b)) ->
    pending (vi_data b) = run ++ tail ->
    Forall2 (fun f ts => time_view f = Some ts) run tss ->
    (tail = [] \/ exists tags tl, tail = Series tags :: tl) ->
    length run < fuel ->
    exists b',
      DoTime checkColType fuel b = Closed tss b'
      /\ pending (vi_data b') = tail.
Proof.
  intros cc b run tail tss fuel Hcol Hcc Hfr Hp Hrun Htail Hfuel.
  unfold DoTime, DoColumn. rewrite Hcol. simpl. rewrite Hcc.
  destruct (Do_loop_run assertTime 0 time_view advance_time_view tss run tail fuel b [])
    as (b' & Hloop & Hp' & _); auto.
  exists b'. split; [exact Hloop|exact Hp'].
Qed.

(** X6.  An integer frame under DoFloat: [advance] puts the int64
    buffer into column buffer 1, and the assertion of the callback
    argument to a float slice panics.  The typed accessor AtFloat
    panics on that buffer in the same way. *)
Theorem DoFloat_panics_on_integer_frame :
  forall (checkColType : ColMeta -> DataType -> outcome unit)
         (b : storageBlockValueIterator) (ts vs : list Z) (rest : list Frame)
         (fuel : nat),
    col b = 1 ->
    checkColType (vi_colMeta b).2 TFloat = Done tt ->
    rep (vi_data b) = IntegerPoints ts vs :: rest ->
    length ts <= length vs ->
    DoFloat checkColType (S fuel) b = DoPanicked "interface conversion"
    /\ exists b',
         advance b = Done (true, b')
         /\ forall i, AtFloat checkColType b' i 1 = Panic "interface conversion".
Proof.
  intros cc b ts vs rest fuel Hcol Hcc Hrep Hlen.
  pose proof (advance_copies_points_frame b _ rest Hrep) as Hadv. simpl in Hadv.
  destruct (decide (length ts <= length vs)); [|lia].
  split.
  - unfold DoFloat, DoColumn. rewrite Hcol. simpl. rewrite Hcc, Hadv. simpl.
    rewrite Hcol. reflexivity.
  - eexists. split; [exact Hadv|]. intros i. unfold AtFloat, AtColumn. simpl.
    now rewrite Hcc.
Qed.




(** ** Do with a consumer that reads the values *)

(** A consumer that reads the values of the block with DoFloat; the
    block is read when DoFloat has closed [done]. *)
Definition read_values (checkColType : ColMeta -> DataType -> outcome unit)
    (fuel : nat) (block : storageBlock) (s : readState) : option readState :=
  match DoFloat checkColType fuel (Values block s) with
  | Closed _ b => Some (vi_data b)
  | _ => None
  end.

(** The frames of a series: its series frame and its points frames. *)
Definition series_frames (g : list (string * string) * list Frame) : list Frame :=
  Series g.1 :: g.2.

Lemma views_exist {V : Type} (view : Frame -> option (list V)) (run : list Frame) :
  Forall (fun f => is_Some (view f)) run ->
  exists vss, Forall2 (fun f vs => view f = Some vs) run vss.
Proof.
  induction 1 as [|f run [vs Hv] _ [vss IH]].
  - exists []. constructor.
  - exists (vs :: vss). now constructor.
Qed.

Lemma Do_series_run (checkColType : ColMeta -> DataType -> outcome unit)
    (bounds : Bounds) (inner : nat)
    (groups : list (list (string * string) * list Frame)) :
  checkColType ValueCol TFloat = Done tt ->
  forall (fuel : nat) (s : readState) (delivered : list storageBlock),
    framed (stream s) ->
    pending s = concat (series_frames <$> groups) ->
    Forall (fun g => Forall (fun f => is_Some (float_view f)) g.2) groups ->
    length (pending s) < inner ->
    length groups < fuel ->
    exists s',
      Do fuel (read_values checkColType inner) bounds s delivered =
        Returned (delivered ++
                  ((fun g => mkBlock bounds (series_tags g.1) (TimeCol, ValueCol))
                     <$> groups)) s'
      /\ pending s' = [].
Proof.
  intros Hcc. induction groups as [|[tags pts] groups IH];
    intros fuel s delivered Hfr Hp Hok Hinner Hfuel.
  - destruct fuel as [|fuel]; [simpl in Hfuel; lia|]. simpl in *.
    rewrite (more_none s Hfr Hp), app_nil_r. eauto.
  - destruct fuel as [|fuel]; [simpl in Hfuel; lia|]. simpl in Hfuel.
    apply Forall_cons in Hok as [Hpts Hok]. simpl in Hpts.
    cbn [fmap list_fmap concat series_frames fst snd] in Hp.
    unfold series_frames in Hp. simpl in Hp.
    destruct (more_some s _ _ Hfr Hp) as (s1 & rest & Hm & Hrep & Hp1 & Hfr1).
    cbn [Do]. rewrite Hm. unfold peek, next. rewrite Hrep.
    rewrite bool_decide_eq_false_2 by (intros H; now apply H).
    destruct (views_exist float_view pts Hpts) as [vss Hvss].
    set (block := mkBlock bounds (series_tags tags) (TimeCol, ValueCol)).
    assert (Hp2 : pending (mkReadState (stream s1) rest) =
                  pts ++ concat (series_frames <$> groups)).
    { unfold pending in *. simpl. rewrite Hrep in Hp1. simpl in Hp1.
      now injection Hp1. }
    destruct (DoFloat_run checkColType
                (Values block (mkReadState (stream s1) rest)) pts
                (concat (series_frames <$> groups)) vss inner)
      as (b' & Hdo & Hp' & Hfr'); auto.
    { destruct groups as [|[tags' pts'] groups']; [now left|right].
      simpl. unfold series_frames. simpl. eauto. }
    { rewrite Hp in Hinner. simpl in Hinner. rewrite length_app in Hinner. lia. }
    unfold read_values at 1. rewrite Hdo.
    destruct (IH fuel (vi_data b') (delivered ++ [block])) as (s' & Hrun & Hend); auto.
    { rewrite Hp'. rewrite Hp in Hinner. cbn [length] in Hinner.
      rewrite length_app in Hinner. unfold series_frames in *. lia. }
    { lia. }
    exists s'. rewrite Hrun, <- app_assoc. auto.
Qed.

(** X8.  [Do] over a stream of series, each a series frame followed by
    float frames, with a consumer that reads the values of each block
    with DoFloat: [Do] returns, having delivered one block per series
    frame, in the order of the stream, each with the bounds of the
    iterator, the tags of its series frame and the columns time and
    value; nothing is left to read. *)
Theorem Do_delivers_block_per_series :
  forall (checkColType : ColMeta -> DataType -> outcome unit) (bounds : Bounds)
         (s : readState) (groups : list (list (string * string) * list Frame))
         (fuel : nat),
    checkColType ValueCol TFloat = Done tt ->
    framed (stream s) ->
    pending s = concat (series_frames <$> groups) ->
    Forall (fun g => Forall (fun f => is_Some (float_view f)) g.2) groups ->
    length (pending s) < fuel ->
    exists s',
      Do fuel (read_values checkColType fuel) bounds s [] =
        Returned ((fun g => mkBlock bounds (series_tags g.1) (TimeCol, ValueCol))
                    <$> groups) s'
      /\ pending s' = [].
Proof.
  intros cc bounds s groups fuel Hcc Hfr Hp Hok Hfuel.
  apply (Do_series_run cc bounds fuel groups Hcc fuel s []); auto.
  rewrite Hp in Hfuel.
  assert (Hlen : length groups <= length (concat (series_frames <$> groups))).
  { clear. induction groups as [|g groups IH]; [simpl; lia|].
    cbn [fmap list_fmap concat length]. rewrite length_app.
    unfold series_frames at 1. cbn [length]. fold (fmap series_frames groups). lia. }
  lia.
Qed.


(** ** The tags of a series *)

Lemma series_tags_fold (ts : list (string * string)) (k : string) :
  forall m : gmap string string,
    foldl (fun (m : gmap string string) t => <[t.1 := t.2]> m) m ts !! k =
      match last (filter (fun t => t.1 = k) ts) with
      | Some t => Some t.2
      | None => m !! k
      end.
Proof.
  induction ts as [|t ts IH]; intros m; simpl; [reflexivity|].
  rewrite IH, filter_cons. destruct (decide (t.1 = k)) as [Heq|Hne].
  - rewrite last_cons. destruct (last (filter (fun t => t.1 = k) ts)); [reflexivity|].
    rewrite <- Heq. apply lookup_insert_eq.
  - destruct (last (filter (fun t => t.1 = k) ts)); [reflexivity|].
    now apply lookup_insert_ne.
Qed.

(** X9.  The tag map of a block: a key of the series frame maps to the
    value of its last occurrence in the frame, and a key that the frame
    does not have is not in the map. *)
Theorem series_tags_last_wins :
  forall (ts : list (string * string)) (k : string),
    series_tags ts !! k = snd <$> last (filter (fun t => t.1 = k) ts).
Proof.
  intros ts k. unfold series_tags. rewrite series_tags_fold.
  destruct (last (filter (fun t => t.1 = k) ts)); reflexivity.
Qed.

(** ** Instances *)

(** A check of the column type that panics on a mismatch. *)
Definition check_types (meta : ColMeta) (typ : DataType) : outcome unit :=
  if bool_decide (Type_ meta = typ) then Done tt else Panic "column type mismatch".

Definition f1 : float64 := S754_finite false 1 0.
Definition f2 : float64 := S754_finite false 1 1.

(** Two series in two messages; the first has a surplus value. *)
Definition two_series : readState :=
  mkReadState
    [RecvResponse [Series [("host", "a")]; FloatPoints [1%Z; 2%Z] [f1; f2; f1]];
     RecvResponse [FloatPoints [3%Z] [f2]; Series [("host", "b")]]]
    [].

Definition block_a : storageBlock :=
  mkBlock (mkBounds 0%Z 10%Z) (series_tags [("host", "a")]) (TimeCol, ValueCol).

Definition after_series_a : readState :=
  mkReadState [RecvResponse [FloatPoints [3%Z] [f2]; Series [("host", "b")]]]
    [FloatPoints [1%Z; 2%Z] [f1; f2; f1]].

Lemma advance_copies_points_frame_witness :
  advance (Values block_a after_series_a) =
    Done (true, after_points (Values block_a after_series_a) []
                  (TimeBuf [1%Z; 2%Z], FloatBuf [f1; f2]) [1%Z; 2%Z] [f1; f2] []).
Proof.
  exact (advance_copies_points_frame (Values block_a after_series_a)
           (FloatPoints [1%Z; 2%Z] [f1; f2; f1]) [] eq_refl).
Defined.

Lemma DoFloat_delivers_float_values_witness :
  exists b',
    DoFloat check_types 3 (Values block_a after_series_a) = Closed [[f1; f2]; [f2]] b'
    /\ pending (vi_data b') = [Series [("host", "b")]].
Proof.
  apply (DoFloat_delivers_float_values check_types (Values block_a after_series_a)
           [FloatPoints [1%Z; 2%Z] [f1; f2; f1]; FloatPoints [3%Z] [f2]]
           [Series [("host", "b")]] [[f1; f2]; [f2]] 3).
  - reflexivity.
  - reflexivity.
  - repeat constructor; discriminate.
  - reflexivity.
  - repeat constructor.
  - right. eauto.
  - simpl. lia.
Defined.

Lemma DoTime_delivers_timestamps_witness :
  exists b',
    DoTime check_types 3 (Times block_a after_series_a) = Closed [[1%Z; 2%Z]; [3%Z]] b'
    /\ pending (vi_data b') = [Series [("host", "b")]].
Proof.
  apply (DoTime_delivers_timestamps check_types (Times block_a after_series_a)
           [FloatPoints [1%Z; 2%Z] [f1; f2; f1]; FloatPoints [3%Z] [f2]]
           [Series [("host", "b")]] [[1%Z; 2%Z]; [3%Z]] 3).
  - reflexivity.
  - reflexivity.
  - repeat constructor; discriminate.
  - reflexivity.
  - repeat constructor.
  - right. eauto.
  - simpl. lia.
Defined.

Definition integer_series : readState :=
  mkReadState [] [IntegerPoints [1%Z; 2%Z] [10%Z; 20%Z]].

Lemma DoFloat_panics_on_integer_frame_witness :
  DoFloat check_types 1 (Values block_a integer_series) = DoPanicked "interface conversion".
Proof.
  exact (proj1 (DoFloat_panics_on_integer_frame check_types
                  (Values block_a integer_series) [1%Z; 2%Z] [10%Z; 20%Z] [] 0
                  eq_refl eq_refl eq_refl ltac:(simpl; lia))).
Defined.

Definition string_block : storageBlock :=
  mkBlock (mkBounds 0%Z 10%Z) ∅ (TimeCol, mkColMeta "value" TString false false).


Lemma Do_delivers_block_per_series_witness :
  exists s',
    Do 5 (read_values check_types 5) (mkBounds 0%Z 10%Z) two_series [] =
      Returned [block_a;
                mkBlock (mkBounds 0%Z 10%Z) (series_tags [("host", "b")])
                  (TimeCol, ValueCol)] s'
    /\ pending s' = [].
Proof.
  apply (Do_delivers_block_per_series check_types (mkBounds 0%Z 10%Z) two_series
           [([("host", "a")],
             [FloatPoints [1%Z; 2%Z] [f1; f2; f1]; FloatPoints [3%Z] [f2]]);
            ([("host", "b")], [])] 5).
  - reflexivity.
  - repeat constructor; discriminate.
  - reflexivity.
  - repeat constructor; simpl; eauto.
  - simpl. lia.
Defined.

End StorageIterFacts.

(** * Properties of the max selector over the frames of a block *)
Module MaxFramesFacts.
Import MaxSelect.
Local Open Scope nat_scope.

(** A frame as a typed selector receives it: the values of the column
    and the reader of the rows. *)
Definition frame (V : Type) : Type := (list V * RowReader)%type.

(** All values of the frames, in order. *)
Definition values {V : Type} (frames : list (frame V)) : list V :=
  concat (fst <$> frames).

(** The selector holds the first greatest value of the frames: its max
    is the value of row [k] of frame [i], that row is the one selected,
    no value of any frame exceeds it, and every value before it, in an
    earlier frame or an earlier row, is strictly smaller. *)
Definition holds_first_max {V : Type} (gt : V -> V -> bool)
    (frames : list (frame V)) (s : MaxTypedSelector V) : Prop :=
  exists (i : nat) (vs : list V) (rr : RowReader) (k : nat),
    frames !! i = Some (vs, rr)
    /\ vs !! k = Some (max s)
    /\ base s = mkMaxSelector true [ReadRow (Z.of_nat k) rr]
    /\ (forall v, v ∈ values frames -> gt v (max s) = false)
    /\ (forall j v, j < k -> vs !! j = Some v -> gt (max s) v = true)
    /\ (forall i' fr v, i' < i -> frames !! i' = Some fr -> v ∈ fr.1 ->
          gt (max s) v = true).

Lemma values_snoc {V : Type} (frames : list (frame V)) (fr : frame V) :
  values (frames ++ [fr]) = values frames ++ fr.1.
Proof.
  unfold values. rewrite fmap_app, concat_app. simpl. now rewrite app_nil_r.
Qed.

Lemma elem_of_values {V : Type} (frames : list (frame V)) i fr v :
  frames !! i = Some fr -> v ∈ fr.1 -> v ∈ values frames.
Proof.
  revert i. induction frames as [|fr' frames IH]; intros [|i] Hi Hv; simpl in Hi;
    try discriminate; unfold values; simpl; apply elem_of_app.
  - injection Hi as ->. now left.
  - right. eapply IH; eauto.
Qed.

Section Generic.
Context {V : Type}.
Variable gt : V -> V -> bool.
Variable valid : V -> Prop.
Hypothesis gt_irrefl : forall a, valid a -> gt a a = false.
Hypothesis gt_trans : forall a b c,
  valid a -> valid b -> valid c -> gt a b = true -> gt b c = true -> gt a c = true.
Hypothesis ngt_trans : forall a b c,
  valid a -> valid b -> valid c -> gt a b = false -> gt b c = false -> gt a c = false.

Variable zero : V.

Definition new_selector : MaxTypedSelector V := mkTyped (mkMaxSelector false []) zero.

Definition run (frames : list (frame V)) : MaxTypedSelector V :=
  foldl (fun s fr => DoTyped gt s fr.1 fr.2) new_selector frames.

Lemma run_spec (frames : list (frame V)) :
  Forall valid (values frames) ->
  (values frames = [] /\ run frames = new_selector)
  \/ (values frames <> [] /\ holds_first_max gt frames (run frames)).
Proof.
  induction frames as [|[vs rr] frames IH] using rev_ind; intros Hvalid.
  - left. split; reflexivity.
  - rewrite values_snoc in Hvalid. simpl in Hvalid.
    apply Forall_app in Hvalid as [Hold Hvs].
    unfold run. rewrite foldl_snoc. fold (run frames). simpl.
    rewrite values_snoc. simpl.
    assert (Hs : set (base (run frames)) = true -> valid (max (run frames))).
    { intros Hset. destruct (IH Hold) as [[_ Hnew]|[_ Hmax]].
      - rewrite Hnew in Hset. discriminate.
      - destruct Hmax as (i & ws & rr' & k & Hi & Hk & _).
        eapply Forall_forall; [exact Hold|].
        eapply elem_of_values; [exact Hi|]. simpl.
        eapply list_elem_of_lookup_2, Hk. }
    destruct (MaxFacts.DoTyped_spec gt valid gt_irrefl gt_trans ngt_trans
                (run frames) vs rr Hvs Hs) as [Hle Hcases].
    set (s := run frames) in *. set (s1 := DoTyped gt s vs rr) in *.
    destruct Hcases as [[Hnone Heq]|(k & Hk & Hbase & Hfirst & Hgt)].
    + rewrite Heq. destruct (IH Hold) as [[Hnil Hnew]|[Hne Hmax]].
      * left. rewrite Hnil. simpl. split; [|exact Hnew].
        destruct vs as [|v vs]; [reflexivity|].
        destruct (Hnone v (list_elem_of_here _ _)) as [Hset _].
        rewrite Hnew in Hset. discriminate.
      * right. split; [intros H; apply app_eq_nil in H as [H _]; contradiction|].
        destruct Hmax as (i & ws & rr' & k & Hi & Hk & Hb & Hall & Hrows & Hframes).
        exists i, ws, rr', k. split; [now apply lookup_app_l_Some|].
        split; [exact Hk|]. split; [exact Hb|]. split; [|split; [exact Hrows|]].
        -- intros v Hv. rewrite values_snoc in Hv.
           apply elem_of_app in Hv as [Hv|Hv]; [now apply Hall|].
           now apply Hnone.
        -- intros i' fr v Hi' Hfr Hv. apply (Hframes i' fr v Hi'); [|exact Hv].
           rewrite lookup_app_l in Hfr; [exact Hfr|].
           apply lookup_lt_Some in Hi. lia.
    + right.
      assert (Hm1 : valid (max s1)).
      { eapply Forall_forall; [exact Hvs|]. eapply list_elem_of_lookup_2, Hk. }
      split.
      { intros H. apply app_eq_nil in H as [_ H]. subst vs. rewrite lookup_nil in Hk.
        discriminate. }
      assert (Hprev : forall v, v ∈ values frames ->
                gt v (max s1) = false /\ gt (max s1) v = true).
      { intros v Hv. destruct (IH Hold) as [[Hnil _]|[_ Hmax]].
        - rewrite Hnil in Hv. inversion Hv.
        - destruct Hmax as (i & ws & rr' & k' & Hi & Hk' & Hb & Hall & _).
          assert (Hset : set (base s) = true) by now rewrite Hb.
          specialize (Hgt Hset). specialize (Hs Hset).
          assert (Hv' : valid v) by exact (proj1 (Forall_forall _ _) Hold v Hv).
          pose proof (Hall v Hv) as Hvs'.
          split.
          + apply ngt_trans with (max s); auto.
            apply (MaxFacts.gt_asym gt valid gt_irrefl gt_trans); auto.
          + destruct (gt (max s1) v) eqn:Hc; [reflexivity|].
            rewrite <- Hgt. symmetry. now apply ngt_trans with v. }
      exists (length frames), vs, rr, k.
      split; [now apply list_lookup_middle|]. split; [exact Hk|]. split; [exact Hbase|].
      split; [|split; [exact Hfirst|]].
      * intros v Hv. rewrite values_snoc in Hv.
        apply elem_of_app in Hv as [Hv|Hv]; [now apply Hprev|now apply Hle].
      * intros i' fr v Hi' Hfr Hv. rewrite lookup_app_l in Hfr by exact Hi'.
        apply Hprev. eapply elem_of_values; eauto.
Qed.

End Generic.

(** X10.  A new selector that has received the frames of a block, one
    call of DoInt, DoUInt or DoFloat per frame: if the frames hold no
    value the selector is as new and [Rows] returns nothing; otherwise
    it holds the greatest value of all frames and exactly one row, the
    first one with that value across the frames.  For DoFloat the
    values are not NaN. *)
Theorem max_over_frames :
  (forall frames : list (frame Z),
      let s := foldl (fun s fr => DoInt s fr.1 fr.2) newMaxInt frames in
      (values frames = [] /\ s = newMaxInt /\ Rows (base s) = [])
      \/ (values frames <> [] /\ holds_first_max Z.gtb frames s
          /\ length (Rows (base s)) = 1))
  /\ (forall frames : list (frame Z),
        let s := foldl (fun s fr => DoUInt s fr.1 fr.2) newMaxUInt frames in
        (values frames = [] /\ s = newMaxUInt /\ Rows (base s) = [])
        \/ (values frames <> [] /\ holds_first_max Z.gtb frames s
            /\ length (Rows (base s)) = 1))
  /\ (forall frames : list (frame float64),
        Forall MaxFacts.not_nan (values frames) ->
        let s := foldl (fun s fr => DoFloat s fr.1 fr.2) newMaxFloat frames in
        (values frames = [] /\ s = newMaxFloat /\ Rows (base s) = [])
        \/ (values frames <> [] /\ holds_first_max float_gt frames s
            /\ length (Rows (base s)) = 1)).
Proof.
  assert (Hrows : forall V (gt : V -> V -> bool) frames s,
            holds_first_max gt frames s -> length (Rows (base s)) = 1).
  { intros V gt frames s (i & vs & rr & k & _ & _ & Hb & _). now rewrite Hb. }
  split; [|split].
  - intros frames s.
    assert (Hs : s = run Z.gtb 0%Z frames) by reflexivity. clearbody s. subst s.
    destruct (run_spec Z.gtb (fun _ => True) MaxFacts.Z_gtb_irrefl MaxFacts.Z_gtb_trans
                MaxFacts.Z_ngtb_trans 0%Z frames) as [[Hnil Hnew]|[Hne Hmax]].
    + now apply Forall_forall.
    + left. rewrite Hnew. auto.
    + right. split; [exact Hne|]. split; [exact Hmax|]. eapply Hrows, Hmax.
  - intros frames s.
    assert (Hs : s = run Z.gtb 0%Z frames) by reflexivity. clearbody s. subst s.
    destruct (run_spec Z.gtb (fun _ => True) MaxFacts.Z_gtb_irrefl MaxFacts.Z_gtb_trans
                MaxFacts.Z_ngtb_trans 0%Z frames) as [[Hnil Hnew]|[Hne Hmax]].
    + now apply Forall_forall.
    + left. rewrite Hnew. auto.
    + right. split; [exact Hne|]. split; [exact Hmax|]. eapply Hrows, Hmax.
  - intros frames Hvalid s.
    assert (Hs : s = run float_gt (S754_zero false) frames) by reflexivity.
    clearbody s. subst s.
    destruct (run_spec float_gt MaxFacts.not_nan MaxFacts.float_gt_irrefl
                MaxFacts.float_gt_trans MaxFacts.float_ngt_trans (S754_zero false)
                frames Hvalid) as [[Hnil Hnew]|[Hne Hmax]].
    + left. rewrite Hnew. auto.
    + right. split; [exact Hne|]. split; [exact Hmax|]. eapply Hrows, Hmax.
Qed.

(** ** NaN *)

Lemma float_gt_nan_r (v : float64) : float_gt v S754_nan = false.
Proof. reflexivity. Qed.

Lemma float_gt_nan_l (m : float64) : float_gt S754_nan m = false.
Proof. unfold float_gt, SFltb, SFcompare. now destruct m as [[]|[]| |[]]. Qed.

Lemma range_loop_nan (vs : list float64) :
  forall (s : MaxFloatSelector) (maxIdx i : Z),
    set (base s) = true -> max s = S754_nan ->
    range_loop float_gt s maxIdx i vs = (s, maxIdx).
Proof.
  induction vs as [|v vs IH]; intros s maxIdx i Hset Hmax; simpl; [reflexivity|].
  rewrite Hset, Hmax, float_gt_nan_r. simpl. now apply IH.
Qed.

Lemma range_loop_number (vs : list float64) :
  forall (s s' : MaxFloatSelector) (maxIdx i idx' : Z),
    set (base s) = true -> max s <> S754_nan ->
    range_loop float_gt s maxIdx i vs = (s', idx') ->
    max s' <> S754_nan.
Proof.
  induction vs as [|v vs IH]; intros s s' maxIdx i idx' Hset Hmax Hloop; simpl in Hloop.
  - now injection Hloop as <- _.
  - rewrite Hset in Hloop. simpl in Hloop. destruct (float_gt v (max s)) eqn:Hgt.
    + eapply IH; [| |exact Hloop]; simpl; [reflexivity|].
      intros ->. now rewrite float_gt_nan_l in Hgt.
    + eapply IH; eauto.
Qed.

(** X11.  NaN under DoFloat.  A selector that is set with NaN as its
    max is left as it is by every frame: no value is greater than NaN.
    A selector that is set with a number never takes a NaN.  A selector
    that is not set takes the first value it sees, also a NaN. *)
Theorem DoFloat_nan :
  forall (s : MaxFloatSelector) (vs : list float64) (rr : RowReader),
    (set (base s) = true -> max s = S754_nan -> DoFloat s vs rr = s)
    /\ (set (base s) = true -> max s <> S754_nan -> max (DoFloat s vs rr) <> S754_nan)
    /\ (set (base s) = false ->
          DoFloat s (S754_nan :: vs) rr =
            mkTyped (mkMaxSelector true [ReadRow 0 rr]) S754_nan).
Proof.
  intros s vs rr. split; [|split].
  - intros Hset Hmax. unfold DoFloat, DoTyped.
    rewrite (range_loop_nan vs s (-1) 0 Hset Hmax). unfold selectRow. simpl.
    now destruct s.
  - intros Hset Hmax. unfold DoFloat, DoTyped.
    destruct (range_loop float_gt s (-1) 0 vs) as [s' idx'] eqn:Hloop. simpl.
    eapply range_loop_number; eauto.
  - intros Hset. unfold DoFloat, DoTyped. simpl. rewrite Hset. simpl.
    rewrite range_loop_nan by reflexivity. reflexivity.
Qed.

Definition row_at (i : Z) : Row := mkRow [CTime (10 * i)%Z; CFloat (S754_finite false 1 i)].

Lemma max_over_frames_witness :
  let frames := [([S754_finite false 1 0; S754_finite false 1 2], row_at);
                 ([S754_finite false 1 2; S754_finite false 1 1], row_at)] in
  let s := foldl (fun s fr => DoFloat s fr.1 fr.2) newMaxFloat frames in
  (values frames = [] /\ s = newMaxFloat /\ Rows (base s) = [])
  \/ (values frames <> [] /\ holds_first_max float_gt frames s
      /\ length (Rows (base s)) = 1).
Proof.
  apply (proj2 (proj2 max_over_frames)).
  repeat constructor; discriminate.
Defined.

Lemma DoFloat_nan_witness :
  DoFloat (mkTyped (mkMaxSelector true [row_at 0]) S754_nan)
    [S754_finite false 1 0; S754_infinity false] row_at
  = mkTyped (mkMaxSelector true [row_at 0]) S754_nan.
Proof.
  exact (proj1 (DoFloat_nan (mkTyped (mkMaxSelector true [row_at 0]) S754_nan)
                  [S754_finite false 1 0; S754_infinity false] row_at)
           eq_refl eq_refl).
Defined.

End MaxFramesFacts.

(** * Properties of the select source *)
Module SelectFacts.
Import Eval Select.

Definition int64 (z : Z) : Prop := - 2 ^ 63 <= z < 2 ^ 63.

Lemma wrap64_range (z : Z) : int64 (wrap64 z).
Proof.
  unfold int64, wrap64. pose proof (Z.mod_pos_bound (z + 2 ^ 63) (2 ^ 64)). lia.
Qed.

Lemma wrap64_add_sub (a b : Z) : int64 b -> int64_add a (int64_sub b a) = b.
Proof.
  unfold int64, int64_add, int64_sub, wrap64. intros Hb.
  change (2 ^ 63) with 9223372036854775808 in *.
  change (2 ^ 64) with 18446744073709551616 in *.
  Z.div_mod_to_equations. lia.
Qed.

(** X12.  A select procedure without a window: the source gets one
    window that spans the bounds, and its first trigger time is the
    stop of the bounds, also when the difference of stop and start
    overflows an int64.  The read spec carries the database, predicate,
    limit and direction of the procedure. *)
Theorem createSelectSource_spans_bounds :
  forall (ResolveTime : queryTime.t -> Time) (spec : SelectProcedureSpec),
    WindowSet spec = false ->
    int64 (ResolveTime (Plan.Bounds_Stop (Bounds spec))) ->
    let start := ResolveTime (Plan.Bounds_Start (Bounds spec)) in
    let stop := ResolveTime (Plan.Bounds_Stop (Bounds spec)) in
    exists src,
      createSelectSource ResolveTime (SelectSpec spec) = Done src
      /\ source_bounds src = mkBounds start stop
      /\ Start_ (window src) = start
      /\ Every (window src) = int64_sub stop start
      /\ Period (window src) = int64_sub stop start
      /\ currentTime src = stop
      /\ readSpec src =
           Storage.ReadSpec.mk (Database spec) (Where spec) (Limit spec) (Descending spec).
Proof.
  intros ResolveTime spec Hw Hstop start stop. unfold createSelectSource. rewrite Hw.
  eexists. split; [reflexivity|]. simpl. repeat split.
  now apply wrap64_add_sub.
Qed.

Definition seconds (t : queryTime.t) : Time := queryTime.Absolute t.

Definition wide_bounds : SelectProcedureSpec :=
  mkSelect "mydb" true
    (Plan.mkBoundsSpec (queryTime.mk (- 2 ^ 63) 0 false) (queryTime.mk (2 ^ 63 - 1) 0 false))
    false None false false false 0 0 false WindowSpec_zero.

Lemma createSelectSource_spans_bounds_witness :
  exists src,
    createSelectSource seconds (SelectSpec wide_bounds) = Done src
    /\ Every (window src) = -1
    /\ currentTime src = 2 ^ 63 - 1.
Proof.
  destruct (createSelectSource_spans_bounds seconds wide_bounds eq_refl)
    as (src & Hsrc & _ & _ & Hevery & _ & Hcur & _).
  - unfold int64. simpl. lia.
  - exists src. split; [exact Hsrc|]. split; [|exact Hcur].
    rewrite Hevery. reflexivity.
Defined.

End SelectFacts.

(** * Properties of the filter transformation: whole blocks *)
Module FilterBlockFacts.
Import Filter FilterFacts.
Local Open Scope nat_scope.

(** The scope after the properties were read from a row. *)
Definition row_scope (props : list ObjectProperty) (scopeCols : gmap string Z)
    (row : list cell) (scope : Scope) : Scope :=
  foldl (fun (sc : Scope) op =>
           match row !! Z.to_nat (default 0%Z (scopeCols !! Property op)) with
           | Some v => <[op := v]> sc
           | None => sc
           end)
        scope props.

Lemma fill_scope_row_scope (i : nat) (rr : RowReader) (row : list cell)
    (scopeCols : gmap string Z) :
  rr !! i = Some row ->
  forall (props : list ObjectProperty) (scope : Scope),
    scope_in_range props scopeCols (length row) ->
    fill_scope props scopeCols i rr scope = Done (row_scope props scopeCols row scope).
Proof.
  intros Hrow props. induction props as [|op props IH]; intros scope Hrange; simpl.
  - reflexivity.
  - pose proof (Hrange op (list_elem_of_here _ _)) as Hop.
    unfold ValueForRow.
    replace (default 0%Z (scopeCols !! Property op) <? 0)%Z with false
      by (symmetry; apply Z.ltb_ge; lia).
    rewrite Hrow.
    destruct (lookup_lt_is_Some_2 row
                (Z.to_nat (default 0%Z (scopeCols !! Property op)))) as [v Hv]; [lia|].
    rewrite Hv. apply IH. intros op' Hin. apply Hrange. now right.
Qed.

Lemma row_scope_other (scopeCols : gmap string Z) (row : list cell) (k : ObjectProperty) :
  forall (props : list ObjectProperty) (scope : Scope),
    k ∉ props -> row_scope props scopeCols row scope !! k = scope !! k.
Proof.
  induction props as [|op props IH]; intros scope Hk; simpl; [reflexivity|].
  apply not_elem_of_cons in Hk as [Hne Hk]. rewrite IH by exact Hk.
  destruct (row !! Z.to_nat (default 0%Z (scopeCols !! Property op))); [|reflexivity].
  now apply lookup_insert_ne.
Qed.

Lemma row_scope_agree (scopeCols : gmap string Z) (row : list cell) :
  forall (props : list ObjectProperty) (s1 s2 : Scope),
    scope_in_range props scopeCols (length row) ->
    (forall k, k ∉ props -> s1 !! k = s2 !! k) ->
    row_scope props scopeCols row s1 = row_scope props scopeCols row s2.
Proof.
  induction props as [|op props IH]; intros s1 s2 Hrange Hagree; simpl.
  - apply map_eq. intros k. apply Hagree. apply not_elem_of_nil.
  - pose proof (Hrange op (list_elem_of_here _ _)) as Hop.
    destruct (lookup_lt_is_Some_2 row
                (Z.to_nat (default 0%Z (scopeCols !! Property op)))) as [v Hv]; [lia|].
    rewrite Hv. apply IH.
    + intros op' Hin. apply Hrange. now right.
    + intros k Hk. destruct (decide (k = op)) as [->|Hne].
      * unfold Scope in *. now rewrite !lookup_insert_eq.
      * unfold Scope in *. rewrite !lookup_insert_ne by auto. apply Hagree.
        intros Hin. apply elem_of_cons in Hin as [?|?]; contradiction.
Qed.

Section Rows.
Variable props : list ObjectProperty.
Variable scopeCols : gmap string Z.
Variable c : CompiledExpression.
Variable cols : list ColMeta.
Variable scope0 : Scope.

Hypothesis in_range : scope_in_range props scopeCols (length cols).

(** Whether the filter function holds for a row. *)
Definition passes (row : list cell) : bool :=
  (EvalBool c (row_scope props scopeCols row scope0)).1.

(** The cells in column [j] of the rows that pass. *)
Definition kept_cells (j : nat) (rows : list (list cell)) : list cell :=
  omap (fun row => row !! j) (filter (fun row => passes row = true) rows).

(** The scope differs from the initial one in the properties only. *)
Definition agrees (scope : Scope) : Prop :=
  forall k, k ∉ props -> scope !! k = scope0 !! k.

Definition appended (rows : list (list cell)) (data data' : list (list cell)) : Prop :=
  forall j meta col, cols !! j = Some meta -> data !! j = Some col ->
    data' !! j = Some (if IsCommon meta then col else col ++ kept_cells j rows).

Lemma process_rows_filter (rr : list (list cell)) :
  (forall row, row ∈ rr -> row_typed cols row) ->
  forall (idx : list nat) (st : rows_state),
    (forall i, i ∈ idx -> i < length rr) ->
    length (builder_data (rs_builder st)) = length cols ->
    agrees (rs_scope st) ->
    exists st',
      process_rows props scopeCols (Some c) cols rr idx st = Done st'
      /\ agrees (rs_scope st')
      /\ builder_cols (rs_builder st') = builder_cols (rs_builder st)
      /\ length (builder_data (rs_builder st')) = length cols
      /\ appended (omap (fun i => rr !! i) idx)
           (builder_data (rs_builder st)) (builder_data (rs_builder st')).
Proof.
  intros Htyped. induction idx as [|i idx IH]; intros st Hidx Hlen Hagree.
  - exists st. simpl. repeat split; auto. intros j meta col Hj Hcol.
    unfold kept_cells. simpl. rewrite app_nil_r. now destruct (IsCommon meta).
  - destruct (lookup_lt_is_Some_2 rr i) as [row Hrow]; [apply Hidx; now left|].
    assert (Hrt : row_typed cols row).
    { apply Htyped. eapply list_elem_of_lookup_2, Hrow. }
    destruct (process_row_spec props scopeCols c cols rr st i row Hrow Hrt in_range Hlen)
      as (scope' & st1 & Hfill & Hrun & Hsc & Hlen1 & Hfalse & Htrue).
    assert (Hrange : scope_in_range props scopeCols (length row)).
    { destruct Hrt as [-> _]. exact in_range. }
    rewrite (fill_scope_row_scope i rr row scopeCols Hrow props _ Hrange) in Hfill.
    injection Hfill as <-.
    rewrite (row_scope_agree scopeCols row props _ scope0 Hrange Hagree) in Hfalse, Htrue, Hsc.
    fold (passes row) in Hfalse, Htrue.
    assert (Hom : omap (fun i => rr !! i) (i :: idx) = row :: omap (fun i => rr !! i) idx).
    { cbn [omap list_omap]. now rewrite Hrow. }
    rewrite Hom. cbn [process_rows]. rewrite Hrun.
    destruct (IH st1) as (st' & Hrun' & Hagree' & Hcols' & Hlen' & Happ').
    { intros i' Hi'. apply Hidx. now right. }
    { exact Hlen1. }
    { rewrite Hsc. intros k Hk. now apply row_scope_other. }
    exists st'. split; [exact Hrun'|]. split; [exact Hagree'|].
    destruct (passes row) eqn:Hpass.
    + destruct (Htrue eq_refl) as (_ & Hcols1 & Hlen1' & Hkept).
      split; [congruence|]. split; [exact Hlen'|].
      intros j meta col Hj Hcol.
      destruct (lookup_lt_is_Some_2 row j) as [v Hv].
      { destruct Hrt as [-> _]. eapply lookup_lt_Some, Hj. }
      rewrite (Happ' j meta _ Hj (Hkept j meta col v Hj Hcol Hv)).
      destruct (IsCommon meta); [reflexivity|].
      unfold kept_cells. rewrite filter_cons, decide_True by exact Hpass.
      simpl. rewrite Hv, <- app_assoc. reflexivity.
    + destruct (Hfalse eq_refl) as [Hb _]. rewrite Hb in *.
      split; [exact Hcols'|]. split; [exact Hlen'|].
      intros j meta col Hj Hcol. rewrite (Happ' j meta col Hj Hcol).
      unfold kept_cells. rewrite filter_cons, decide_False by congruence. reflexivity.
Qed.

Lemma omap_lookup_seq {A : Type} (l : list A) :
  omap (fun i => l !! i) (seq 0 (length l)) = l.
Proof.
  assert (H : forall n k, k + n <= length l ->
            omap (fun i => l !! i) (seq k n) = take n (drop k l)).
  { induction n as [|n IH]; intros k Hk; [reflexivity|].
    destruct (lookup_lt_is_Some_2 l k) as [x Hx]; [lia|].
    cbn [seq omap list_omap]. rewrite Hx, (drop_S l x k Hx). simpl.
    f_equal. apply IH. lia. }
  rewrite H by lia. rewrite drop_0. apply firstn_all.
Qed.

Lemma appended_app (rows1 rows2 : list (list cell)) (d d1 d2 : list (list cell)) :
  appended rows1 d d1 -> appended rows2 d1 d2 -> appended (rows1 ++ rows2) d d2.
Proof.
  intros H1 H2 j meta col Hj Hcol.
  rewrite (H2 j meta _ Hj (H1 j meta col Hj Hcol)).
  destruct (IsCommon meta); [reflexivity|].
  unfold kept_cells. now rewrite filter_app, omap_app, app_assoc.
Qed.

Lemma DoTime_filter :
  forall (frs : list (list (list cell))) (st : rows_state),
    (forall rr row, rr ∈ frs -> row ∈ rr -> row_typed cols row) ->
    length (builder_data (rs_builder st)) = length cols ->
    agrees (rs_scope st) ->
    exists st',
      DoTime props scopeCols (Some c) cols frs st = Done st'
      /\ builder_cols (rs_builder st') = builder_cols (rs_builder st)
      /\ length (builder_data (rs_builder st')) = length cols
      /\ appended (concat frs)
           (builder_data (rs_builder st)) (builder_data (rs_builder st')).
Proof.
  induction frs as [|rr frs IH]; intros st Htyped Hlen Hagree.
  - exists st. simpl. repeat split; auto. intros j meta col Hj Hcol.
    unfold kept_cells. simpl. rewrite app_nil_r. now destruct (IsCommon meta).
  - destruct (process_rows_filter rr) with (idx := seq 0 (length rr)) (st := st)
      as (st1 & Hrun & Hagree1 & Hcols1 & Hlen1 & Happ1); auto.
    { intros row Hrow. apply (Htyped rr); [now left|exact Hrow]. }
    { intros i Hi. apply elem_of_seq in Hi. lia. }
    rewrite omap_lookup_seq in Happ1.
    destruct (IH st1) as (st' & Hrun' & Hcols' & Hlen' & Happ'); auto.
    { intros rr' row Hrr Hrow. apply (Htyped rr'); [now right|exact Hrow]. }
    exists st'. cbn [DoTime]. rewrite Hrun, Hrun'.
    split; [reflexivity|]. split; [congruence|]. split; [exact Hlen'|].
    cbn [concat]. eapply appended_app; eauto.
Qed.

End Rows.

(** X13.  Process on a block whose value kind compiled, with typed
    rows: it returns nil, and the builder of the block, the cached one
    or a new one with the columns of the block, has received in every
    column that is not common the cells of exactly the rows for which
    the filter function holds, in the order of the rows; the common
    columns and the builders of other blocks are left as they are. *)
Theorem Process_appends_passing_rows :
  forall (ValueIdx : list ColMeta -> Z) (t : filterTransformation) (b : Block)
         (valueCol : ColMeta) (c : CompiledExpression),
    (0 <= ValueIdx (Cols b))%Z ->
    Cols b !! Z.to_nat (ValueIdx (Cols b)) = Some valueCol ->
    ces t !! Type_ valueCol = Some (mkExprOrErr None (Some c)) ->
    block_typed b ->
    scope_in_range (properties t)
      (prepare_scope (properties t) (ValueIdx (Cols b)) 0 (Cols b) (scopeCols t))
      (length (Cols b)) ->
    (forall builder, cache t !! Key b = Some builder ->
       length (builder_data builder) = length (Cols b)) ->
    let scopeCols' :=
      prepare_scope (properties t) (ValueIdx (Cols b)) 0 (Cols b) (scopeCols t) in
    let builder0 := default (AddBlockCols b (mkBuilder [] [])) (cache t !! Key b) in
    exists (r : ProcessResult) (builder : BlockBuilder),
      Process ValueIdx t b = Done r
      /\ returned r = None
      /\ cache (transformation r) = <[Key b := builder]> (cache t)
      /\ builder_cols builder = builder_cols builder0
      /\ length (builder_data builder) = length (builder_data builder0)
      /\ forall j meta col,
           Cols b !! j = Some meta ->
           builder_data builder0 !! j = Some col ->
           builder_data builder !! j =
             Some (if IsCommon meta then col
                   else col ++ kept_cells (properties t) scopeCols' c (scope t) j
                                 (concat (frames b))).
Proof.
  intros ValueIdx t b valueCol c Hidx Hcol Hces Htyped Hrange Hcache scopeCols' builder0.
  assert (Hlen0 : length (builder_data builder0) = length (Cols b)).
  { subst builder0. destruct (cache t !! Key b) as [builder|] eqn:Hb; simpl.
    - now apply Hcache.
    - apply length_replicate. }
  destruct (DoTime_filter (properties t) scopeCols' c (Cols b) (scope t) Hrange
              (frames b) (mkRowsState (scope t) builder0 []))
    as (st' & Hrun & Hcols & Hlen & Happ); auto.
  { intros k _. reflexivity. }
  simpl in Hcols, Hlen, Happ.
  exists (mkProcessResult
            (mkFilterTransformation
               (<[Key b := rs_builder st']> (<[Key b := builder0]> (cache t)))
               (properties t) (rs_scope st') scopeCols' (ces t))
            (rs_log st') None), (rs_builder st').
  split.
  - unfold Process.
    replace (ValueIdx (Cols b) <? 0)%Z with false by (symmetry; apply Z.ltb_ge; lia).
    subst builder0 scopeCols'.
    destruct (cache t !! Key b) as [builder|] eqn:Hb; rewrite Hcol, Hces; simpl;
      simpl in Hrun; rewrite Hrun; reflexivity.
  - simpl. split; [reflexivity|]. split; [apply insert_insert_eq|].
    split; [exact Hcols|]. split; [congruence|exact Happ].
Qed.


(** ** A value kind without a compiled expression *)

Lemma process_row_nil (props : list ObjectProperty) (scopeCols : gmap string Z)
    (cols : list ColMeta) (rr : RowReader) (st : rows_state) (i : nat) :
  exists msg, process_row props scopeCols None cols rr st i = Panic msg.
Proof.
  unfold process_row. destruct (fill_scope props scopeCols i rr (rs_scope st)); eauto.
Qed.

Lemma DoTime_nil (props : list ObjectProperty) (scopeCols : gmap string Z)
    (cols : list ColMeta) :
  forall (frs : list (list (list cell))) (st : rows_state),
    (concat frs = [] -> DoTime props scopeCols None cols frs st = Done st)
    /\ (concat frs <> [] -> exists msg, DoTime props scopeCols None cols frs st = Panic msg).
Proof.
  induction frs as [|rr frs IH]; intros st.
  - split; [reflexivity|]. intros H. now contradiction H.
  - cbn [concat DoTime]. destruct rr as [|row rr].
    + simpl. apply IH.
    + split; [discriminate|]. intros _. cbn [length seq process_rows].
      destruct (process_row_nil props scopeCols cols (row :: rr) st 0) as [msg ->].
      eauto.
Qed.

(** X14.  A block whose value column has a kind for which the
    transformation holds no entry: the map of compiled expressions
    yields its zero value, without error and without expression.
    Process returns nil when the block has no rows and panics at the
    first row otherwise. *)
Theorem Process_unknown_value_kind :
  forall (ValueIdx : list ColMeta -> Z) (t : filterTransformation) (b : Block)
         (valueCol : ColMeta),
    (0 <= ValueIdx (Cols b))%Z ->
    Cols b !! Z.to_nat (ValueIdx (Cols b)) = Some valueCol ->
    ces t !! Type_ valueCol = None ->
    (concat (frames b) = [] ->
       exists r, Process ValueIdx t b = Done r /\ returned r = None)
    /\ (concat (frames b) <> [] -> exists msg, Process ValueIdx t b = Panic msg).
Proof.
  intros ValueIdx t b valueCol Hidx Hcol Hces. unfold Process.
  replace (ValueIdx (Cols b) <? 0)%Z with false by (symmetry; apply Z.ltb_ge; lia).
  destruct (cache t !! Key b) as [builder|]; rewrite Hcol, Hces; simpl;
    match goal with |- context [DoTime ?p ?sc None ?cols ?fr ?st] =>
      destruct (DoTime_nil p sc cols fr st) as [Hnil Hrows]
    end.
  - split.
    + intros H. rewrite (Hnil H). eauto.
    + intros H. destruct (Hrows H) as [msg ->]. eauto.
  - split.
    + intros H. rewrite (Hnil H). eauto.
    + intros H. destruct (Hrows H) as [msg ->]. eauto.
Qed.

(** ** Expressions that are not boolean *)

Section Compile.
Variable ObjectProperties : ast.ArrowFunction -> error + list ObjectProperty.
Variable CompileExpression :
  ast.ArrowFunction -> gmap ObjectProperty DataType ->
  option CompiledExpression * option error.
Variable ValueDataTypes : list DataType.
Variable ValueIdx : list ColMeta -> Z.

Definition not_boolean : error := Errorf "expression does not evaluate to boolean".

(** X15.  A filter function that compiles for the value kind [typ] to
    an expression of another type than bool: NewFilterTransformation
    succeeds, stores the error "expression does not evaluate to
    boolean" for [typ] and drops the expression; Process returns that
    error, wrapped, for every block whose value column has kind [typ]. *)
Theorem non_boolean_expression_fails_in_Process :
  forall (cache : gmap BlockKey BlockBuilder) (spec : Plan.FilterProcedureSpec)
         (F : ast.ArrowFunction) (objectName : string)
         (properties : list ObjectProperty) (typ : DataType)
         (c : CompiledExpression),
    Plan.F spec = Some F ->
    ast.Params F = [objectName] ->
    ObjectProperties F = inr properties ->
    (forall typ', typ' ∈ ValueDataTypes ->
       compiles_or_fails CompileExpression F (kind_types objectName properties typ')) ->
    typ ∈ ValueDataTypes ->
    CompileExpression F (kind_types objectName properties typ) = (Some c, None) ->
    ce_Type c <> TBool ->
    exists t : filterTransformation,
      NewFilterTransformation ObjectProperties CompileExpression ValueDataTypes cache spec
        = Done (inr t)
      /\ ces t !! typ = Some (mkExprOrErr (Some not_boolean) None)
      /\ forall (b : Block) (valueCol : ColMeta),
           (0 <= ValueIdx (Cols b))%Z ->
           Cols b !! Z.to_nat (ValueIdx (Cols b)) = Some valueCol ->
           Type_ valueCol = typ ->
           exists r,
             Process ValueIdx t b = Done r
             /\ returned r = Some (Wrapf not_boolean "expression does not support type").
Proof.
  intros cache spec F objectName properties typ c HF Hparams Hprops Hok Hin Hc Hty.
  unfold NewFilterTransformation. rewrite HF, Hparams, Hprops.
  unfold kind_types in *.
  match goal with |- context [compile_kinds _ _ ?v _ ?ty ?c0] =>
    destruct (compile_kinds_spec CompileExpression F v ValueDataTypes ty c0 Hok)
      as (ces & Hrun & _ & Hall)
  end.
  rewrite Hrun. eexists. split; [reflexivity|]. simpl.
  assert (Hstored : ces !! typ = Some (mkExprOrErr (Some not_boolean) None)).
  { rewrite (Hall typ Hin), Hc. simpl. now rewrite bool_decide_eq_true_2. }
  split; [exact Hstored|].
  intros b valueCol Hidx Hcol Htyp.
  destruct (Process_stored_error ValueIdx
              (mkFilterTransformation cache properties ∅ ∅ ces) b valueCol
              not_boolean None Hidx Hcol) as (r & Hr & Hret & _).
  { simpl. rewrite Htyp. exact Hstored. }
  exists r. split; [exact Hr|exact Hret].
Qed.

End Compile.

(** ** The columns of the scope *)

Lemma prepare_scope_absent (props : list ObjectProperty) (valueIdx : Z) (k : string) :
  forall (cols : list ColMeta) (j : nat) (sc : gmap string Z),
    k <> "_value" ->
    (forall c, c ∈ cols -> Label c <> k) ->
    prepare_scope props valueIdx j cols sc !! k = sc !! k.
Proof.
  induction cols as [|c cols IH]; intros j sc Hk Hcols; simpl; [reflexivity|].
  rewrite IH; auto.
  - destruct (bool_decide (Label c = ValueColLabel)).
    + now apply lookup_insert_ne.
    + destruct (bool_decide (Exists (fun op => Property op = Label c) props));
        [|reflexivity].
      apply lookup_insert_ne. apply Hcols. now left.
  - intros c' Hc'. apply Hcols. now right.
Qed.

Lemma prepare_scope_present (props : list ObjectProperty) (valueIdx : Z) :
  forall (cols : list ColMeta) (j0 : nat) (sc : gmap string Z) (j : nat) (c : ColMeta),
    NoDup (Label <$> cols) ->
    cols !! j = Some c ->
    Label c <> ValueColLabel ->
    Label c <> "_value" ->
    Exists (fun op => Property op = Label c) props ->
    prepare_scope props valueIdx j0 cols sc !! Label c = Some (Z.of_nat (j0 + j)).
Proof.
  induction cols as [|c0 cols IH]; intros j0 sc j c Hnd Hj Hv Hu Hex; [discriminate|].
  simpl in Hnd. apply NoDup_cons in Hnd as [Hnotin Hnd].
  destruct j as [|j]; simpl in Hj.
  - injection Hj as ->. simpl.
    rewrite prepare_scope_absent; auto.
    + rewrite bool_decide_eq_false_2 by exact Hv.
      rewrite bool_decide_eq_true_2 by exact Hex.
      rewrite lookup_insert_eq. f_equal. lia.
    + intros c' Hc' Heq. apply Hnotin. rewrite <- Heq.
      apply list_elem_of_fmap. eauto.
  - simpl. rewrite (IH (S j0) _ j c Hnd Hj Hv Hu Hex). f_equal. lia.
Qed.

Lemma prepare_scope_value (props : list ObjectProperty) (valueIdx : Z) :
  forall (cols : list ColMeta) (j0 : nat) (sc : gmap string Z),
    (exists c, c ∈ cols /\ Label c = ValueColLabel) ->
    (forall c, c ∈ cols -> Label c <> "_value") ->
    prepare_scope props valueIdx j0 cols sc !! "_value" = Some valueIdx.
Proof.
  induction cols as [|c0 cols IH]; intros j0 sc (c & Hc & Hl) Hno.
  - inversion Hc.
  - simpl. assert (Hno' : forall c', c' ∈ cols -> Label c' <> "_value").
    { intros c' Hc'. apply Hno. now right. }
    destruct (decide (Exists (fun c' => Label c' = ValueColLabel) cols)) as [Hex|Hnex].
    + apply Exists_exists in Hex. apply IH; [exact Hex|exact Hno'].
    + rewrite Exists_exists in Hnex.
      apply elem_of_cons in Hc as [->|Hc]; [|destruct Hnex; eauto].
      rewrite bool_decide_eq_true_2 by exact Hl.
      assert (Hpres : forall cols' j1 (sc' : gmap string Z),
                (forall c', c' ∈ cols' -> Label c' <> ValueColLabel) ->
                (forall c', c' ∈ cols' -> Label c' <> "_value") ->
                prepare_scope props valueIdx j1 cols' sc' !! "_value" = sc' !! "_value").
      { clear. induction cols' as [|c1 cols' IH']; intros j1 sc' H1 H2; simpl;
          [reflexivity|].
        rewrite IH';
          [|intros c' Hc'; apply H1; now right|intros c' Hc'; apply H2; now right].
        rewrite bool_decide_eq_false_2 by (apply H1; now left).
        destruct (bool_decide (Exists (fun op => Property op = Label c1) props));
          [|reflexivity].
        apply lookup_insert_ne. apply H2. now left. }
      rewrite Hpres; auto.
      * apply lookup_insert_eq.
      * intros c' Hc' Heq. apply Hnex. eauto.
Qed.

(** X16.  The column indices that Process notes for the scope, in a
    block with distinct column labels: a column other than the value
    column whose label is the property of some object property gets
    its own index under its label; when a column is labelled "value",
    the name "_value" gets the index of the value column. *)
Theorem prepare_scope_indices :
  forall (props : list ObjectProperty) (valueIdx : Z) (cols : list ColMeta)
         (sc : gmap string Z),
    NoDup (Label <$> cols) ->
    (forall c, c ∈ cols -> Label c <> "_value") ->
    (forall (j : nat) (c : ColMeta),
        cols !! j = Some c ->
        Label c <> ValueColLabel ->
        Exists (fun op => Property op = Label c) props ->
        prepare_scope props valueIdx 0 cols sc !! Label c = Some (Z.of_nat j))
    /\ ((exists c, c ∈ cols /\ Label c = ValueColLabel) ->
        prepare_scope props valueIdx 0 cols sc !! "_value" = Some valueIdx).
Proof.
  intros props valueIdx cols sc Hnd Hno. split.
  - intros j c Hj Hv Hex.
    apply (prepare_scope_present props valueIdx cols 0 sc j c); auto.
    apply Hno. eapply list_elem_of_lookup_2, Hj.
  - intros Hex. now apply prepare_scope_value.
Qed.

Lemma row_scope_lookup (scopeCols : gmap string Z) (row : list cell)
    (op : ObjectProperty) :
  forall (props : list ObjectProperty) (scope : Scope),
    scope_in_range props scopeCols (length row) ->
    op ∈ props ->
    row_scope props scopeCols row scope !! op =
      row !! Z.to_nat (default 0%Z (scopeCols !! Property op)).
Proof.
  induction props as [|op' props IH]; intros scope Hrange Hin; [inversion Hin|].
  simpl. pose proof (Hrange op' (list_elem_of_here _ _)) as Hop.
  destruct (lookup_lt_is_Some_2 row
              (Z.to_nat (default 0%Z (scopeCols !! Property op')))) as [v Hv]; [lia|].
  rewrite Hv.
  assert (Hrange' : scope_in_range props scopeCols (length row)).
  { intros o Ho. apply Hrange. now right. }
  destruct (decide (op ∈ props)) as [Hin'|Hnin]; [now apply IH|].
  apply elem_of_cons in Hin as [->|Hin]; [|contradiction].
  rewrite row_scope_other by exact Hnin. unfold Scope. rewrite lookup_insert_eq.
  now rewrite Hv.
Qed.

(** X17.  An object property whose name is the label of no column of
    the block: Process notes no index for it, so the scope reads the
    column that an earlier block left under that name, and column 0,
    the first column of the row, when there is none. *)
Theorem missing_column_reads_stale_index :
  forall (props : list ObjectProperty) (valueIdx : Z) (cols : list ColMeta)
         (sc : gmap string Z) (op : ObjectProperty)
         (i : nat) (rr : RowReader) (row : list cell) (scope : Scope),
    op ∈ props ->
    Property op <> "_value" ->
    (forall c, c ∈ cols -> Label c <> Property op) ->
    rr !! i = Some row ->
    scope_in_range props (prepare_scope props valueIdx 0 cols sc) (length row) ->
    prepare_scope props valueIdx 0 cols sc !! Property op = sc !! Property op
    /\ exists scope',
         fill_scope props (prepare_scope props valueIdx 0 cols sc) i rr scope = Done scope'
         /\ scope' !! op = row !! Z.to_nat (default 0%Z (sc !! Property op))
         /\ (sc !! Property op = None -> scope' !! op = row !! 0).
Proof.
  intros props valueIdx cols sc op i rr row scope Hin Hname Hcols Hrow Hrange.
  assert (Habs : prepare_scope props valueIdx 0 cols sc !! Property op = sc !! Property op)
    by now apply prepare_scope_absent.
  split; [exact Habs|]. eexists. split.
  - apply (fill_scope_row_scope i rr row _ Hrow props scope Hrange).
  - rewrite (row_scope_lookup _ row op props scope Hrange Hin), Habs.
    split; [reflexivity|]. now intros ->.
Qed.

(** ** The filters at work on a block of floats *)

Lemma float_block_typed : block_typed float_block.
Proof.
  intros rr row Hrr Hrow. simpl in Hrr.
  apply list_elem_of_singleton in Hrr. subst rr.
  apply elem_of_cons in Hrow as [->|Hrow];
    [|apply list_elem_of_singleton in Hrow; subst row];
    (split; [reflexivity|]);
    intros [|[|[|j]]] c v Hc Hv Hcommon; simpl in Hc, Hv; try discriminate;
    injection Hc as <-; injection Hv as <-; try reflexivity; discriminate.
Qed.

Lemma Process_appends_passing_rows_witness :
  exists (r : ProcessResult) (builder : BlockBuilder),
    Process second_column float_filter float_block = Done r
    /\ returned r = None
    /\ cache (transformation r) = {[ Key float_block := builder ]}
    /\ builder_data builder !! 1 = Some [CFloat (S754_finite false 6 0)].
Proof.
  destruct (Process_appends_passing_rows second_column float_filter float_block
              ValueCol gt_5_float)
    as (r & builder & Hrun & Hret & Hcache & _ & _ & Hdata).
  - unfold second_column. lia.
  - reflexivity.
  - reflexivity.
  - exact float_block_typed.
  - intros op Hop. apply list_elem_of_singleton in Hop. subst op. vm_compute.
    split; [discriminate|reflexivity].
  - intros builder Hb. unfold float_filter in Hb. simpl in Hb.
    rewrite lookup_empty in Hb. discriminate.
  - exists r, builder. split; [exact Hrun|]. split; [exact Hret|].
    split; [exact Hcache|].
    exact (Hdata 1 ValueCol [] eq_refl eq_refl).
Defined.

(** A transformation that holds no compiled expression at all. *)
Definition bare_filter : filterTransformation :=
  mkFilterTransformation ∅ [r_value] ∅ ∅ ∅.

Lemma Process_unknown_value_kind_witness :
  exists msg, Process second_column bare_filter float_block = Panic msg.
Proof.
  refine (proj2 (Process_unknown_value_kind second_column bare_filter float_block
                   ValueCol _ _ _) _).
  - unfold second_column. lia.
  - reflexivity.
  - reflexivity.
  - discriminate.
Defined.

(** The filter [(r) => r._value], of the type of the value. *)
Definition value_itself : ast.ArrowFunction :=
  ast.mkArrow ["r"] (ast.MemberExpression (ast.Identifier "r") (ast.Identifier "_value")).

Definition the_value (typ : DataType) : CompiledExpression :=
  mkCompiled typ (fun scope =>
    match scope !! r_value with
    | Some (CBool v) => (v, None)
    | _ => (false, Some (Errorf "value is not a boolean"))
    end).

Definition compile_value (F : ast.ArrowFunction) (types : gmap ObjectProperty DataType)
    : option CompiledExpression * option error :=
  match types !! r_value with
  | Some typ => (Some (the_value typ), None)
  | None => (None, Some (Errorf "unknown object property"))
  end.

Lemma non_boolean_expression_fails_in_Process_witness :
  exists t : filterTransformation,
    NewFilterTransformation properties_gt_5 compile_value value_kinds ∅
      (Plan.mkFilter (Some value_itself)) = Done (inr t)
    /\ ces t !! TFloat = Some (mkExprOrErr (Some not_boolean) None)
    /\ exists r,
         Process second_column t float_block = Done r
         /\ returned r = Some (Wrapf not_boolean "expression does not support type").
Proof.
  destruct (non_boolean_expression_fails_in_Process properties_gt_5 compile_value
              value_kinds second_column ∅ (Plan.mkFilter (Some value_itself))
              value_itself "r" [r_value] TFloat (the_value TFloat))
    as (t & Hnew & Hces & Hprocess).
  - reflexivity.
  - reflexivity.
  - reflexivity.
  - intros typ' _. unfold compiles_or_fails. destruct typ'; vm_compute; eauto.
  - unfold value_kinds. repeat constructor.
  - reflexivity.
  - discriminate.
  - exists t. split; [exact Hnew|]. split; [exact Hces|].
    apply (Hprocess float_block ValueCol).
    + unfold second_column. lia.
    + reflexivity.
    + reflexivity.
Defined.

Definition r_t1 : ObjectProperty := mkObjectProperty "r" "t1".

Lemma prepare_scope_indices_witness :
  prepare_scope [r_value; r_t1] 1 0 (Cols float_block) ∅ !! "t1" = Some 2%Z
  /\ prepare_scope [r_value; r_t1] 1 0 (Cols float_block) ∅ !! "_value" = Some 1%Z.
Proof.
  destruct (prepare_scope_indices [r_value; r_t1] 1 (Cols float_block) ∅)
    as [Hlabel Hvalue].
  - apply NoDup_ListNoDup. repeat constructor; simpl; intuition discriminate.
  - intros c Hc. simpl in Hc.
    repeat (apply elem_of_cons in Hc as [->|Hc]; [discriminate|]). inversion Hc.
  - split.
    + apply (Hlabel 2 (mkColMeta "t1" TString true true) eq_refl).
      * discriminate.
      * apply Exists_cons_tl, Exists_cons_hd. reflexivity.
    + apply Hvalue. exists ValueCol. split; [|reflexivity].
      simpl. apply list_elem_of_further, list_elem_of_here.
Defined.

Definition r_host : ObjectProperty := mkObjectProperty "r" "host".

Lemma missing_column_reads_stale_index_witness :
  exists scope' : Scope,
    fill_scope [r_host] (prepare_scope [r_host] 1 0 (Cols float_block) ∅) 0
      [[CTime 1%Z; CFloat (S754_finite false 1 0); CString "a"]] ∅ = Done scope'
    /\ scope' !! r_host = Some (CTime 1%Z).
Proof.
  destruct (missing_column_reads_stale_index [r_host] 1 (Cols float_block) ∅ r_host 0
              [[CTime 1%Z; CFloat (S754_finite false 1 0); CString "a"]]
              [CTime 1%Z; CFloat (S754_finite false 1 0); CString "a"] ∅)
    as (_ & scope' & Hfill & _ & Hzero).
  - apply list_elem_of_here.
  - discriminate.
  - intros c Hc. simpl in Hc.
    repeat (apply elem_of_cons in Hc as [->|Hc]; [discriminate|]). inversion Hc.
  - reflexivity.
  - intros op Hop. apply list_elem_of_singleton in Hop. subst op. vm_compute.
    split; [discriminate|reflexivity].
  - exists scope'. split; [exact Hfill|]. now apply Hzero.
Defined.

End FilterBlockFacts.

(** * Properties of the evaluator: operations, ids and values *)
Module EvalStateFacts.
Import ast Eval.
Import EvalChainFacts.
Local Open Scope nat_scope.

(** The operation behind the pointer [n] has received its spec. *)
Definition spec_set (ev : evaluator) (n : nat) : Prop :=
  exists o spec, ops ev !! n = Some o /\ Spec o = Some spec.

(** The dynamic value has the Go type that its Type names; so have the
    elements of an array, for the element type of the array. *)
Fixpoint dyn_typed (d : dyn) : bool :=
  match d with
  | dArray t els => forallb (fun e => assertable t e && dyn_typed e) els
  | _ => true
  end.

Definition value_typed (v : Value) : Prop :=
  assertable (Type_of v) (Value_of v) = true /\ dyn_typed (Value_of v) = true.

(** The fields of the state that the invariant reads. *)
Definition core (ev : evaluator) :=
  (id ev, ops ev, opArrays ev, operations ev, scope ev).

Section Registered.
Variable functionsMap : gmap string CreateOperationSpec.
Variable methodMap : gmap string CreateOperationSpec.
Variable growslice : nat -> nat -> nat.

Definition registered (name : string) : Prop :=
  is_Some (functionsMap !! name) \/ is_Some (methodMap !! name).

Record StateInv (ev : evaluator) : Prop := mkStateInv {
  si_id : id ev = length (ops ev);
  si_names : forall n o, ops ev !! n = Some o ->
    exists name, registered name /\ ID o = Sprintf_sd name n;
  si_held : forall n, held (opArrays ev) n -> spec_set ev n;
  si_operations : forall n, Some n ∈ operations ev -> spec_set ev n;
  si_scope : forall name v, scope ev !! name = Some v -> value_typed v
}.

Lemma StateInv_core ev ev' : core ev' = core ev -> StateInv ev -> StateInv ev'.
Proof.
  unfold core. intros [= Hid Hops Harr Hop Hsc] [].
  constructor; unfold spec_set in *; rewrite ?Hid, ?Hops, ?Harr, ?Hop, ?Hsc; auto.
Qed.

Lemma load_chain_core p ev c ev' : load_chain p ev = Ok (c, ev') -> ev' = ev.
Proof. intros H. now apply load_chain_inv in H as [-> _]. Qed.

Lemma store_chain_core p c ev u ev' :
  store_chain p c ev = Ok (u, ev') -> core ev' = core ev.
Proof. intros H. now apply store_chain_inv in H as [-> _]. Qed.

Lemma new_chain_core c ev p ev' : new_chain c ev = Ok (p, ev') -> core ev' = core ev.
Proof. unfold new_chain. now intros [= _ <-]. Qed.

Lemma append_Edge_core p e ev u ev' :
  append_Edge growslice p e ev = Ok (u, ev') -> core ev' = core ev.
Proof.
  unfold append_Edge. intros H. run_inv H.
  apply load_chain_inv in Hrun as [-> Hc].
  unfold gets in Hrun0. injection Hrun0 as <- <-.
  destruct (append1 Edge_zero growslice (edgeArrays ev) (Edges a) e) as [arrays s].
  run_inv H. unfold modify in Hrun. injection Hrun as _ <-.
  now apply store_chain_inv in H as [-> _].
Qed.

Lemma additional_parents_core p child skip parents :
  forall ev u ev',
    additional_parents growslice p child skip parents ev = Ok (u, ev') ->
    core ev' = core ev.
Proof.
  induction parents as [|q parents IH]; intros ev u ev' H; simpl in H.
  - now injection H as _ <-.
  - run_inv H. rewrite (IH _ _ _ H).
    destruct (bool_decide (Some q <> skip)).
    + eapply append_Edge_core, Hrun.
    + now injection Hrun as _ <-.
Qed.

(** ** Pointers in the arrays *)

Lemma literal1_held (arrays arrays' : list (list (option nat))) x s m :
  literal1 arrays x = (arrays', s) -> held arrays' m -> held arrays m \/ x = Some m.
Proof.
  unfold literal1. intros [= <- _] (a & arr & i & Ha & Hi).
  apply lookup_app_Some in Ha as [Ha|[_ Ha]].
  - left. now exists a, arr, i.
  - right. apply list_lookup_singleton_Some in Ha as [_ <-].
    now apply list_lookup_singleton_Some in Hi as [_ ->].
Qed.

Lemma append1_held (arrays arrays' : list (list (option nat))) s x s' m :
  append1 None growslice arrays s x = (arrays', s') ->
  held arrays' m -> held arrays m \/ x = Some m.
Proof.
  unfold append1. destruct (len s <? cap s).
  - intros [= <- _] (a & arr & i & Ha & Hi).
    destruct (decide (a = base s)) as [->|Hne].
    + rewrite list_lookup_alter_eq in Ha.
      destruct (arrays !! base s) as [arr0|] eqn:Harr0; [|discriminate].
      simpl in Ha. injection Ha as <-.
      destruct (decide (i = len s)) as [->|Hi'].
      * destruct (decide (len s < length arr0)).
        -- rewrite list_lookup_insert_eq in Hi by assumption. right. congruence.
        -- rewrite list_insert_ge in Hi by lia. left. now exists (base s), arr0, (len s).
      * rewrite list_lookup_insert_ne in Hi by auto. left. now exists (base s), arr0, i.
    + rewrite list_lookup_alter_ne in Ha by auto. left. now exists a, arr, i.
  - intros [= <- _] (a & arr & i & Ha & Hi).
    apply lookup_app_Some in Ha as [Ha|[_ Ha]].
    + left. now exists a, arr, i.
    + apply list_lookup_singleton_Some in Ha as [_ <-].
      apply lookup_app_Some in Hi as [Hi|[_ Hi]].
      * left. eapply elems_held, list_elem_of_lookup_2, Hi.
      * destruct (i - length (elems arrays s)) as [|k]; simpl in Hi.
        -- right. congruence.
        -- apply lookup_replicate in Hi as [Hi _]. discriminate.
Qed.

(** ** Typed values *)

Lemma typed_elements_spec t els :
  forall ev l ev',
    typed_elements t els ev = Ok (l, ev') ->
    ev' = ev /\ l = Value_of <$> els
    /\ Forall (fun el => assertable t (Value_of el) = true) els.
Proof.
  induction els as [|el els IH]; intros ev l ev' H; simpl in H.
  - injection H as <- <-. auto.
  - destruct (assertable t (Value_of el)) eqn:Ha; [|discriminate].
    run_inv H. apply IH in Hrun as (-> & -> & Hall). injection H as <- <-.
    split; [reflexivity|]. split; [reflexivity|]. now constructor.
Qed.

Lemma array_typed t (els : list Value) :
  Forall (fun el => assertable t (Value_of el) = true) els ->
  Forall value_typed els ->
  value_typed (mkValue TArray (dArray t (Value_of <$> els))).
Proof.
  intros Ha Ht. split; [reflexivity|]. simpl. apply forallb_forall.
  intros d Hd. apply in_map_iff in Hd as (el & <- & Hel).
  apply list_elem_of_In in Hel. apply andb_true_intro. split.
  - eapply Forall_forall in Ha; eauto.
  - eapply Forall_forall in Ht; eauto. apply Ht.
Qed.

Lemma doLiteral_typed lit ev v ev' :
  doLiteral lit ev = Ok (v, ev') -> ev' = ev /\ value_typed v.
Proof.
  destruct lit; simpl; try discriminate; intros [= <- <-]; split; auto; split; reflexivity.
Qed.

(** ** The methods of the evaluator keep the invariant *)

Definition expr_inv (doExpression : Expression -> M Value) : Prop :=
  forall e ev v ev',
    doExpression e ev = Ok (v, ev') -> StateInv ev ->
    StateInv ev' /\ value_typed v.

Definition call_inv (callFunction : Expression -> list Expression -> option nat -> M nat)
    : Prop :=
  forall callee args chain ev p ev',
    callFunction callee args chain ev = Ok (p, ev') -> StateInv ev -> StateInv ev'.

Section Body.
Variable doExpression : Expression -> M Value.
Variable callFunction : Expression -> list Expression -> option nat -> M nat.
Hypothesis doExpression_inv : expr_inv doExpression.
Hypothesis callFunction_inv : call_inv callFunction.

Lemma doArray_elements_inv els :
  forall t ev r ev',
    doArray_elements doExpression els t ev = Ok (r, ev') -> StateInv ev ->
    StateInv ev' /\ Forall value_typed r.2.
Proof.
  induction els as [|el els IH]; intros t ev r ev' H HI; simpl in H.
  - injection H as <- <-. split; [exact HI|constructor].
  - run_inv H. destruct (doExpression_inv _ _ _ _ Hrun HI) as [HI1 Hv].
    destruct (bool_decide _) in H; [discriminate|].
    run_inv H. injection H as <- <-.
    destruct (IH _ _ _ _ Hrun0 HI1) as [HI2 Hall].
    split; [exact HI2|]. now constructor.
Qed.

Lemma doArray_inv a ev v ev' :
  doArray doExpression a ev = Ok (v, ev') -> StateInv ev ->
  StateInv ev' /\ value_typed v.
Proof.
  unfold doArray. intros H HI. run_inv H. destruct a0 as [arrayType elements].
  destruct (doArray_elements_inv _ _ _ _ _ Hrun HI) as [HI1 Hall]. simpl in Hall.
  assert (Hdone : (value <- typed_elements arrayType elements ;;
                   ret (mkValue TArray (dArray arrayType value))) ev0 = Ok (v, ev') ->
            StateInv ev' /\ value_typed v).
  { intros H'. run_inv H'. apply typed_elements_spec in Hrun0 as (-> & -> & Ha).
    injection H' as <- <-. split; [exact HI1|]. now apply array_typed. }
  destruct arrayType; try (now apply Hdone); discriminate.
Qed.

Lemma resolveParameters_loop_inv properties :
  forall paramsMap ev r ev',
    resolveParameters_loop doExpression properties paramsMap ev = Ok (r, ev') ->
    StateInv ev -> StateInv ev'.
Proof.
  induction properties as [|p properties IH]; intros paramsMap ev r ev' H HI; simpl in H.
  - now injection H as _ <-.
  - run_inv H. destruct (doExpression_inv _ _ _ _ Hrun HI) as [HI1 _].
    destruct (paramsMap !! p.1); [discriminate|]. eapply IH; eauto.
Qed.

Lemma createOp_inv name createOpSpec args ev op parents ev' :
  registered name ->
  createOp doExpression name createOpSpec args ev = Ok ((op, parents), ev') ->
  StateInv ev ->
  StateInv ev' /\ spec_set ev' op.
Proof.
  unfold createOp. intros Hreg H HI.
  apply bind_inv in H as (n & e1 & H1 & H). unfold nextID in H1. injection H1 as <- <-.
  apply bind_inv in H as (op0 & e2 & H2 & H).
  unfold newOperation in H2. injection H2 as <- <-. simpl in *.
  set (evA := set_ops (ops ev ++ [mkOperation (Sprintf_sd name (id ev)) None])
                (set_id (id ev + 1) ev)) in *.
  apply bind_inv in H as (paramMap & e3 & H3 & H).
  apply bind_inv in H as (e4 & e5 & H4 & H). unfold gets in H4. injection H4 as <- <-.
  assert (Hmono : forall m, spec_set ev m -> spec_set evA m).
  { intros m (o & spec & Ho & Hs). exists o, spec. split; [|exact Hs].
    simpl. now apply lookup_app_l_Some. }
  assert (HIA : StateInv evA).
  { constructor; simpl.
    - rewrite length_app, (si_id _ HI). simpl. lia.
    - intros m o Ho. apply lookup_app_Some in Ho as [Ho|[Hge Ho]].
      + now apply (si_names _ HI).
      + destruct (m - length (ops ev)) eqn:Hm; simpl in Ho; [|discriminate].
        injection Ho as <-. exists name. split; [exact Hreg|]. simpl.
        f_equal. rewrite (si_id _ HI). lia.
    - intros m Hm. apply Hmono. now apply (si_held _ HI).
    - intros m Hm. apply Hmono. now apply (si_operations _ HI).
    - apply HI. }
  assert (HI3 : StateInv e3).
  { destruct args as [|arg [|? ?]].
    - now injection H3 as _ <-.
    - destruct arg; try discriminate.
      eapply resolveParameters_loop_inv; eauto.
    - now injection H3 as _ <-. }
  destruct (runCtor createOpSpec e3 (newArguments paramMap) (mkContext []))
    as [[[arguments ctx] [err|spec]]|msg]; try discriminate.
  destruct (0 <? length (listUnused arguments)); [discriminate|].
  apply bind_inv in H as (u & e6 & H6 & H). injection H as <- <- <-.
  unfold set_Operation_Spec in H6.
  destruct (ops e3 !! length (ops ev)) as [o|] eqn:Hop; [|discriminate].
  injection H6 as _ <-.
  assert (Hlt : length (ops ev) < length (ops e3)) by (eapply lookup_lt_Some, Hop).
  assert (Hset : forall m, spec_set e3 m \/ m = length (ops ev) ->
            spec_set (set_ops (<[length (ops ev) := mkOperation (ID o) (Some spec)]> (ops e3)) e3) m).
  { intros m Hm. destruct (decide (m = length (ops ev))) as [->|Hne].
    - eexists _, spec. simpl. split; [apply list_lookup_insert_eq; exact Hlt|reflexivity].
    - destruct Hm as [(o' & s' & Ho' & Hs')|?]; [|contradiction].
      exists o', s'. simpl. split; [|exact Hs']. now rewrite list_lookup_insert_ne by auto. }
  split; [|apply Hset; now right].
  constructor; simpl.
  - rewrite length_insert. apply HI3.
  - intros m o' Ho'. destruct (decide (m = length (ops ev))) as [->|Hne].
    + rewrite list_lookup_insert_eq in Ho' by exact Hlt. injection Ho' as <-. simpl.
      now apply (si_names _ HI3).
    + rewrite list_lookup_insert_ne in Ho' by auto. now apply (si_names _ HI3).
  - intros m Hm. apply Hset. left. now apply (si_held _ HI3).
  - intros m Hm. apply Hset. left. now apply (si_operations _ HI3).
  - apply HI3.
Qed.

Lemma method_inv name args ev op parents ev' :
  method methodMap doExpression name args ev = Ok ((op, parents), ev') ->
  StateInv ev -> StateInv ev' /\ spec_set ev' op.
Proof.
  unfold method. destruct (methodMap !! name) eqn:Hm; [|discriminate].
  intros H. apply wrapping_inv in H. eapply createOp_inv; [|exact H].
  right. eauto.
Qed.

Lemma function_inv name args ev op parents ev' :
  function functionsMap doExpression name args ev = Ok ((op, parents), ev') ->
  StateInv ev -> StateInv ev' /\ spec_set ev' op.
Proof.
  unfold function. destruct (functionsMap !! name) eqn:Hm; [|discriminate].
  intros H. apply wrapping_inv in H. eapply createOp_inv; [|exact H].
  left. eauto.
Qed.

Lemma memberFunction_inv object property chain ev p name ev' :
  memberFunction callFunction object property chain ev = Ok ((p, name), ev') ->
  StateInv ev -> StateInv ev'.
Proof.
  unfold memberFunction. intros H HI.
  apply bind_inv in H as (chain' & e1 & H1 & H).
  assert (HI1 : StateInv e1).
  { destruct object as [x|callee args| | | | | | | | | | | | | | |]; try discriminate.
    - apply bind_inv in H1 as (value & e2 & H2 & H1).
      unfold scope_Get, gets in H2. injection H2 as <- <-.
      destruct (scope ev !! x) as [value|]; [|discriminate].
      destruct (bool_decide (Type_of value <> TChain)); [discriminate|].
      apply bind_inv in H1 as (chain0 & e3 & H3 & H1).
      assert (Hc3 : core e3 = core ev).
      { destruct chain as [c|]; [now injection H3 as _ <-|].
        eapply new_chain_core, H3. }
      destruct (Value_of value); try discriminate.
      apply bind_inv in H1 as (c' & e4 & H4 & H1). apply load_chain_core in H4 as ->.
      apply bind_inv in H1 as (u & e5 & H5 & H1). apply store_chain_core in H5.
      injection H1 as _ <-. eapply StateInv_core; [|exact HI]. congruence.
    - eapply callFunction_inv; eauto. }
  destruct property; try discriminate. now injection H as _ _ <-.
Qed.

Lemma callFunction_body_inv :
  call_inv (callFunction_body functionsMap methodMap growslice doExpression callFunction).
Proof.
  intros callee args chain ev p ev' H HI. unfold callFunction_body in H.
  destruct callee as [x| |object property| | | | | | | | | | | | | |]; try discriminate.
  - apply bind_inv in H as ([op parents] & e1 & H1 & H).
    destruct (function_inv _ _ _ _ _ _ H1 HI) as (HI1 & Hop).
    apply bind_inv in H as (opID & e2 & H2 & H). apply Operation_ID_inv in H2 as ->.
    apply bind_inv in H as (arrays & e3 & H3 & H). unfold gets in H3. injection H3 as <- <-.
    destruct (literal1 (opArrays e1) (Some op)) as [arrays s] eqn:Hlit.
    apply bind_inv in H as (u & e4 & H4 & H). unfold modify in H4. injection H4 as _ <-.
    apply bind_inv in H as (chain' & e5 & H5 & H). apply new_chain_core in H5.
    apply bind_inv in H as (u' & e6 & H6 & H). apply additional_parents_core in H6.
    injection H as _ <-.
    eapply StateInv_core; [etransitivity; [exact H6|exact H5]|].
    constructor; simpl; try apply HI1.
    intros m Hm. destruct (literal1_held _ _ _ _ _ Hlit Hm) as [Hold|Heq].
    + now apply (si_held _ HI1).
    + now injection Heq as <-.
  - apply bind_inv in H as ([chain' name] & e1 & H1 & H).
    pose proof (memberFunction_inv _ _ _ _ _ _ _ H1 HI) as HI1.
    apply bind_inv in H as ([op parents] & e2 & H2 & H).
    destruct (method_inv _ _ _ _ _ _ H2 HI1) as (HI2 & Hop).
    apply bind_inv in H as (opID & e3 & H3 & H). apply Operation_ID_inv in H3 as ->.
    apply bind_inv in H as (u & e4 & H4 & H).
    assert (HI4 : StateInv e4).
    { unfold append_Operation in H4.
      apply bind_inv in H4 as (c & e5 & H5 & H4). apply load_chain_core in H5 as ->.
      apply bind_inv in H4 as (arrays & e6 & H6 & H4).
      unfold gets in H6. injection H6 as <- <-.
      destruct (append1 None growslice (opArrays e2) (Operations c) (Some op))
        as [arrays s] eqn:Happ.
      apply bind_inv in H4 as (u7 & e7 & H7 & H4). unfold modify in H7.
      injection H7 as _ <-. apply store_chain_core in H4.
      eapply StateInv_core; [exact H4|].
      constructor; simpl; try apply HI2.
      intros m Hm. destruct (append1_held _ _ _ _ _ _ Happ Hm) as [Hold|Heq].
      - now apply (si_held _ HI2).
      - now injection Heq as <-. }
    apply bind_inv in H as (c & e5 & H5 & H). apply load_chain_core in H5 as ->.
    apply bind_inv in H as (u5 & e6 & H6 & H). apply append_Edge_core in H6.
    apply bind_inv in H as (u6 & e7 & H7 & H). apply additional_parents_core in H7.
    apply bind_inv in H as (c8 & e8 & H8 & H). apply load_chain_core in H8 as ->.
    apply bind_inv in H as (u9 & e9 & H9 & H). apply store_chain_core in H9.
    injection H as _ <-.
    eapply StateInv_core; [|exact HI4]. congruence.
Qed.

Lemma doExpression_body_inv :
  expr_inv (doExpression_body doExpression callFunction).
Proof.
  intros e ev v ev' H HI. unfold doExpression_body in H.
  destruct (isLiteral e) eqn:Hlit.
  - apply doLiteral_typed in H as [-> Hv]. auto.
  - destruct e as [x|callee args| |params body|op l r|op l r|elements| | | | | | | | | |];
      try discriminate.
    + apply bind_inv in H as (value & e1 & H1 & H).
      unfold scope_Get, gets in H1. injection H1 as <- <-.
      destruct (scope ev !! x) as [value|] eqn:Hvalue; [|discriminate].
      injection H as <- <-. split; [exact HI|]. eapply (si_scope _ HI), Hvalue.
    + apply bind_inv in H as (chain & e1 & H1 & H). injection H as <- <-.
      split; [eapply callFunction_inv; eauto|]. split; reflexivity.
    + apply bind_inv in H as (v0 & e1 & H1 & H).
      destruct (doExpression_inv _ _ _ _ H1 HI) as (HI1 & Ha & _).
      destruct (Value_of v0) eqn:Hv0; try discriminate. injection H as <- <-.
      split; [exact HI1|]. split; [|reflexivity]. simpl.
      destruct (Type_of v0); try discriminate. reflexivity.
    + apply bind_inv in H as (root & e1 & H1 & H). apply lift_inv in H1 as ->.
      injection H as <- <-. split; [exact HI|]. split; reflexivity.
    + apply bind_inv in H as (root & e1 & H1 & H). apply lift_inv in H1 as ->.
      injection H as <- <-. split; [exact HI|]. split; reflexivity.
    + eapply doArray_inv; eauto.
Qed.

End Body.

Lemma doExpression_callFunction_inv (fuel : nat) :
  expr_inv (doExpression functionsMap methodMap growslice fuel)
  /\ call_inv (callFunction functionsMap methodMap growslice fuel).
Proof.
  induction fuel as [|fuel [IHe IHc]].
  - split.
    + intros e ev v ev' H. discriminate.
    + intros callee args chain ev p ev' H. discriminate.
  - split.
    + exact (doExpression_body_inv _ _ IHe IHc).
    + exact (callFunction_body_inv _ _ IHe IHc).
Qed.

(** What both kinds of statement do with the value of their
    expression. *)
Lemma use_value_inv ev v u ev' :
  StateInv ev ->
  (if bool_decide (Type_of v = TChain) then
     match Value_of v with
     | dChain chain => addChain chain
     | _ => panic "interface conversion"
     end
   else ret tt) ev = Ok (u, ev') ->
  StateInv ev'.
Proof.
  intros HI H. destruct (bool_decide (Type_of v = TChain)).
  - destruct (Value_of v); try discriminate.
    apply addChain_inv in H as (c & Hc & _ & ->).
    constructor; simpl; try apply HI.
    intros n Hn. apply elem_of_app in Hn as [Hn|Hn].
    + now apply (si_operations _ HI).
    + unfold spec_set. simpl. eapply (si_held _ HI), elems_held, Hn.
  - now injection H as _ <-.
Qed.

Lemma doVariableDeclaration_inv fuel declarations :
  forall ev u ev',
    doVariableDeclaration functionsMap methodMap growslice fuel declarations ev
      = Ok (u, ev') ->
    StateInv ev -> StateInv ev'.
Proof.
  induction declarations as [|vd declarations IH]; intros ev u ev' H HI; simpl in H.
  - now injection H as _ <-.
  - apply bind_inv in H as (value & e1 & H1 & H).
    destruct (doExpression_callFunction_inv fuel) as [Hexpr _].
    destruct (Hexpr _ _ _ _ H1 HI) as (HI1 & Hv).
    apply bind_inv in H as (u1 & e2 & H2 & H).
    unfold scope_Set, modify in H2. injection H2 as _ <-.
    apply bind_inv in H as (u3 & e3 & H3 & H).
    eapply IH; [exact H|]. eapply use_value_inv; [|exact H3].
    constructor; simpl; try apply HI1.
    intros name v' Hv'. destruct (decide (name = vd.1)) as [->|Hne].
    + rewrite lookup_insert_eq in Hv'. now injection Hv' as <-.
    + rewrite lookup_insert_ne in Hv' by auto. eapply (si_scope _ HI1), Hv'.
Qed.

Lemma eval_inv fuel body :
  forall ev u ev',
    eval functionsMap methodMap growslice fuel body ev = Ok (u, ev') ->
    StateInv ev -> StateInv ev'.
Proof.
  induction body as [|stmt body IH]; intros ev u ev' H HI; simpl in H.
  - now injection H as _ <-.
  - apply bind_inv in H as (u1 & e1 & H1 & H). eapply IH; [exact H|].
    destruct stmt as [s|e|kind]; try discriminate.
    + eapply doVariableDeclaration_inv; eauto.
    + apply bind_inv in H1 as (value & e2 & H2 & H1).
      destruct (doExpression_callFunction_inv fuel) as [Hexpr _].
      destruct (Hexpr _ _ _ _ H2 HI) as (HI2 & Hv).
      eapply use_value_inv; eauto.
Qed.

Lemma StateInv_newEvaluator : StateInv newEvaluator.
Proof.
  constructor; simpl.
  - reflexivity.
  - intros n o Hn. rewrite lookup_nil in Hn. discriminate.
  - intros n (a & arr & i & Ha & _). rewrite lookup_nil in Ha. discriminate.
  - intros n Hn. inversion Hn.
  - intros name v Hv. rewrite lookup_empty in Hv. discriminate.
Qed.

Lemma Evaluate_inv fuel program q ev :
  Evaluate functionsMap methodMap growslice fuel program = Ok (q, ev) ->
  StateInv ev /\ q = spec ev.
Proof.
  unfold Evaluate. intros H.
  destruct (eval functionsMap methodMap growslice fuel (ProgramBody program)
              newEvaluator) as [[u ev0]| | |] eqn:Heval; try discriminate.
  injection H as <- <-. split; [|reflexivity].
  eapply eval_inv; [exact Heval|apply StateInv_newEvaluator].
Qed.

End Registered.


(** ** Operation ids *)

(** The characters of a string. *)
Definition chars (s : string) : list Ascii.ascii := String.list_ascii_of_string s.

(** A decimal digit. *)
Definition digit (c : Ascii.ascii) : Prop :=
  exists d : N, (d < 10)%N /\ c = pretty_N_char d.

(** The name does not end in a digit. *)
Definition ends_without_digit (name : string) : Prop :=
  forall l c, chars name = l ++ [c] -> ~ digit c.

Lemma chars_app (s1 s2 : string) : chars (s1 +:+ s2) = chars s1 ++ chars s2.
Proof. induction s1 as [|c s1 IH]; simpl; [reflexivity|]. now rewrite IH. Qed.

Lemma chars_inj (s1 s2 : string) : chars s1 = chars s2 -> s1 = s2.
Proof.
  intros H. rewrite <- (String.string_of_list_ascii_of_string s1),
    <- (String.string_of_list_ascii_of_string s2). unfold chars in H. now rewrite H.
Qed.

Lemma pretty_N_go_digits (x : N) :
  forall s, Forall digit (chars s) -> Forall digit (chars (pretty_N_go x s)).
Proof.
  induction (N.lt_wf_0 x) as [x _ IH]; intros s Hs.
  destruct (decide (x = 0)%N) as [->|Hx].
  - now rewrite pretty_N_go_0.
  - rewrite pretty_N_go_step by lia. apply IH.
    + apply N.div_lt; lia.
    + simpl. constructor; [|exact Hs].
      exists (x `mod` 10)%N. split; [|reflexivity]. apply N.mod_lt. lia.
Qed.

Lemma pretty_nat_digits (n : nat) : Forall digit (chars (pretty n)).
Proof.
  unfold pretty, pretty_nat, pretty, pretty_N.
  destruct (decide (N.of_nat n = 0)%N).
  - simpl. constructor; [|constructor]. exists 0%N. split; [lia|reflexivity].
  - apply pretty_N_go_digits. constructor.
Qed.

Lemma digits_split (a1 : list Ascii.ascii) :
  forall a2 b1 b2,
    Forall digit a1 -> Forall digit a2 ->
    (forall c l, b1 = c :: l -> ~ digit c) ->
    (forall c l, b2 = c :: l -> ~ digit c) ->
    a1 ++ b1 = a2 ++ b2 -> a1 = a2.
Proof.
  induction a1 as [|c a1 IH]; intros a2 b1 b2 H1 H2 Hb1 Hb2 Heq.
  - destruct a2 as [|c2 a2]; [reflexivity|]. simpl in Heq.
    apply Forall_cons in H2 as [Hc2 _]. exfalso. exact (Hb1 c2 _ Heq Hc2).
  - destruct a2 as [|c2 a2]; simpl in Heq.
    + apply Forall_cons in H1 as [Hc _]. symmetry in Heq. exfalso.
      exact (Hb2 c _ Heq Hc).
    + injection Heq as -> Heq. f_equal.
      apply Forall_cons in H1 as [_ H1]. apply Forall_cons in H2 as [_ H2].
      exact (IH a2 b1 b2 H1 H2 Hb1 Hb2 Heq).
Qed.

Lemma Sprintf_sd_inj (name1 name2 : string) (n1 n2 : nat) :
  ends_without_digit name1 -> ends_without_digit name2 ->
  Sprintf_sd name1 n1 = Sprintf_sd name2 n2 -> n1 = n2.
Proof.
  unfold Sprintf_sd. intros He1 He2 Heq.
  apply (f_equal chars) in Heq. rewrite !chars_app in Heq.
  apply (f_equal (@reverse _)) in Heq. rewrite !reverse_app in Heq.
  apply digits_split in Heq.
  - apply (inj (@reverse _)) in Heq. apply chars_inj in Heq.
    now apply (inj pretty) in Heq.
  - apply Forall_reverse, pretty_nat_digits.
  - apply Forall_reverse, pretty_nat_digits.
  - intros c l Hl. apply (He1 (reverse l) c).
    rewrite <- (reverse_involutive (chars name1)), Hl. apply reverse_cons.
  - intros c l Hl. apply (He2 (reverse l) c).
    rewrite <- (reverse_involutive (chars name2)), Hl. apply reverse_cons.
Qed.

(** X18.  In the state that a program leaves behind, the id of the
    [n]-th operation that was allocated is the name of a registered
    function or method followed by the decimal number [n]; when no
    registered name ends in a digit, no two operations have the same
    id. *)
Theorem operation_ids_are_distinct :
  forall (functionsMap methodMap : gmap string CreateOperationSpec)
         (growslice : nat -> nat -> nat) (fuel : nat) (program : Program)
         (q : QuerySpec) (ev : evaluator),
    Evaluate functionsMap methodMap growslice fuel program = Ok (q, ev) ->
    (forall n o, ops ev !! n = Some o ->
       exists name, registered functionsMap methodMap name /\ ID o = name +:+ pretty n)
    /\ ((forall name, registered functionsMap methodMap name -> ends_without_digit name) ->
        forall n1 n2 o1 o2,
          ops ev !! n1 = Some o1 -> ops ev !! n2 = Some o2 -> ID o1 = ID o2 -> n1 = n2).
Proof.
  intros fm mm gs fuel program q ev H.
  apply Evaluate_inv in H as [HI _]. split; [exact (si_names _ _ _ HI)|].
  intros Hnames n1 n2 o1 o2 H1 H2 Heq.
  destruct (si_names _ _ _ HI n1 o1 H1) as (name1 & Hr1 & Hid1).
  destruct (si_names _ _ _ HI n2 o2 H2) as (name2 & Hr2 & Hid2).
  rewrite Hid1, Hid2 in Heq.
  exact (Sprintf_sd_inj name1 name2 n1 n2 (Hnames _ Hr1) (Hnames _ Hr2) Heq).
Qed.

(** X19.  Every operation of the query spec of a program has received
    the spec that its constructor returned. *)
Theorem query_operations_have_specs :
  forall (functionsMap methodMap : gmap string CreateOperationSpec)
         (growslice : nat -> nat -> nat) (fuel : nat) (program : Program)
         (q : QuerySpec) (ev : evaluator) (n : nat),
    Evaluate functionsMap methodMap growslice fuel program = Ok (q, ev) ->
    Some n ∈ QuerySpec_Operations q ->
    exists op spec, ops ev !! n = Some op /\ Spec op = Some spec.
Proof.
  intros fm mm gs fuel program q ev n H Hn.
  apply Evaluate_inv in H as [HI ->]. now apply (si_operations _ _ _ HI).
Qed.

(** X20.  Values are typed.  An expression that is evaluated after any
    statements yields a value whose dynamic value has the Go type that
    its Type names, and the elements of an array have the element type
    of the array; the variables of the scope hold such values. *)
Theorem values_are_typed :
  forall (functionsMap methodMap : gmap string CreateOperationSpec)
         (growslice : nat -> nat -> nat) (fuel fuel' : nat) (body : list Statement)
         (ev ev' : evaluator) (e : Expression) (v : Value),
    eval functionsMap methodMap growslice fuel body newEvaluator = Ok (tt, ev) ->
    (forall name v', scope ev !! name = Some v' -> value_typed v')
    /\ (doExpression functionsMap methodMap growslice fuel' e ev = Ok (v, ev') ->
        value_typed v).
Proof.
  intros fm mm gs fuel fuel' body ev ev' e v H.
  pose proof (eval_inv fm mm gs fuel body _ _ _ H (StateInv_newEvaluator fm mm)) as HI.
  split; [apply HI|]. intros He.
  destruct (doExpression_callFunction_inv fm mm gs fuel') as [Hexpr _].
  now destruct (Hexpr _ _ _ _ He HI).
Qed.

(** ** The invariants on a program *)

(** A name whose last character lies outside ['0'..'9']. *)
Lemma ends_without_digit_last (name : string) (c : Ascii.ascii) :
  last (chars name) = Some c ->
  (Ascii.nat_of_ascii c <? 48) || (57 <? Ascii.nat_of_ascii c) = true ->
  ends_without_digit name.
Proof.
  intros Hlast Hc l c' Hl (d & Hd & ->).
  rewrite Hl, last_snoc in Hlast. injection Hlast as <-.
  assert (Hcases : (d = 0 \/ d = 1 \/ d = 2 \/ d = 3 \/ d = 4 \/ d = 5 \/ d = 6
                    \/ d = 7 \/ d = 8 \/ d = 9)%N) by lia.
  repeat (destruct Hcases as [->|Hcases]; [discriminate Hc|]).
  subst d. discriminate Hc.
Qed.

Lemma select_max_names (name : string) :
  registered {[ "select" := createSelectOpSpec ]} {[ "max" := createMaxOpSpec ]} name ->
  ends_without_digit name.
Proof.
  intros [[ctor H]|[ctor H]]; apply lookup_singleton_Some in H as [<- _];
    eapply ends_without_digit_last; reflexivity.
Qed.

Lemma operation_ids_are_distinct_witness :
  exists q ev,
    Evaluate {[ "select" := createSelectOpSpec ]} {[ "max" := createMaxOpSpec ]}
      double_capacity 10 branching_program = Ok (q, ev)
    /\ forall n1 n2 o1 o2,
         ops ev !! n1 = Some o1 -> ops ev !! n2 = Some o2 -> ID o1 = ID o2 -> n1 = n2.
Proof.
  destruct (Evaluate {[ "select" := createSelectOpSpec ]} {[ "max" := createMaxOpSpec ]}
              double_capacity 10 branching_program) as [[q ev]| | |] eqn:Heval;
    try (vm_compute in Heval; discriminate Heval).
  exists q, ev. split; [reflexivity|].
  exact (proj2 (operation_ids_are_distinct _ _ _ _ _ _ _ Heval) select_max_names).
Defined.

Lemma query_operations_have_specs_witness :
  exists q ev,
    Evaluate {[ "select" := createSelectOpSpec ]} {[ "max" := createMaxOpSpec ]}
      double_capacity 10 branching_program = Ok (q, ev)
    /\ exists op spec, ops ev !! 2 = Some op /\ Spec op = Some spec.
Proof.
  destruct (Evaluate {[ "select" := createSelectOpSpec ]} {[ "max" := createMaxOpSpec ]}
              double_capacity 10 branching_program) as [[q ev]| | |] eqn:Heval;
    try (vm_compute in Heval; discriminate Heval).
  exists q, ev. split; [reflexivity|].
  apply (query_operations_have_specs _ _ _ _ _ q ev 2 Heval).
  vm_compute in Heval. injection Heval as <- _.
  apply list_elem_of_further, list_elem_of_further, list_elem_of_here.
Defined.

Lemma values_are_typed_witness :
  exists v ev',
    doExpression ∅ ∅ double_capacity 3
      (ArrayExpression [IntegerLiteral 1; IntegerLiteral 2]) newEvaluator = Ok (v, ev')
    /\ value_typed v.
Proof.
  destruct (doExpression ∅ ∅ double_capacity 3
              (ArrayExpression [IntegerLiteral 1; IntegerLiteral 2]) newEvaluator)
    as [[v ev']| | |] eqn:He; try (vm_compute in He; discriminate He).
  exists v, ev'. split; [reflexivity|].
  exact (proj2 (values_are_typed ∅ ∅ double_capacity 0 3 [] newEvaluator ev' _ v eq_refl)
           He).
Defined.

End EvalStateFacts.

(** * Properties of the evaluator: expressions of a filter *)
Module EvalExpressionFacts.
Import ast Eval.
Local Open Scope nat_scope.

(** The literals that primaryNode turns into a node. *)
Definition primary_literal (e : Expression) : bool :=
  match e with
  | StringLiteral _ | BooleanLiteral _ | NumberLiteral _ | IntegerLiteral _
  | DurationLiteral _ | DateTimeLiteral _ | RegexpLiteral _ => true
  | _ => false
  end.

(** The name of a property: an identifier or a string literal. *)
Definition property_name (e : Expression) : bool :=
  match e with
  | Identifier _ | StringLiteral _ => true
  | _ => false
  end.

(** The operands of a comparison: literals, identifiers, members of an
    operand, and binary expressions over operands with a known
    operator. *)
Inductive primary : Expression -> Prop :=
  | primary_lit (e : Expression) : primary_literal e = true -> primary e
  | primary_ident (name : string) : primary (Identifier name)
  | primary_member (object property : Expression) :
      primary object -> property_name property = true ->
      primary (MemberExpression object property)
  | primary_binary (op : OperatorKind) (l r : Expression) :
      op <> opUnknown -> primary l -> primary r ->
      primary (BinaryExpression op l r).

(** The conditions: binary expressions over operands, joined by [and]
    and [or]. *)
Inductive condition : Expression -> Prop :=
  | condition_binary (op : OperatorKind) (l r : Expression) :
      primary (BinaryExpression op l r) -> condition (BinaryExpression op l r)
  | condition_logical (op : LogicalOperatorKind) (l r : Expression) :
      op <> logUnknown -> condition l -> condition r ->
      condition (LogicalExpression op l r).

Lemma expressionOperator_known (op : OperatorKind) (isRegexp : bool) :
  (op <> opUnknown ->
     exists o, expressionOperator op isRegexp = inr o /\ o <> expression.opInvalid)
  /\ (op = opUnknown -> exists err, expressionOperator op isRegexp = inl err).
Proof.
  split.
  - intros Hop. destruct op, isRegexp; try contradiction; simpl; eexists;
      (split; [reflexivity|discriminate]).
  - intros ->. simpl. eauto.
Qed.

Lemma primaryNode_accepts (e : Expression) :
  primary e -> exists n, primaryNode e = inr n.
Proof.
  induction 1 as [e Hlit|name|object property _ [o Ho] Hp|op l r Hop _ [lhs Hl] _ [rhs Hr]].
  - destruct e; try discriminate; simpl; eauto.
  - simpl. eauto.
  - simpl. rewrite Ho. destruct property; try discriminate; simpl; eauto.
  - simpl. rewrite Hl, Hr.
    destruct (proj1 (expressionOperator_known op
                       (expression.isRegexpLiteral lhs || expression.isRegexpLiteral rhs))
                Hop) as (o & -> & _).
    eauto.
Qed.

Lemma primaryNode_rejects (e : Expression) :
  forall n, primaryNode e = inr n -> primary e.
Proof.
  induction e; intros n Hn; simpl in Hn; try discriminate;
    try (now apply primary_lit); try apply primary_ident.
  - destruct (primaryNode e1) as [|o] eqn:Ho; [discriminate|].
    apply primary_member; [now apply (IHe1 o)|].
    destruct e2; try discriminate; reflexivity.
  - destruct (primaryNode e1) as [|lhs] eqn:Hl; [discriminate|].
    destruct (primaryNode e2) as [|rhs] eqn:Hr; [discriminate|].
    apply primary_binary; eauto.
    intros ->. discriminate.
Qed.

Lemma binaryOperation_accepts (e : Expression) :
  condition e ->
  exists op l r, binaryOperation e = inr (expression.BinaryNode op l r)
                 /\ op <> expression.opInvalid.
Proof.
  induction 1 as [op l r Hp|op l r Hop _ (o1 & l1 & r1 & H1 & _) _ (o2 & l2 & r2 & H2 & _)].
  - inversion Hp as [e Hlit| | |op' l' r' Hop Hl Hr]; subst; [discriminate|].
    destruct (primaryNode_accepts l Hl) as [lhs Hlhs].
    destruct (primaryNode_accepts r Hr) as [rhs Hrhs].
    cbn [binaryOperation]. unfold binaryExpression. cbn [primaryNode].
    rewrite Hlhs, Hrhs.
    destruct (proj1 (expressionOperator_known op
                       (expression.isRegexpLiteral lhs || expression.isRegexpLiteral rhs))
                Hop) as (o & -> & Ho).
    eauto.
  - cbn [binaryOperation]. rewrite H1, H2.
    destruct op; try contradiction; simpl; eexists _, _, _;
      (split; [reflexivity|discriminate]).
Qed.

Lemma binaryOperation_rejects (e : Expression) :
  forall n, binaryOperation e = inr n -> condition e.
Proof.
  induction e; intros n Hn; try discriminate.
  - apply condition_binary. eapply primaryNode_rejects. exact Hn.
  - cbn [binaryOperation] in Hn.
    destruct (binaryOperation e1) as [|lhs] eqn:Hl; [discriminate|].
    destruct (binaryOperation e2) as [|rhs] eqn:Hr; [discriminate|].
    apply condition_logical; eauto.
    intros ->. discriminate.
Qed.

(** X25.  The expressions that the evaluator lowers to an expression
    tree.  primaryNode succeeds exactly on the operands: the string,
    boolean, number, integer, duration, time and regexp literals,
    identifiers, members named by an identifier or a string, and
    binary expressions over operands.  binaryOperation succeeds
    exactly on the conditions: binary expressions over operands and
    their combinations with [and] and [or]; the tree it returns is a
    binary node.  doExpression on a binary or logical expression
    returns that tree as a value of type TExpression without
    parameters and leaves the state alone, or fails with the error of
    binaryOperation. *)
Theorem conditions_are_lowered :
  forall e : Expression,
    ((exists n, primaryNode e = inr n) <-> primary e)
    /\ ((exists n, binaryOperation e = inr n) <-> condition e)
    /\ (forall n, binaryOperation e = inr n ->
          exists op l r, n = expression.BinaryNode op l r /\ op <> expression.opInvalid)
    /\ (forall functionsMap methodMap growslice (fuel : nat) (ev : evaluator),
          (exists op l r, e = BinaryExpression op l r)
          \/ (exists op l r, e = LogicalExpression op l r) ->
          doExpression functionsMap methodMap growslice (S fuel) e ev =
            match binaryOperation e with
            | inr n =>
                Ok (mkValue TExpression (dExpression (expression.mkExpression n [])), ev)
            | inl err => Err err
            end).
Proof.
  intros e. split; [|split; [|split]].
  - split; [intros [n Hn]; now apply (primaryNode_rejects e n)|apply primaryNode_accepts].
  - split; [intros [n Hn]; now apply (binaryOperation_rejects e n)|].
    intros Hc. destruct (binaryOperation_accepts e Hc) as (op & l & r & H & _). eauto.
  - intros n Hn.
    destruct (binaryOperation_accepts e (binaryOperation_rejects e n Hn))
      as (op & l & r & H & Hop).
    rewrite Hn in H. injection H as ->. eauto.
  - intros fm mm gs fuel ev [(op & l & r & ->)|(op & l & r & ->)];
      cbn [doExpression]; unfold doExpression_body; cbn [isLiteral].
    + unfold bind, lift. cbn [binaryOperation].
      destruct (binaryExpression op l r); reflexivity.
    + unfold bind, lift. unfold logicalExpression.
      destruct (binaryOperation (LogicalExpression op l r)); reflexivity.
Qed.

(** ** Array literals *)

Section Arrays.
Variable doExpression : Expression -> M Value.
(** The value of an element whose evaluation leaves the state as it
    is. *)
Variable val : Expression -> Value.

Definition mixed_types (t1 t2 : ValueType) : error :=
  Errorf ("cannot mix types in an array, found both "
          +:+ ValueType_String t1 +:+ " and " +:+ ValueType_String t2).

Lemma doArray_elements_same (t : ValueType) (els : list Expression) :
  forall (t0 : ValueType) (ev : evaluator),
    (forall el ev, el ∈ els -> doExpression el ev = Ok (val el, ev)) ->
    Forall (fun el => Type_of (val el) = t) els ->
    t0 = TInvalid \/ t0 = t ->
    doArray_elements doExpression els t0 ev =
      Ok ((match els with [] => t0 | _ => t end, val <$> els), ev).
Proof.
  induction els as [|el els IH]; intros t0 ev Hpure Hall Ht0; [reflexivity|].
  apply Forall_cons in Hall as [Hel Hall].
  cbn [doArray_elements].
  rewrite (EvalArgsFacts.bind_Ok _ _ _ _ _ (Hpure el ev (list_elem_of_here _ _))).
  rewrite Hel.
  assert (Ht : (if bool_decide (t0 = TInvalid) then t else t0) = t).
  { destruct Ht0 as [->| ->]; [reflexivity|]. now destruct (bool_decide (t = TInvalid)). }
  rewrite Ht, bool_decide_eq_false_2 by auto.
  rewrite (EvalArgsFacts.bind_Ok _ _ _ _ _
             (IH t ev (fun e ev' He => Hpure e ev' (list_elem_of_further _ _ _ He))
                Hall (or_intror eq_refl))).
  unfold ret. cbn [fst snd fmap list_fmap]. now destruct els.
Qed.

Lemma doArray_elements_mixed (t : ValueType) (l1 : list Expression) :
  forall (el : Expression) (l2 : list Expression) (t0 : ValueType) (ev : evaluator),
    (forall e ev, e ∈ l1 ++ el :: l2 -> doExpression e ev = Ok (val e, ev)) ->
    Forall (fun e => Type_of (val e) = t) l1 ->
    Type_of (val el) <> t ->
    t <> TInvalid ->
    t0 = t \/ (t0 = TInvalid /\ l1 <> []) ->
    doArray_elements doExpression (l1 ++ el :: l2) t0 ev =
      Err (mixed_types t (Type_of (val el))).
Proof.
  induction l1 as [|e1 l1 IH]; intros el l2 t0 ev Hpure Hall Hel Hinv Ht0.
  - destruct Ht0 as [->|[_ Hne]]; [|contradiction].
    cbn [app doArray_elements].
    rewrite (EvalArgsFacts.bind_Ok _ _ _ _ _ (Hpure el ev (list_elem_of_here _ _))).
    rewrite (bool_decide_eq_false_2 _ Hinv), bool_decide_eq_true_2 by auto.
    reflexivity.
  - apply Forall_cons in Hall as [He1 Hall].
    cbn [app doArray_elements].
    rewrite (EvalArgsFacts.bind_Ok _ _ _ _ _ (Hpure e1 ev (list_elem_of_here _ _))).
    rewrite He1.
    assert (Ht : (if bool_decide (t0 = TInvalid) then t else t0) = t).
    { destruct Ht0 as [->|[-> _]]; [|reflexivity].
      now destruct (bool_decide (t = TInvalid)). }
    rewrite Ht, bool_decide_eq_false_2 by auto.
    apply EvalArgsFacts.bind_Err. apply IH; auto.
    intros e ev' He. apply Hpure. now right.
Qed.

Lemma typed_elements_run (t : ValueType) (vs : list Value) (ev : evaluator) :
  Forall (fun v => assertable t (Value_of v) = true) vs ->
  typed_elements t vs ev = Ok (Value_of <$> vs, ev).
Proof.
  induction 1 as [|v vs Hv _ IH]; [reflexivity|].
  cbn [typed_elements]. rewrite Hv.
  rewrite (EvalArgsFacts.bind_Ok _ _ _ _ _ IH). reflexivity.
Qed.

(** X26.  An array literal whose elements evaluate without touching
    the state, to values of the types that they name; [t] is the type
    of the first element.  When every element has type [t], doArray
    returns the array of type [t] with the values of the elements in
    order.  Otherwise it returns the error "cannot mix types in an
    array", naming [t] and the type of the first element that
    differs. *)
Theorem doArray_homogeneous :
  forall (els : list Expression) (t : ValueType) (ev : evaluator),
    (forall el ev, el ∈ els -> doExpression el ev = Ok (val el, ev)) ->
    (forall el, el ∈ els -> assertable (Type_of (val el)) (Value_of (val el)) = true) ->
    head ((fun el => Type_of (val el)) <$> els) = Some t ->
    (Forall (fun el => Type_of (val el) = t) els ->
       doArray doExpression els ev =
         Ok (mkValue TArray (dArray t ((fun el => Value_of (val el)) <$> els)), ev))
    /\ (forall l1 el l2,
          els = l1 ++ el :: l2 ->
          Forall (fun e => Type_of (val e) = t) l1 ->
          Type_of (val el) <> t ->
          doArray doExpression els ev = Err (mixed_types t (Type_of (val el)))).
Proof.
  intros els t ev Hpure Htyped Hhead.
  destruct els as [|e0 els0]; [discriminate|].
  injection Hhead as Ht0.
  assert (Hinv : t <> TInvalid).
  { intros Heq. pose proof (Htyped e0 (list_elem_of_here _ _)) as Ha.
    rewrite Ht0, Heq in Ha. discriminate. }
  split.
  - intros Hall. unfold doArray.
    rewrite (EvalArgsFacts.bind_Ok _ _ _ _ _
               (doArray_elements_same t (e0 :: els0) TInvalid ev Hpure Hall
                  (or_introl eq_refl))).
    assert (Hrun : typed_elements t (val <$> e0 :: els0) ev =
                   Ok (Value_of <$> (val <$> e0 :: els0), ev)).
    { apply typed_elements_run, Forall_fmap, Forall_forall. intros el Hel. simpl.
      rewrite <- (proj1 (Forall_forall _ _) Hall el Hel). now apply Htyped. }
    rewrite <- list_fmap_compose in Hrun.
    destruct t; try contradiction;
      rewrite (EvalArgsFacts.bind_Ok _ _ _ _ _ Hrun); reflexivity.
  - intros l1 el l2 Hels Hall Hel. unfold doArray. rewrite Hels in *.
    apply EvalArgsFacts.bind_Err. apply doArray_elements_mixed; auto.
    right. split; [reflexivity|]. intros ->. simpl in Hels.
    injection Hels as <- _. contradiction.
Qed.

End Arrays.

(** The values of the literals that doLiteral knows. *)
Definition literal_value (e : Expression) : Value :=
  match e with
  | DateTimeLiteral v => mkValue TTime (dTime v)
  | DurationLiteral v => mkValue TDuration (dDuration v)
  | NumberLiteral v => mkValue TFloat (dFloat v)
  | IntegerLiteral v => mkValue TInt (dInt v)
  | StringLiteral v => mkValue TString (dString v)
  | BooleanLiteral v => mkValue TBool (dBool v)
  | _ => Value_zero
  end.

Lemma doArray_homogeneous_witness :
  doArray (doExpression ∅ ∅ (fun _ n => n) 1)
    [IntegerLiteral 1; IntegerLiteral 2; StringLiteral "a"; BooleanLiteral true] newEvaluator
  = Err (mixed_types TInt TString).
Proof.
  refine (proj2 (doArray_homogeneous (doExpression ∅ ∅ (fun _ n => n) 1) literal_value
                   [IntegerLiteral 1; IntegerLiteral 2; StringLiteral "a";
                    BooleanLiteral true] TInt newEvaluator _ _ eq_refl)
            [IntegerLiteral 1; IntegerLiteral 2] (StringLiteral "a") [BooleanLiteral true]
            eq_refl _ _).
  - intros el ev Hel.
    repeat (apply elem_of_cons in Hel as [->|Hel]; [reflexivity|]). inversion Hel.
  - intros el Hel.
    repeat (apply elem_of_cons in Hel as [->|Hel]; [reflexivity|]). inversion Hel.
  - repeat constructor.
  - discriminate.
Defined.

End EvalExpressionFacts.

(** * Properties of the evaluator: calls *)
Module EvalCallFacts.
Import ast Eval.
Import EvalArgsFacts EvalChainFacts.
Local Open Scope nat_scope.

(** ** What a constructor can do to its arguments and its context *)

Lemma get_used a name typ required k :
  used a !! k = Some true -> used (get a name typ required).1 !! k = Some true.
Proof.
  intros Hk. unfold get. simpl.
  assert (Hins : <[name := true]> (used a) !! k = Some true).
  { destruct (decide (k = name)) as [->|Hne].
    - apply lookup_insert_eq.
    - now rewrite lookup_insert_ne by auto. }
  destruct (params a !! name) as [v|].
  - now destruct (bool_decide (Type_of v <> typ)).
  - now destruct required.
Qed.

Lemma GetTime_used a name k :
  used a !! k = Some true -> used (GetTime a name).1 !! k = Some true.
Proof.
  intros Hk. unfold GetTime. simpl.
  assert (Hins : <[name := true]> (used a) !! k = Some true).
  { destruct (decide (k = name)) as [->|Hne].
    - apply lookup_insert_eq.
    - now rewrite lookup_insert_ne by auto. }
  destruct (params a !! name) as [v|]; [|exact Hins].
  now destruct (ToQueryTime v).
Qed.

Lemma AdditionalParent_parents ctx id :
  (exists added, parents (AdditionalParent ctx id) = parents ctx ++ added)
  /\ (NoDup (parents ctx) -> NoDup (parents (AdditionalParent ctx id)))
  /\ id ∈ parents (AdditionalParent ctx id).
Proof.
  unfold AdditionalParent. destruct (bool_decide (id ∈ parents ctx)) eqn:Hin.
  - apply bool_decide_eq_true in Hin. split; [exists []; now rewrite app_nil_r|]. auto.
  - apply bool_decide_eq_false in Hin. simpl. split; [eauto|]. split.
    + intros Hnd. apply NoDup_app. split; [exact Hnd|]. split.
      * intros x Hx Hx'. apply list_elem_of_singleton in Hx'. now subst.
      * apply NoDup_singleton.
    + apply elem_of_app. right. now left.
Qed.

(** X21.  Whatever a constructor does with its arguments and its
    context: it cannot change the parameters, a name that was read
    stays read, so the unused names can only become fewer; the parents
    of the context are only added to, at the end, and stay free of
    duplicates. *)
Theorem runCtor_only_reads_and_adds :
  forall (c : CreateOperationSpec) (ev : evaluator) (a a' : arguments)
         (ctx ctx' : context) (r : error + OperationSpec),
    runCtor c ev a ctx = Done (a', ctx', r) ->
    params a' = params a
    /\ (forall k, used a !! k = Some true -> used a' !! k = Some true)
    /\ (forall k, k ∈ listUnused a' -> k ∈ listUnused a)
    /\ (exists added, parents ctx' = parents ctx ++ added)
    /\ (NoDup (parents ctx) -> NoDup (parents ctx')).
Proof.
  intros c ev a a' ctx ctx' r Hrun.
  assert (Hparams : params a' = params a) by (eapply runCtor_params, Hrun).
  assert (Hrest : (forall k, used a !! k = Some true -> used a' !! k = Some true)
                  /\ (exists added, parents ctx' = parents ctx ++ added)
                  /\ (NoDup (parents ctx) -> NoDup (parents ctx'))).
  { revert ev a ctx a' ctx' r Hrun Hparams.
    induction c as [spec|err|name typ required k IH|name k IH|id k IH|ident k IH|msg];
      intros ev a ctx a' ctx' r Hrun _; simpl in Hrun.
    - injection Hrun as <- <- _. split; [auto|]. split; [exists []; now rewrite app_nil_r|auto].
    - injection Hrun as <- <- _. split; [auto|]. split; [exists []; now rewrite app_nil_r|auto].
    - pose proof (get_used a name typ required) as Hu.
      destruct (get a name typ required) as [a1 [[v ok] err]].
      destruct (IH _ _ _ _ _ _ _ _ _ Hrun) as (Hu1 & Hp1 & Hn1);
        [eapply runCtor_params, Hrun|].
      split; [|auto]. intros k0 Hk0. apply Hu1. now apply Hu.
    - pose proof (GetTime_used a name) as Hu.
      destruct (GetTime a name) as [a1 [[qt ok] err]].
      destruct (IH _ _ _ _ _ _ _ _ _ Hrun) as (Hu1 & Hp1 & Hn1);
        [eapply runCtor_params, Hrun|].
      split; [|auto]. intros k0 Hk0. apply Hu1. now apply Hu.
    - destruct (IH _ _ _ _ _ _ Hrun) as (Hu1 & [added1 Hp1] & Hn1);
        [eapply runCtor_params, Hrun|].
      destruct (AdditionalParent_parents ctx id) as ([added0 Hp0] & Hn0 & _).
      split; [exact Hu1|]. split.
      + exists (added0 ++ added1). now rewrite Hp1, Hp0, app_assoc.
      + auto.
    - destruct (LookupIDFromIdentifier ev ident) as [[id err]|]; [|discriminate].
      eapply IH; eauto. eapply runCtor_params, Hrun.
    - discriminate. }
  destruct Hrest as (Hused & Hadded & Hnodup).
  split; [exact Hparams|]. split; [exact Hused|]. split; [|auto].
  intros k Hk. apply elem_of_listUnused in Hk as [Hsome Hnot].
  apply elem_of_listUnused. rewrite <- Hparams. split; [exact Hsome|].
  intros Hu. apply Hnot. now apply Hused.
Qed.

Lemma runCtor_only_reads_and_adds_witness :
  params (mkArguments {[ "useRowTime" := mkValue TBool (dBool true) ]}
            {[ "useRowTime" := true ]})
  = params (newArguments {[ "useRowTime" := mkValue TBool (dBool true) ]}).
Proof.
  exact (proj1
           (runCtor_only_reads_and_adds createMaxOpSpec newEvaluator
              (newArguments {[ "useRowTime" := mkValue TBool (dBool true) ]})
              (mkArguments {[ "useRowTime" := mkValue TBool (dBool true) ]}
                 {[ "useRowTime" := true ]})
              (mkContext []) (mkContext []) (inr (MaxOpSpec true)) eq_refl)).
Defined.

(** ** Keyword parameters *)

Section Resolve.
Variable doExpression : Expression -> M Value.
(** The value of an expression whose evaluation leaves the state as
    it is. *)
Variable val : Expression -> Value.

Definition keyword_values (props : list (string * Expression)) : list (string * Value) :=
  (fun p => (p.1, val p.2)) <$> props.

Definition duplicate_keyword (k : string) : error :=
  Errorf ("duplicate keyword parameter specified: " +:+ quote k).

Lemma resolveParameters_loop_run (props : list (string * Expression)) :
  (forall p ev, p ∈ props -> doExpression p.2 ev = Ok (val p.2, ev)) ->
  NoDup props.*1 ->
  forall (m : gmap string Value) (ev : evaluator),
    (forall k, k ∈ props.*1 -> m !! k = None) ->
    resolveParameters_loop doExpression props m ev =
      Ok (list_to_map (keyword_values props) ∪ m, ev).
Proof.
  induction props as [|[k e] props IH]; intros Hpure Hnd m ev Hfresh.
  - simpl. now rewrite (left_id ∅ (∪)).
  - simpl in Hnd. apply NoDup_cons in Hnd as [Hk Hnd].
    cbn [resolveParameters_loop fst snd].
    rewrite (bind_Ok _ _ _ _ _ (Hpure (k, e) ev (list_elem_of_here _ _))).
    rewrite (Hfresh k (list_elem_of_here _ _)).
    rewrite IH; auto.
    + f_equal. f_equal. simpl. rewrite <- insert_union_l.
      symmetry. apply insert_union_r. apply not_elem_of_list_to_map_1.
      unfold keyword_values. rewrite <- list_fmap_compose. exact Hk.
    + intros p ev' Hp. apply Hpure. now right.
    + intros k' Hk'. rewrite lookup_insert_ne; [apply Hfresh; now right|].
      intros <-. contradiction.
Qed.

Lemma resolveParameters_loop_duplicate (l1 : list (string * Expression)) :
  forall (k : string) (e : Expression) (l2 : list (string * Expression))
         (m : gmap string Value) (ev : evaluator),
    (forall p ev, p ∈ l1 ++ (k, e) :: l2 -> doExpression p.2 ev = Ok (val p.2, ev)) ->
    NoDup l1.*1 ->
    (forall k', k' ∈ l1.*1 -> m !! k' = None) ->
    k ∈ l1.*1 \/ is_Some (m !! k) ->
    resolveParameters_loop doExpression (l1 ++ (k, e) :: l2) m ev =
      Err (duplicate_keyword k).
Proof.
  induction l1 as [|[k1 e1] l1 IH]; intros k e l2 m ev Hpure Hnd Hfresh Hdup.
  - destruct Hdup as [Hin|[v Hv]]; [inversion Hin|].
    cbn [app resolveParameters_loop fst snd].
    rewrite (bind_Ok _ _ _ _ _ (Hpure (k, e) ev (list_elem_of_here _ _))).
    now rewrite Hv.
  - simpl in Hnd. apply NoDup_cons in Hnd as [Hk1 Hnd].
    cbn [app resolveParameters_loop fst snd].
    rewrite (bind_Ok _ _ _ _ _ (Hpure (k1, e1) ev (list_elem_of_here _ _))).
    rewrite (Hfresh k1 (list_elem_of_here _ _)).
    apply IH; auto.
    + intros p ev' Hp. apply Hpure. now right.
    + intros k' Hk'. rewrite lookup_insert_ne; [apply Hfresh; now right|].
      intros <-. contradiction.
    + destruct Hdup as [Hin|[v Hv]].
      * simpl in Hin. apply elem_of_cons in Hin as [->|Hin]; [|now left].
        right. rewrite lookup_insert_eq. eauto.
      * right. destruct (decide (k = k1)) as [->|Hne].
        -- rewrite lookup_insert_eq. eauto.
        -- rewrite lookup_insert_ne by auto. eauto.
Qed.

(** X22.  The keyword parameters of a call whose values evaluate
    without touching the state: when the keywords are distinct,
    resolveParameters returns the map from each keyword to its value;
    otherwise it returns the error "duplicate keyword parameter
    specified", naming the first keyword that repeats an earlier
    one. *)
Theorem resolveParameters_collects :
  forall (props : list (string * Expression)) (ev : evaluator),
    (forall p ev, p ∈ props -> doExpression p.2 ev = Ok (val p.2, ev)) ->
    (NoDup props.*1 ->
       resolveParameters doExpression props ev =
         Ok (list_to_map (keyword_values props), ev))
    /\ (forall l1 k e l2,
          props = l1 ++ (k, e) :: l2 -> NoDup l1.*1 -> k ∈ l1.*1 ->
          resolveParameters doExpression props ev = Err (duplicate_keyword k)).
Proof.
  intros props ev Hpure. split.
  - intros Hnd. unfold resolveParameters.
    rewrite resolveParameters_loop_run; auto.
    now rewrite (right_id ∅ (∪)).
  - intros l1 k e l2 -> Hnd Hin. unfold resolveParameters.
    apply resolveParameters_loop_duplicate; auto.
Qed.

End Resolve.

Definition keywords_db_limit : list (string * Expression) :=
  [("db", StringLiteral "x"); ("limit", IntegerLiteral 3)].

Lemma resolveParameters_collects_witness :
  resolveParameters (doExpression ∅ ∅ (fun _ n => n) 1) keywords_db_limit newEvaluator
  = Ok ({[ "db" := mkValue TString (dString "x"); "limit" := mkValue TInt (dInt 3) ]},
        newEvaluator).
Proof.
  assert (Hpure : forall p ev, p ∈ keywords_db_limit ->
            doExpression ∅ ∅ (fun _ n => n) 1 p.2 ev = Ok (EvalExpressionFacts.literal_value p.2, ev)).
  { intros p ev Hp. unfold keywords_db_limit in Hp.
    apply elem_of_cons in Hp as [->|Hp]; [reflexivity|].
    apply list_elem_of_singleton in Hp as ->. reflexivity. }
  assert (Hnd : NoDup keywords_db_limit.*1).
  { apply NoDup_ListNoDup. repeat constructor; simpl; intuition discriminate. }
  rewrite (proj1 (resolveParameters_collects _ EvalExpressionFacts.literal_value keywords_db_limit
                    newEvaluator Hpure) Hnd).
  reflexivity.
Defined.


(** ** Appending to a slice *)

Section Slices.
Context {T : Type}.
Variable zero : T.
Variable growslice : nat -> nat -> nat.
Hypothesis growslice_fits : forall old needed, needed <= growslice old needed.

(** The slice lies within its array. *)
Definition slice_ok (arrays : list (list T)) (s : slice) : Prop :=
  len s <= cap s
  /\ (0 < cap s -> exists arr, arrays !! base s = Some arr /\ length arr = cap s).

Lemma elems_length_ok (arrays : list (list T)) (s : slice) :
  slice_ok arrays s -> length (elems arrays s) = len s.
Proof.
  intros [Hle Harr]. unfold elems. rewrite length_take.
  destruct (decide (0 < cap s)) as [Hc|Hc].
  - destruct (Harr Hc) as (arr & -> & Hl). simpl. lia.
  - lia.
Qed.

Lemma append1_elems (arrays : list (list T)) (s : slice) (x : T) :
  slice_ok arrays s ->
  elems (append1 zero growslice arrays s x).1 (append1 zero growslice arrays s x).2
    = elems arrays s ++ [x]
  /\ slice_ok (append1 zero growslice arrays s x).1 (append1 zero growslice arrays s x).2.
Proof.
  intros Hok. pose proof (elems_length_ok arrays s Hok) as Hlen.
  destruct Hok as [Hle Harr]. unfold append1.
  destruct (len s <? cap s) eqn:Hlt.
  - apply Nat.ltb_lt in Hlt. destruct (Harr ltac:(lia)) as (arr & Ha & Hl).
    cbn [fst snd]. split.
    + unfold elems. cbn [base len]. rewrite list_lookup_alter_eq, Ha. simpl.
      rewrite Nat.add_1_r.
      rewrite (take_S_r _ _ x) by (apply list_lookup_insert_eq; lia).
      now rewrite take_insert_ge by lia.
    + split; cbn [base len cap]; [lia|]. intros _.
      exists (<[len s := x]> arr). rewrite list_lookup_alter_eq, Ha. simpl.
      split; [reflexivity|]. now rewrite length_insert.
  - apply Nat.ltb_ge in Hlt. cbn [fst snd].
    pose proof (growslice_fits (cap s) (len s + 1)) as Hfit. split.
    + unfold elems at 1. cbn [base len].
      rewrite list_lookup_middle by reflexivity. cbn [default from_option].
      rewrite app_assoc. apply take_app_length'. rewrite length_app, Hlen. simpl. lia.
    + split; cbn [base len cap]; [lia|]. intros _.
      eexists. split; [apply list_lookup_middle; reflexivity|].
      rewrite !length_app, length_replicate, Hlen. simpl. lia.
Qed.

End Slices.

Lemma path_snoc (ids : list OperationID) (l x : OperationID) :
  last ids = Some l ->
  zip_with mkEdge (ids ++ [x]) (tail (ids ++ [x])) =
    zip_with mkEdge ids (tail ids) ++ [mkEdge l x].
Proof.
  induction ids as [|i0 [|i1 ids] IH]; intros Hl; simpl in *.
  - discriminate.
  - now injection Hl as ->.
  - f_equal. now apply IH.
Qed.

(** ** A chain of calls *)

(** A call: the name of the function or method, the arguments, and the
    spec that the constructor returns for them. *)
Record call : Type := mkCall {
  call_name : string;
  call_args : list Expression;
  call_spec : OperationSpec
}.

(** The expression [f(args).m1(args1). ... .mk(argsk)]. *)
Definition chain_expr (f : call) (ms : list call) : Expression :=
  foldl (fun e m =>
           CallExpression (MemberExpression e (Identifier (call_name m))) (call_args m))
        (CallExpression (Identifier (call_name f)) (call_args f)) ms.

(** The operation of the [i]-th call, counted from [start]. *)
Definition operation_of (start i : nat) (c : call) : Operation :=
  mkOperation (Sprintf_sd (call_name c) (start + i)) (Some (call_spec c)).

Definition new_ops (start : nat) (calls : list call) : list Operation :=
  imap (operation_of start) calls.

(** The edges of a path through the ids. *)
Definition path (ids : list OperationID) : list Edge :=
  zip_with mkEdge ids (tail ids).

(** The state after createOp has allocated the operation of a call. *)
Definition allocated (name : string) (spec : OperationSpec) (ev : evaluator)
    : evaluator :=
  set_ops (ops ev ++ [mkOperation (Sprintf_sd name (id ev)) (Some spec)])
    (set_id (id ev + 1) ev).

Lemma new_ops_snoc start calls m :
  new_ops start (calls ++ [m]) =
    new_ops start calls ++
    [mkOperation (Sprintf_sd (call_name m) (start + length calls)) (Some (call_spec m))].
Proof.
  unfold new_ops. rewrite imap_app. simpl. unfold operation_of.
  now rewrite Nat.add_0_r.
Qed.

Section Chain.
Variable functionsMap : gmap string CreateOperationSpec.
Variable methodMap : gmap string CreateOperationSpec.
Variable growslice : nat -> nat -> nat.
Hypothesis growslice_fits : forall old needed, needed <= growslice old needed.

(** The call is registered in [table] and is plain: in every state
    createOp allocates its operation, gives it the spec of the call and
    returns no additional parents. *)
Definition plain (table : gmap string CreateOperationSpec) (c : call) : Prop :=
  exists ctor,
    table !! call_name c = Some ctor
    /\ forall (fuel : nat) (ev : evaluator),
         createOp (doExpression functionsMap methodMap growslice (S fuel))
           (call_name c) ctor (call_args c) ev
         = Ok ((length (ops ev), []), allocated (call_name c) (call_spec c) ev).

(** What the evaluation of a chain of calls has built, from the state
    [ev0] on: the operations of the calls, and a chain at [p] that
    shows them in order and the path through them. *)
Record chain_built (ev0 : evaluator) (calls : list call) (ev : evaluator) (p : nat)
    : Prop := mkChainBuilt {
  cb_id : id ev = id ev0 + length calls;
  cb_ops : ops ev = ops ev0 ++ new_ops (id ev0) calls;
  cb_scope : scope ev = scope ev0;
  cb_operations : operations ev = operations ev0;
  cb_edges : edges ev = edges ev0;
  cb_chain : exists c,
    chains ev !! p = Some c
    /\ Some (Chain_Parent c) = last (ID <$> new_ops (id ev0) calls)
    /\ elems (opArrays ev) (Operations c) = Some <$> seq (length (ops ev0)) (length calls)
    /\ elems (edgeArrays ev) (Edges c) = path (ID <$> new_ops (id ev0) calls)
    /\ slice_ok (opArrays ev) (Operations c)
    /\ slice_ok (edgeArrays ev) (Edges c)
}.

Lemma callFunction_S (fuel : nat) :
  callFunction functionsMap methodMap growslice (S fuel) =
    callFunction_body functionsMap methodMap growslice
      (doExpression functionsMap methodMap growslice fuel)
      (callFunction functionsMap methodMap growslice fuel).
Proof. reflexivity. Qed.

Lemma doExpression_S (fuel : nat) :
  doExpression functionsMap methodMap growslice (S fuel) =
    doExpression_body
      (doExpression functionsMap methodMap growslice fuel)
      (callFunction functionsMap methodMap growslice fuel).
Proof. reflexivity. Qed.

Lemma append_Operation_run (p op : nat) (ev : evaluator) (c : CallChain) :
  chains ev !! p = Some c ->
  append_Operation growslice p op ev =
    Ok (tt, set_chains
              (<[p := mkCallChain (Chain_Parent c)
                        (append1 None growslice (opArrays ev) (Operations c) (Some op)).2
                        (Edges c)]> (chains ev))
              (set_opArrays
                 (append1 None growslice (opArrays ev) (Operations c) (Some op)).1 ev)).
Proof.
  intros Hc. unfold append_Operation.
  erewrite bind_Ok; [|unfold load_chain; rewrite Hc; reflexivity].
  erewrite bind_Ok; [|reflexivity].
  destruct (append1 None growslice (opArrays ev) (Operations c) (Some op)) as [arrays s].
  erewrite bind_Ok; [|reflexivity].
  unfold store_chain. simpl. now rewrite Hc.
Qed.

Lemma append_Edge_run (p : nat) (e : Edge) (ev : evaluator) (c : CallChain) :
  chains ev !! p = Some c ->
  append_Edge growslice p e ev =
    Ok (tt, set_chains
              (<[p := mkCallChain (Chain_Parent c) (Operations c)
                        (append1 Edge_zero growslice (edgeArrays ev) (Edges c) e).2]>
                 (chains ev))
              (set_edgeArrays
                 (append1 Edge_zero growslice (edgeArrays ev) (Edges c) e).1 ev)).
Proof.
  intros Hc. unfold append_Edge.
  erewrite bind_Ok; [|unfold load_chain; rewrite Hc; reflexivity].
  erewrite bind_Ok; [|reflexivity].
  destruct (append1 Edge_zero growslice (edgeArrays ev) (Edges c) e) as [arrays s].
  erewrite bind_Ok; [|reflexivity].
  unfold store_chain. simpl. now rewrite Hc.
Qed.

Lemma function_begins_chain (f : call) (fuel : nat) (ev0 : evaluator) :
  plain functionsMap f ->
  exists ev p,
    callFunction functionsMap methodMap growslice (S (S fuel))
      (Identifier (call_name f)) (call_args f) None ev0 = Ok (p, ev)
    /\ chain_built ev0 [f] ev p.
Proof.
  intros (ctor & Hctor & Hplain).
  rewrite callFunction_S. unfold callFunction_body.
  erewrite bind_Ok; [|unfold function; rewrite Hctor; unfold wrapping;
                      rewrite Hplain; reflexivity].
  cbv beta iota.
  erewrite bind_Ok;
    [|unfold Operation_ID, allocated; simpl;
      rewrite list_lookup_middle by reflexivity; reflexivity].
  erewrite bind_Ok; [|reflexivity].
  unfold literal1.
  erewrite bind_Ok; [|reflexivity].
  erewrite bind_Ok; [|reflexivity].
  cbn [additional_parents]. erewrite bind_Ok; [|reflexivity].
  eexists _, _. split; [reflexivity|].
  constructor; simpl.
  - reflexivity.
  - unfold new_ops, operation_of. simpl. now rewrite Nat.add_0_r.
  - reflexivity.
  - reflexivity.
  - reflexivity.
  - eexists. split; [apply list_lookup_middle; reflexivity|]. simpl.
    split; [now rewrite Nat.add_0_r|]. split.
    + unfold elems. simpl. rewrite list_lookup_middle by reflexivity. reflexivity.
    + split; [reflexivity|]. split.
      * split; simpl; [lia|]. intros _. eexists.
        split; [apply list_lookup_middle; reflexivity|reflexivity].
      * split; simpl; [lia|]. intros H. lia.
Qed.

Lemma method_extends_chain (calls : list call) (m : call) (fuel : nat)
    (callee : Expression) (args : list Expression) (ev0 ev1 : evaluator) (p : nat) :
  plain methodMap m ->
  calls <> [] ->
  callFunction functionsMap methodMap growslice (S fuel) callee args None ev0
    = Ok (p, ev1) ->
  chain_built ev0 calls ev1 p ->
  exists ev,
    callFunction functionsMap methodMap growslice (S (S fuel))
      (MemberExpression (CallExpression callee args) (Identifier (call_name m)))
      (call_args m) None ev0 = Ok (p, ev)
    /\ chain_built ev0 (calls ++ [m]) ev p.
Proof.
  intros (ctor & Hctor & Hplain) Hne Hrun [Hid Hops Hscope Hopers Hedges Hchain].
  destruct Hchain as (c & Hc & Hparent & Helems & Hpath & Hok1 & Hok2).
  assert (Hp : p < length (chains ev1)) by (eapply lookup_lt_Some, Hc).
  pose proof (append1_elems None growslice growslice_fits (opArrays ev1) (Operations c)
                (Some (length (ops ev1))) Hok1) as [Hel1 Hok1'].
  pose proof (append1_elems Edge_zero growslice growslice_fits (edgeArrays ev1) (Edges c)
                (mkEdge (Chain_Parent c) (Sprintf_sd (call_name m) (id ev1))) Hok2)
    as [Hel2 Hok2'].
  rewrite callFunction_S. unfold callFunction_body.
  erewrite bind_Ok;
    [|unfold memberFunction; erewrite bind_Ok; [|exact Hrun]; reflexivity].
  cbv beta iota.
  erewrite bind_Ok; [|unfold method; rewrite Hctor; unfold wrapping;
                      rewrite Hplain; reflexivity].
  cbv beta iota.
  erewrite bind_Ok;
    [|unfold Operation_ID, allocated; simpl;
      rewrite list_lookup_middle by reflexivity; reflexivity].
  erewrite bind_Ok; [|apply append_Operation_run; exact Hc].
  erewrite bind_Ok;
    [|unfold load_chain; simpl; rewrite list_lookup_insert_eq by exact Hp; reflexivity].
  erewrite bind_Ok;
    [|apply append_Edge_run; simpl; apply list_lookup_insert_eq; exact Hp].
  cbn [additional_parents]. erewrite bind_Ok; [|reflexivity].
  erewrite bind_Ok;
    [|unfold load_chain; simpl; rewrite list_lookup_insert_eq
        by (rewrite length_insert; exact Hp); reflexivity].
  erewrite bind_Ok;
    [|unfold store_chain; simpl; rewrite list_lookup_insert_eq
        by (rewrite length_insert; exact Hp); reflexivity].
  eexists. split; [reflexivity|].
  constructor; simpl.
  - rewrite length_app, Hid. simpl. lia.
  - rewrite Hops, new_ops_snoc, <- app_assoc, Hid. reflexivity.
  - exact Hscope.
  - exact Hopers.
  - exact Hedges.
  - eexists. split.
    { apply list_lookup_insert_eq. rewrite !length_insert. exact Hp. }
    rewrite new_ops_snoc, fmap_snoc, last_snoc.
    cbn [Chain_Parent Operations Edges ID fmap list_fmap].
    split; [now rewrite Hid|]. split.
    { rewrite Hel1, Helems, Hops, !length_app, seq_app. cbn [length seq].
      unfold new_ops. now rewrite length_imap, fmap_snoc. }
    split.
    { rewrite Hel2, Hpath. unfold path.
      rewrite (path_snoc _ (Chain_Parent c)) by (symmetry; exact Hparent).
      now rewrite Hid. }
    split; assumption.
Qed.

Lemma chain_expr_snoc (f : call) (ms : list call) (m : call) :
  chain_expr f (ms ++ [m]) =
    CallExpression (MemberExpression (chain_expr f ms) (Identifier (call_name m)))
      (call_args m).
Proof. unfold chain_expr. now rewrite foldl_snoc. Qed.

Lemma chain_run (f : call) (ms : list call) :
  plain functionsMap f ->
  Forall (plain methodMap) ms ->
  exists callee args,
    chain_expr f ms = CallExpression callee args
    /\ forall (fuel : nat) (ev0 : evaluator),
         exists ev p,
           callFunction functionsMap methodMap growslice (S (S (length ms + fuel)))
             callee args None ev0 = Ok (p, ev)
           /\ chain_built ev0 (f :: ms) ev p.
Proof.
  intros Hf. induction ms as [|m ms IH] using rev_ind; intros Hms.
  - eexists _, _. split; [reflexivity|]. intros fuel ev0.
    apply function_begins_chain, Hf.
  - apply Forall_app in Hms as [Hms Hm]. apply List.Forall_inv in Hm.
    destruct (IH Hms) as (callee & args & He & Hrun).
    eexists _, _. split; [rewrite chain_expr_snoc, He; reflexivity|].
    intros fuel ev0. destruct (Hrun fuel ev0) as (ev1 & p & Hrun1 & Hbuilt).
    rewrite length_app. simpl. replace (length ms + 1 + fuel) with (S (length ms + fuel)) by lia.
    destruct (method_extends_chain (f :: ms) m _ callee args ev0 ev1 p Hm
                ltac:(discriminate) Hrun1 Hbuilt) as (ev & Hrun2 & Hbuilt2).
    exists ev, p. split; [exact Hrun2|exact Hbuilt2].
Qed.

(** X23.  A call chain [f(..).m1(..). ... .mk(..)] of plain calls as
    the only statement of a program: with enough fuel Evaluate
    succeeds; the operations allocated are those of the calls in
    order, with the IDs name0, name1, ...; the query spec lists each
    of them once, in order, and its edges are the path from each
    call to the next. *)
Theorem chain_lowers_to_path :
  forall (f : call) (ms : list call) (fuel : nat),
    plain functionsMap f ->
    Forall (plain methodMap) ms ->
    length ms + 3 <= fuel ->
    exists ev,
      Evaluate functionsMap methodMap growslice fuel
        (mkProgram [ExpressionStatement (chain_expr f ms)])
      = Ok (mkQuerySpec (Some <$> seq 0 (S (length ms)))
              (path (ID <$> new_ops 0 (f :: ms))), ev)
      /\ ops ev = new_ops 0 (f :: ms).
Proof.
  intros f ms fuel Hf Hms Hfuel.
  destruct (chain_run f ms Hf Hms) as (callee & args & He & Hrun).
  destruct (Hrun (fuel - length ms - 3) newEvaluator) as (ev1 & p & Hrun1 & Hbuilt).
  replace fuel with (S (S (S (length ms + (fuel - length ms - 3))))) by lia.
  destruct Hbuilt as [Hid Hops Hscope Hopers Hedges Hchain].
  destruct Hchain as (c & Hc & Hparent & Helems & Hpath & Hok1 & Hok2).
  unfold Evaluate. cbn [ProgramBody eval].
  erewrite bind_Ok.
  2:{ erewrite bind_Ok.
      2:{ rewrite doExpression_S, He. unfold doExpression_body. cbn [isLiteral].
          erewrite bind_Ok; [|exact Hrun1]. reflexivity. }
      cbn [Type_of Value_of]. rewrite bool_decide_eq_true_2 by reflexivity.
      apply (addChain_run p ev1 c Hc). }
  unfold ret, spec. cbn [operations edges ops set_chains set_edges set_operations].
  eexists. split.
  - rewrite Hopers, Hedges, Helems, Hpath. reflexivity.
  - exact Hops.
Qed.

End Chain.

(** createOp on a call whose arguments resolve to [paramMap] without
    touching the state, and whose constructor reads all of them,
    returns a spec and adds no parent. *)
Lemma createOp_allocates (doExpression : Expression -> M Value) (name : string)
    (ctor : CreateOperationSpec) (args : list Expression)
    (paramMap : gmap string Value) (a : arguments) (spec : OperationSpec)
    (ev : evaluator) :
  match args with
  | [arg] =>
      match arg with
      | ObjectExpression properties =>
          forall ev', resolveParameters doExpression properties ev' = Ok (paramMap, ev')
      | _ => False
      end
  | _ => paramMap = ∅
  end ->
  (forall ev', runCtor ctor ev' (newArguments paramMap) (mkContext [])
               = Done (a, mkContext [], inr spec)) ->
  listUnused a = [] ->
  createOp doExpression name ctor args ev
    = Ok ((length (ops ev), []), allocated name spec ev).
Proof.
  intros Hargs Hctor Hunused. unfold createOp.
  erewrite bind_Ok; [|reflexivity].
  erewrite bind_Ok; [|reflexivity].
  assert (Hres : forall ev',
             match args with
             | [arg] =>
                 match arg with
                 | ObjectExpression properties => resolveParameters doExpression properties
                 | _ => fail (Errorf "arguments not a valid object expression")
                 end
             | _ => ret ∅
             end ev' = Ok (paramMap, ev')).
  { intros ev'.
    destruct args as [|[] [|]]; try contradiction; try (subst; reflexivity).
    apply Hargs. }
  erewrite bind_Ok; [|apply Hres].
  erewrite bind_Ok; [|reflexivity].
  rewrite Hctor, Hunused. cbn [length Nat.ltb Nat.leb].
  erewrite bind_Ok.
  2:{ unfold set_Operation_Spec. cbn [ops set_ops set_id].
      rewrite list_lookup_middle by reflexivity. reflexivity. }
  unfold ret, allocated. cbn. do 2 f_equal.
  unfold set_ops, set_id. cbn. f_equal.
  rewrite insert_app_r_alt by lia. now rewrite Nat.sub_diag.
Qed.

(** The calls of [select(db: "x").max().max()]. *)
Definition select_call : call :=
  mkCall "select" [ObjectExpression [("db", StringLiteral "x")]] (SelectOpSpec "x").

Definition max_call : call := mkCall "max" [] (MaxOpSpec false).

Lemma chain_lowers_to_path_witness :
  exists ev,
    Evaluate {[ "select" := createSelectOpSpec ]} {[ "max" := createMaxOpSpec ]}
      double_capacity 5
      (mkProgram [ExpressionStatement (chain_expr select_call [max_call; max_call])])
    = Ok (mkQuerySpec [Some 0; Some 1; Some 2]
            [mkEdge "select0" "max1"; mkEdge "max1" "max2"], ev)
    /\ ID <$> ops ev = ["select0"; "max1"; "max2"].
Proof.
  assert (Hgrow : forall old needed, needed <= double_capacity old needed)
    by (intros old needed; unfold double_capacity; lia).
  assert (Hmax : plain {[ "select" := createSelectOpSpec ]} {[ "max" := createMaxOpSpec ]}
                   double_capacity {[ "max" := createMaxOpSpec ]} max_call).
  { exists createMaxOpSpec. split; [reflexivity|]. intros fuel ev.
    apply (createOp_allocates _ _ _ _ ∅ (mkArguments ∅ {[ "useRowTime" := true ]}));
      [reflexivity|intros ev'; reflexivity|reflexivity]. }
  destruct (chain_lowers_to_path {[ "select" := createSelectOpSpec ]}
              {[ "max" := createMaxOpSpec ]} double_capacity Hgrow
              select_call [max_call; max_call] 5) as (ev & Hrun & Hops).
  - exists createSelectOpSpec. split; [reflexivity|]. intros fuel ev.
    apply (createOp_allocates _ _ _ _ {[ "db" := mkValue TString (dString "x") ]}
             (mkArguments {[ "db" := mkValue TString (dString "x") ]} {[ "db" := true ]}));
      [intros ev'; reflexivity|intros ev'; reflexivity|reflexivity].
  - repeat constructor; exact Hmax.
  - simpl. lia.
  - exists ev. split; [exact Hrun|]. rewrite Hops. reflexivity.
Defined.

End EvalCallFacts.

(** * Properties of the tables of constructors *)
Module RegistryFacts.
Import Eval Registry.
Local Open Scope nat_scope.

(** The names that the table holds with a constructor that is not nil. *)
Definition taken (m : gmap string (option CreateOperationSpec)) (name : string) : Prop :=
  exists c, m !! name = Some (Some c).

Lemma register_all_done (what : string) (calls : list (string * option CreateOperationSpec)) :
  forall m : gmap string (option CreateOperationSpec),
    Forall (fun call => is_Some call.2) calls ->
    NoDup calls.*1 ->
    (forall name, name ∈ calls.*1 -> ~ taken m name) ->
    register_all (register what) calls m = Done (list_to_map calls ∪ m).
Proof.
  induction calls as [|[name c] calls IH]; intros m Hsome Hnd Hfree.
  - simpl. now rewrite (left_id ∅ (∪)).
  - apply Forall_cons in Hsome as [[c' Hc] Hsome]. simpl in Hc. subst c.
    simpl in Hnd. apply NoDup_cons in Hnd as [Hname Hnd].
    assert (Hm : ~ taken m name) by (apply Hfree; now left).
    assert (Hreg : register what name (Some c') m = Done (<[name := Some c']> m)).
    { unfold register. destruct (m !! name) as [[c|]|] eqn:Hl; try reflexivity.
      exfalso. apply Hm. now exists c. }
    cbn [register_all fst snd]. rewrite Hreg.
    rewrite IH; [|exact Hsome|exact Hnd|].
    + f_equal. simpl. rewrite <- insert_union_l. symmetry.
      apply insert_union_r. apply not_elem_of_list_to_map_1. exact Hname.
    + intros k Hk [c Hc]. destruct (decide (k = name)) as [->|Hne]; [contradiction|].
      rewrite lookup_insert_ne in Hc by auto. apply (Hfree k); [now right|now exists c].
Qed.

Lemma register_all_panics (what : string) (l1 : list (string * option CreateOperationSpec)) :
  forall (name : string) (c : option CreateOperationSpec)
         (l2 : list (string * option CreateOperationSpec))
         (m : gmap string (option CreateOperationSpec)),
    Forall (fun call => is_Some call.2) l1 ->
    NoDup l1.*1 ->
    (forall k, k ∈ l1.*1 -> ~ taken m k) ->
    name ∈ l1.*1 \/ taken m name ->
    register_all (register what) (l1 ++ (name, c) :: l2) m
      = Panic ("duplicate registration for " +:+ what +:+ " " +:+ quote name).
Proof.
  induction l1 as [|[k1 c1] l1 IH]; intros name c l2 m Hsome Hnd Hfree Hdup.
  - destruct Hdup as [Hin|[c' Hc']]; [inversion Hin|].
    cbn [app register_all fst snd]. unfold register. now rewrite Hc'.
  - apply Forall_cons in Hsome as [[c' Hc] Hsome]. simpl in Hc. subst c1.
    simpl in Hnd. apply NoDup_cons in Hnd as [Hk1 Hnd].
    assert (Hm : ~ taken m k1) by (apply Hfree; now left).
    assert (Hreg : register what k1 (Some c') m = Done (<[k1 := Some c']> m)).
    { unfold register. destruct (m !! k1) as [[c0|]|] eqn:Hl; try reflexivity.
      exfalso. apply Hm. now exists c0. }
    cbn [app register_all fst snd]. rewrite Hreg.
    apply IH; [exact Hsome|exact Hnd| |].
    + intros k Hk [c0 Hc0]. destruct (decide (k = k1)) as [->|Hne]; [contradiction|].
      rewrite lookup_insert_ne in Hc0 by auto. apply (Hfree k); [now right|now exists c0].
    + destruct Hdup as [Hin|[c0 Hc0]].
      * simpl in Hin. apply elem_of_cons in Hin as [->|Hin]; [|now left].
        right. exists c'. apply lookup_insert_eq.
      * right. destruct (decide (name = k1)) as [->|Hne].
        -- exists c'. apply lookup_insert_eq.
        -- exists c0. now rewrite lookup_insert_ne by auto.
Qed.

(** Registrations of constructors in an empty table with [reg], none
    of them nil: when the names are distinct, all registrations
    succeed and the table maps each name to its constructor and holds
    no other name; otherwise the registration of the first name that
    repeats an earlier one panics with "duplicate registration for",
    the word [what] and the name.  A nil constructor does not take its
    name: the same name can be registered again. *)
Definition names_once
    (reg : string -> option CreateOperationSpec ->
           gmap string (option CreateOperationSpec) -> outcome table)
    (what : string) : Prop :=
  forall ctors : list (string * CreateOperationSpec),
    (NoDup ctors.*1 ->
       exists m : gmap string (option CreateOperationSpec),
         register_all reg (registrations ctors) ∅ = Done m
         /\ (forall name c, (name, c) ∈ ctors -> m !! name = Some (Some c))
         /\ (forall name, name ∉ ctors.*1 -> m !! name = None))
    /\ (forall l1 name c l2,
          ctors = l1 ++ (name, c) :: l2 -> NoDup l1.*1 -> name ∈ l1.*1 ->
          register_all reg (registrations ctors) ∅
            = Panic ("duplicate registration for " +:+ what +:+ " " +:+ quote name))
    /\ (forall name c,
          register_all reg [(name, None); (name, Some c)] ∅
            = Done {[ name := Some c ]}).

Lemma register_names_once (what : string) : names_once (register what) what.
Proof.
  intros ctors.
  assert (Hfst : forall l : list (string * CreateOperationSpec),
            (registrations l).*1 = l.*1).
  { intros l. unfold registrations. rewrite <- list_fmap_compose.
    apply list_fmap_ext. now intros i [] _. }
  assert (Hsome : forall l : list (string * CreateOperationSpec),
            Forall (fun call : string * option CreateOperationSpec => is_Some call.2)
              (registrations l)).
  { intros l. apply Forall_fmap, Forall_forall. intros ctor _. simpl. eauto. }
  split; [|split].
  - intros Hnd. exists (list_to_map (registrations ctors)). split.
    + rewrite register_all_done.
      * f_equal. apply (right_id_L ∅ (∪)).
      * apply Hsome.
      * now rewrite Hfst.
      * intros name _ [c Hc]. rewrite lookup_empty in Hc. discriminate.
    + split.
      * intros name c Hin. apply elem_of_list_to_map_1; [now rewrite Hfst|].
        apply (list_elem_of_fmap_2
                 (fun ctor : string * CreateOperationSpec => (ctor.1, Some ctor.2)) _ _ Hin).
      * intros name Hname. apply not_elem_of_list_to_map_1. now rewrite Hfst.
  - intros l1 name c l2 -> Hnd Hin. unfold registrations.
    rewrite fmap_app, fmap_cons. fold (registrations l1).
    apply register_all_panics; [apply Hsome|now rewrite Hfst| |left; now rewrite Hfst].
    intros k _ [c0 Hc0]. rewrite lookup_empty in Hc0. discriminate.
  - intros name c. cbn [register_all fst snd]. unfold register.
    rewrite lookup_empty, lookup_insert_eq. f_equal.
    rewrite insert_insert_eq. reflexivity.
Qed.

(** X24.  RegisterFunction and RegisterMethod let a name be taken
    once: registrations with distinct names all succeed and fill the
    table with exactly these constructors; the first registration
    that repeats a name panics with "duplicate registration for
    function" (or "method") and the name; a nil constructor does not
    take its name. *)
Theorem Register_takes_a_name_once :
  names_once RegisterFunction "function" /\ names_once RegisterMethod "method".
Proof. split; apply register_names_once. Qed.

End RegistryFacts.
